(** * multireadseeker: a sequence of seekable sources as one seekable stream

    Shallow embedding of [multireadseeker.go].  The file holds two
    implementations:

    - the compiled one, [MultiReadSeeker] over the [ReadCloseSeeker]
      interface ([New], [Initialize], [Close]);
    - the file-name based [ConcatFile] ([Open], [Read], [goToNextFile],
      [Seek], [findSeekIndex], [Tell], [Size]) that the file retains inside
      its block comment (lines 110-407).

    Both are embedded as written.  Go's [int64] is [Z] with the wrap-around
    written out, slices are lists with checked indexing (an index out of
    range panics), and a Go panic is the [Panicked] outcome. *)

From Stdlib Require Import ZArith Lia Strings.Byte.
From stdpp Require Import base option list gmap strings.

Local Open Scope string_scope.
Local Open Scope list_scope.
Local Open Scope Z_scope.

(** ** Outcomes of a Go call: normal return, panic, or fuel exhausted *)

Inductive run (A : Type) : Type :=
  | Done (a : A)
  | Panicked (msg : string)
  | Diverged.
Arguments Done {A} a.
Arguments Panicked {A} msg.
Arguments Diverged {A}.

#[global] Instance run_ret : MRet run := λ A a, Done a.
#[global] Instance run_bind : MBind run := λ A B f m,
  match m with
  | Done a => f a
  | Panicked msg => Panicked msg
  | Diverged => Diverged
  end.

(** ** int64 arithmetic *)

Definition MaxInt64 : Z := 2 ^ 63 - 1.
Definition wrap64 (z : Z) : Z := (z + 2 ^ 63) `mod` 2 ^ 64 - 2 ^ 63.
Definition add64 (a b : Z) : Z := wrap64 (a + b).
Definition sub64 (a b : Z) : Z := wrap64 (a - b).

(** ** Slices *)

Definition len {A} (l : list A) : Z := Z.of_nat (length l).

Definition slice_get {A} (l : list A) (i : Z) : run A :=
  if bool_decide (0 ≤ i < len l) then
    match l !! Z.to_nat i with
    | Some x => Done x
    | None => Panicked "index out of range"
    end
  else Panicked "index out of range".

Definition slice_set {A} (l : list A) (i : Z) (x : A) : run (list A) :=
  if bool_decide (0 ≤ i < len l) then Done (<[Z.to_nat i := x]> l)
  else Panicked "index out of range".

(** [make([]T, n)]: [n] zero values. *)
Definition make {A} (zero : A) (n : Z) : list A := replicate (Z.to_nat n) zero.

(** ** Errors *)

(** An argument of a format string; a [%v] of a child is kept as the
    child's position in the argument list. *)
Inductive fmt_arg : Type :=
  | FmtInt (i : Z)
  | FmtChild (i : Z).

#[warnings="-register-all"]
Inductive error : Type :=
  | errors_New (msg : string)
  | errors_Wrapf (cause : error) (format : string) (arg : fmt_arg)
  | io_EOF
  | io_ErrUnexpectedEOF
  | os_ErrInvalid
  | os_ErrClosed
  | os_ErrNotExist (name : string)
  | os_EINVAL
  | errset_ErrSet (errs : list error).

(** Modelled from the spec: [errset.ErrSet.ReturnValue] of the imported
    package github.com/crewjam/errset, whose source is not part of the
    repository: "nil if there were no errors" (the comment at its call),
    otherwise the one aggregate value holding every collected error. *)
Definition ErrSet_ReturnValue (errs : list error) : option error :=
  match errs with
  | [] => None
  | _ :: _ => Some (errset_ErrSet errs)
  end.

Definition WHENCE_START : Z := 0.
Definition WHENCE_CURRENT : Z := 1.
Definition WHENCE_END : Z := 2.

(** ** The interface [ReadCloseSeeker] (io.Reader, io.Seeker, io.Closer)

    A source is a value of a type [T] with the three methods; each method
    returns the source in its new state.  The stream owns its sources, so a
    source is held in one slot only. *)

Class ReadCloseSeeker (T : Type) : Type := {
  rcs_Read : T → list byte → T * list byte * Z * option error;
  rcs_Seek : T → Z → Z → T * Z * option error;
  rcs_Close : T → T * option error
}.

(** ** [*os.File] on a regular file

    A handle carries the name and the contents of its file, its offset and
    whether it was closed.  [Read] returns the bytes from the offset on, as
    many as the buffer takes; at the end of the file it returns 0 and
    [io.EOF], and for an empty buffer 0 and no error.  [Seek] to a negative
    position fails and returns 0.  Every method fails on a closed handle.

    [Seek] accepts every position from 0 on, also far past the end of the
    file, as a file system with no limit on offsets below [2^63] does.  A
    file system with a smaller maximum file size refuses the positions
    beyond it; that maximum is at least [MAX_NON_LFS], and it is at least
    the size of every file of the file system.  The statements that need a
    seek past the end of a file to succeed keep the position within
    [MAX_NON_LFS]. *)

Record File : Type := mkFile {
  f_name : string;
  f_data : list byte;
  f_offset : Z;
  f_closed : bool
}.

Definition File_Read (f : File) (b : list byte) : File * list byte * Z * option error :=
  if f_closed f then (f, b, 0, Some os_ErrClosed)
  else if bool_decide (len b = 0) then (f, b, 0, None)
  else
    let avail := drop (Z.to_nat (f_offset f)) (f_data f) in
    let n := Z.min (len b) (len avail) in
    if bool_decide (n = 0) then (f, b, 0, Some io_EOF)
    else
      (mkFile (f_name f) (f_data f) (f_offset f + n) false,
       take (Z.to_nat n) avail ++ drop (Z.to_nat n) b, n, None).

Definition File_Seek (f : File) (offset whence : Z) : File * Z * option error :=
  if f_closed f then (f, 0, Some os_ErrClosed)
  else
    let target :=
      if bool_decide (whence = WHENCE_START) then Some offset
      else if bool_decide (whence = WHENCE_CURRENT) then Some (f_offset f + offset)
      else if bool_decide (whence = WHENCE_END) then Some (len (f_data f) + offset)
      else None in
    match target with
    | Some pos =>
        if bool_decide (0 ≤ pos) then
          (mkFile (f_name f) (f_data f) pos false, pos, None)
        else (f, 0, Some os_EINVAL)
    | None => (f, 0, Some os_EINVAL)
    end.

(** The least maximum file size of a file system: [2^31 - 1]. *)
Definition MAX_NON_LFS : Z := 2 ^ 31 - 1.

Definition File_Close (f : File) : File * option error :=
  if f_closed f then (f, Some os_ErrClosed)
  else (mkFile (f_name f) (f_data f) (f_offset f) true, None).

Definition File_Size (f : File) : Z * option error :=
  if f_closed f then (0, Some os_ErrClosed) else (len (f_data f), None).

#[global] Instance File_ReadCloseSeeker : ReadCloseSeeker File := {
  rcs_Read := File_Read;
  rcs_Seek := File_Seek;
  rcs_Close := File_Close
}.

(** ** The compiled implementation: [MultiReadSeeker] *)

Module MultiReadSeeker.
Section Methods.
Context {T : Type} `{!ReadCloseSeeker T}.

(** A [nil] slot of [children] is [None]. *)
Record t : Type := mk {
  children : list (option T);
  superPosStart : list Z;
  superPosEnd : list Z;
  currentSeekerNum : Z;
  currentSuperPos : Z
}.

(** [&MultiReadSeeker{}] *)
Definition zero : t := mk [] [] [] 0 0.

Definition set_child (self : t) (i : Z) (c : T) : run t :=
  cs ← slice_set (children self) i (Some c);
  mret (mk cs (superPosStart self) (superPosEnd self)
           (currentSeekerNum self) (currentSuperPos self)).

Definition set_superPosStart (self : t) (i v : Z) : run t :=
  l ← slice_set (superPosStart self) i v;
  mret (mk (children self) l (superPosEnd self)
           (currentSeekerNum self) (currentSuperPos self)).

Definition set_superPosEnd (self : t) (i v : Z) : run t :=
  l ← slice_set (superPosEnd self) i v;
  mret (mk (children self) (superPosStart self) l
           (currentSeekerNum self) (currentSuperPos self)).

(** The body of [for i, child := range children] from index [i] on.  The
    slot [children[i]] holds the very object the loop seeks on, so the
    slot is written with the child's state after the seeks. *)
Fixpoint Initialize_loop (i : Z) (rest : list T) (self : t)
    : run (t * option error) :=
  match rest with
  | [] => mret (self, None)
  | child :: rest' =>
      let '(child, endPos, err) := rcs_Seek child 0 WHENCE_END in
      self ← set_child self i child;
      match err with
      | Some e =>
          mret (self, Some (errors_Wrapf e "Seeking to end of %v" (FmtChild i)))
      | None =>
          self ← set_superPosEnd self i endPos;
          self ← (if bool_decide (0 < i) then
                    prev ← slice_get (superPosEnd self) (i - 1);
                    set_superPosStart self i (add64 prev 1)
                  else mret self);
          let '(child, _, err) := rcs_Seek child 0 WHENCE_START in
          self ← set_child self i child;
          match err with
          | Some e =>
              mret (self, Some (errors_Wrapf e "Seeking to start of %v" (FmtChild i)))
          | None => Initialize_loop (i + 1) rest' self
          end
      end
  end.

Definition Initialize (self : t) (args : list T) : run (t * option error) :=
  if bool_decide (len (children self) ≠ 0) then
    Panicked "MultiReadSeeker already initialized"
  else if bool_decide (len args = 0) then
    Panicked "MultiReadSeeker needs at least one child"
  else
    let self := mk (make None (len args)) (make 0 (len args)) (make 0 (len args))
                   (currentSeekerNum self) (currentSuperPos self) in
    Initialize_loop 0 args self.

Definition New (args : list T) : run (option t * option error) :=
  '(mrseeker, err) ← Initialize zero args;
  match err with
  | Some e => mret (None, Some e)
  | None => mret (Some mrseeker, None)
  end.

(** The body of [for i, child := range self.children] from index [i] on;
    calling [Close] through a nil interface value panics. *)
Fixpoint Close_loop (i : Z) (cs : list (option T)) (errs : list error)
    : run (list (option T) * list error) :=
  match cs with
  | [] => mret ([], errs)
  | None :: _ => Panicked "invalid memory address or nil pointer dereference"
  | Some child :: rest =>
      let '(child, err) := rcs_Close child in
      let errs :=
        match err with
        | Some e =>
            errs ++ [errors_Wrapf e "Closing io.Seeker #%d (0-based)" (FmtInt i)]
        | None => errs
        end in
      '(rest, errs) ← Close_loop (i + 1) rest errs;
      mret (Some child :: rest, errs)
  end.

Definition Close (self : t) : run (t * option error) :=
  '(cs, errs) ← Close_loop 0 (children self) [];
  mret (mk cs (superPosStart self) (superPosEnd self)
           (currentSeekerNum self) (currentSuperPos self),
        ErrSet_ReturnValue errs).

(** [n] calls of [Close] in a row on the same stream. *)
Fixpoint Close_times (n : nat) (self : t) : run t :=
  match n with
  | O => mret self
  | S n' => '(self, _) ← Close self; Close_times n' self
  end.

End Methods.
Arguments t T : clear implicits.
End MultiReadSeeker.

(** ** Vocabulary for the statements about [MultiReadSeeker] *)

Section StreamVocabulary.
Context {T : Type} `{!ReadCloseSeeker T}.

(** What [Initialize] sees of a child: the offset its seek to the end
    returns, the state the seek back to the start leaves it in, and
    whether both seeks succeed. *)
Definition seek_end (c : T) : T * Z * option error := rcs_Seek c 0 WHENCE_END.
Definition size_of (c : T) : Z := (seek_end c).1.2.
Definition rewound (c : T) : T := (rcs_Seek (seek_end c).1.1 0 WHENCE_START).1.1.
Definition seeks_ok (c : T) : Prop :=
  (seek_end c).2 = None ∧ (rcs_Seek (seek_end c).1.1 0 WHENCE_START).2 = None.

(** The start offsets that [Initialize] derives from the end offsets
    [ends]: 0, then each end offset plus one. *)
Definition starts_after (ends : list Z) : list Z :=
  take (length ends) (0 :: ((λ e, add64 e 1) <$> ends)).

(** The error [Initialize] returns on child [c] at index [i], if one of its
    two seeks fails. *)
Definition seek_error (i : Z) (c : T) : option error :=
  match (seek_end c).2 with
  | Some e => Some (errors_Wrapf e "Seeking to end of %v" (FmtChild i))
  | None =>
      match (rcs_Seek (seek_end c).1.1 0 WHENCE_START).2 with
      | Some e => Some (errors_Wrapf e "Seeking to start of %v" (FmtChild i))
      | None => None
      end
  end.

(** The stream in the loop of [Initialize] once the children [pre] are
    done and [m] slots are still to fill. *)
Definition init_state (pre : list T) (m : nat) (k p : Z) : MultiReadSeeker.t T :=
  MultiReadSeeker.mk
    ((Some <$> (rewound <$> pre)) ++ replicate m None)
    (starts_after (size_of <$> pre) ++ replicate m 0)
    ((size_of <$> pre) ++ replicate m 0) k p.

(** The state a child is left in by [Close], and the error it reports. *)
Definition closed (c : T) : T := (rcs_Close c).1.
Definition close_err (c : T) : option error := (rcs_Close c).2.

(** The failures of closing [cs] in order, each wrapped with the index
    of its child; [i] is the index of the head. *)
Fixpoint close_failures (i : Z) (cs : list T) : list error :=
  match cs with
  | [] => []
  | c :: rest =>
      match close_err c with
      | Some e =>
          errors_Wrapf e "Closing io.Seeker #%d (0-based)" (FmtInt i)
            :: close_failures (i + 1) rest
      | None => close_failures (i + 1) rest
      end
  end.

End StreamVocabulary.

(** ** The operating system seen by [ConcatFile]

    A read-only file system, and the log of the handles opened and closed
    so far.  [M] threads the log and carries the outcome. *)

Inductive event : Type :=
  | EvOpen (name : string)
  | EvClose (name : string).

Definition M (A : Type) : Type := list event → run (A * list event).

#[global] Instance M_ret : MRet M := λ A a log, Done (a, log).
#[global] Instance M_bind : MBind M := λ A B f m log,
  match m log with
  | Done (a, log') => f a log'
  | Panicked msg => Panicked msg
  | Diverged => Diverged
  end.

Definition lift {A} (r : run A) : M A := λ log,
  match r with
  | Done a => Done (a, log)
  | Panicked msg => Panicked msg
  | Diverged => Diverged
  end.

Definition emit (e : event) : M unit := λ log, Done (tt, log ++ [e]).

Definition diverge {A} : M A := λ _, Diverged.

Section OS.
Variable fs : gmap string (list byte).

(** [os.Open(name)] *)
Definition os_Open (name : string) : M (option File * option error) :=
  match fs !! name with
  | Some data =>
      _ ← emit (EvOpen name);
      mret (Some (mkFile name data 0 false), None)
  | None => mret (None, Some (os_ErrNotExist name))
  end.

(** Methods on a [*os.File] that may be nil. *)
Definition fh_Read (fh : option File) (b : list byte)
    : option File * list byte * Z * option error :=
  match fh with
  | Some f => let '(f, b, n, err) := File_Read f b in (Some f, b, n, err)
  | None => (None, b, 0, Some os_ErrInvalid)
  end.

Definition fh_Seek (fh : option File) (offset whence : Z)
    : option File * Z * option error :=
  match fh with
  | Some f => let '(f, pos, err) := File_Seek f offset whence in (Some f, pos, err)
  | None => (None, 0, Some os_ErrInvalid)
  end.

Definition fh_Size (fh : option File) : Z * option error :=
  match fh with
  | Some f => File_Size f
  | None => (0, Some os_ErrInvalid)
  end.

Definition fh_Close (fh : option File) : M (option File * option error) :=
  match fh with
  | Some f =>
      let '(f', err) := File_Close f in
      match err with
      | None => _ ← emit (EvClose (f_name f)); mret (Some f', None)
      | Some e => mret (Some f', Some e)
      end
  | None => mret (None, Some os_ErrInvalid)
  end.
End OS.

(** ** The implementation kept in the block comment: [ConcatFile] *)

Module ConcatFile.

Record t : Type := mk {
  currently_open : bool;
  filenames : list string;
  num_files : Z;
  current_file_num : Z;
  fh : option File;
  super_pos : Z;
  super_size : Z;
  super_pos_start : list Z;
  super_pos_end : list Z
}.

Definition set_currently_open (v : bool) (s : t) : t :=
  mk v (filenames s) (num_files s) (current_file_num s) (fh s)
     (super_pos s) (super_size s) (super_pos_start s) (super_pos_end s).
Definition set_current_file_num (v : Z) (s : t) : t :=
  mk (currently_open s) (filenames s) (num_files s) v (fh s)
     (super_pos s) (super_size s) (super_pos_start s) (super_pos_end s).
Definition set_fh (v : option File) (s : t) : t :=
  mk (currently_open s) (filenames s) (num_files s) (current_file_num s) v
     (super_pos s) (super_size s) (super_pos_start s) (super_pos_end s).
Definition set_super_pos (v : Z) (s : t) : t :=
  mk (currently_open s) (filenames s) (num_files s) (current_file_num s) (fh s)
     v (super_size s) (super_pos_start s) (super_pos_end s).
Definition set_super_size (v : Z) (s : t) : t :=
  mk (currently_open s) (filenames s) (num_files s) (current_file_num s) (fh s)
     (super_pos s) v (super_pos_start s) (super_pos_end s).
Definition set_super_pos_start (v : list Z) (s : t) : t :=
  mk (currently_open s) (filenames s) (num_files s) (current_file_num s) (fh s)
     (super_pos s) (super_size s) v (super_pos_end s).
Definition set_super_pos_end (v : list Z) (s : t) : t :=
  mk (currently_open s) (filenames s) (num_files s) (current_file_num s) (fh s)
     (super_pos s) (super_size s) (super_pos_start s) v.

Definition WHENCE_ORIGIN : Z := 0.
Definition seekImpossible : Z := -1.

Section Methods.
Variable fs : gmap string (list byte).

(** The iterations [i, i+1, ...] of the loop of [Open]; [k] counts the
    iterations left.  [None] is the early [return nil, err]. *)
Fixpoint Open_loop (k : nat) (i : Z) (names : list string) (self : t)
    : M (option t * option error) :=
  match k with
  | O => mret (Some self, None)
  | S k' =>
      name ← lift (slice_get names i);
      '(fh, err) ← os_Open fs name;
      match err with
      | Some e => mret (None, Some e)
      | None =>
          self ← (if bool_decide (0 < i) then
                    prev ← lift (slice_get (super_pos_end self) (i - 1));
                    l ← lift (slice_set (super_pos_start self) i (add64 prev 1));
                    mret (set_super_pos_start l self)
                  else mret self);
          let '(size, err) := fh_Size fh in
          _ ← fh_Close fh;
          match err with
          | Some e => mret (None, Some e)
          | None =>
              start ← lift (slice_get (super_pos_start self) i);
              l ← lift (slice_set (super_pos_end self) i
                                  (sub64 (add64 start size) 1));
              Open_loop k' (i + 1) names (set_super_pos_end l self)
          end
      end
  end.

Definition Open (names : list string) : M (option t * option error) :=
  if bool_decide (len names = 0) then
    mret (None, Some (errors_New "At least one file name is required"))
  else
    let self := mk false names (len names) 0 None 0 0
                   (make 0 (len names)) (make 0 (len names)) in
    l ← lift (slice_set (super_pos_start self) 0 0);
    let self := set_super_pos_start l self in
    '(r, err) ← Open_loop (Z.to_nat (num_files self)) 0 names self;
    match r with
    | None => mret (None, err)
    | Some self =>
        last ← lift (slice_get (super_pos_end self) (num_files self - 1));
        let self := set_super_size (add64 last 1) self in
        name ← lift (slice_get names 0);
        '(fh, err) ← os_Open fs name;
        match err with
        | Some e => mret (None, Some e)
        | None => mret (Some (set_currently_open true (set_fh fh self)), None)
        end
    end.

Definition Close (self : t) : M (t * option error) :=
  if currently_open self then
    let self := set_currently_open false self in
    '(fh, err) ← fh_Close (fh self);
    mret (set_fh fh self, err)
  else mret (self, None).

Definition goToNextFile (self : t) : M (t * bool * option error) :=
  if bool_decide (current_file_num self < num_files self - 1) then
    '(fh, _) ← fh_Close (fh self);
    let self := set_current_file_num (current_file_num self + 1) (set_fh fh self) in
    name ← lift (slice_get (filenames self) (current_file_num self));
    '(fh, err) ← os_Open fs name;
    mret (set_fh fh self, true, err)
  else mret (self, false, None).

(** [Read] calls itself after each move to the next file; [fuel] bounds
    the depth.  The buffer is returned as the call leaves it. *)
Fixpoint Read_rec (fuel : nat) (self : t) (b : list byte)
    : M (t * list byte * Z * option error) :=
  if negb (currently_open self) then mret (self, b, 0, Some io_ErrUnexpectedEOF)
  else
    let num_requested := len b in
    let '(fh, b, n, err) := fh_Read (fh self) b in
    let self := set_super_pos (add64 (super_pos self) n) (set_fh fh self) in
    if bool_decide (n = num_requested) then mret (self, b, n, err)
    else
      '(self, incremented, incr_err) ← goToNextFile self;
      match incr_err with
      | Some e => mret (self, b, n, Some e)
      | None =>
          if (incremented : bool) then
            match fuel with
            | O => diverge
            | S fuel' =>
                '(self, rest, sub_n, sub_err) ←
                  Read_rec fuel' self (drop (Z.to_nat n) b);
                mret (self, take (Z.to_nat n) b ++ rest, n + sub_n, sub_err)
            end
          else if bool_decide (0 < n) then mret (self, b, n, err)
          else mret (self, b, n, Some io_EOF)
      end.

(** Each nested call has moved to the next file, so the calls are at most
    as many as the files from the current one on. *)
Definition Read (self : t) (b : list byte) : M (t * list byte * Z * option error) :=
  Read_rec (Z.to_nat (num_files self - current_file_num self)) self b.

Fixpoint findSeekIndex_loop (k : nat) (i : Z) (self : t) (new_super_pos : Z)
    : run Z :=
  match k with
  | O => mret seekImpossible
  | S k' =>
      start ← slice_get (super_pos_start self) i;
      if bool_decide (start ≤ new_super_pos) then
        end_ ← slice_get (super_pos_end self) i;
        if bool_decide (new_super_pos ≤ end_) then mret i
        else findSeekIndex_loop k' (i + 1) self new_super_pos
      else findSeekIndex_loop k' (i + 1) self new_super_pos
  end.

Definition findSeekIndex (self : t) (new_super_pos : Z) : run Z :=
  if bool_decide (new_super_pos < 0) then mret seekImpossible
  else findSeekIndex_loop (Z.to_nat (num_files self)) 0 self new_super_pos.

(** Lines 330-339 of [Seek]: the file chosen when no file holds the
    position. *)
Definition Seek_clamp (self : t) (whence seek_index : Z) : Z :=
  if bool_decide (seek_index = seekImpossible) then
    if bool_decide (whence = WHENCE_END) then 0 else num_files self - 1
  else seek_index.

(** Lines 341-357 of [Seek]: close the current file and open the chosen
    one if they differ.  An error is the early [return self.super_pos, err]. *)
Definition Seek_switch (self : t) (seek_index : Z) : M (t * option error) :=
  if bool_decide (seek_index ≠ current_file_num self) then
    '(fh, err) ← fh_Close (fh self);
    let self := set_fh fh self in
    match err with
    | Some e => mret (set_currently_open false self, Some e)
    | None =>
        name ← lift (slice_get (filenames self) seek_index);
        '(fh, err) ← os_Open fs name;
        let self := set_fh fh self in
        match err with
        | Some e => mret (set_currently_open false self, Some e)
        | None => mret (set_current_file_num seek_index self, None)
        end
    end
  else mret (self, None).

(** Lines 341-368 of [Seek]: change files, then seek in the file. *)
Definition Seek_move (self : t) (new_super_pos seek_index : Z)
    : M (t * Z * option error) :=
  '(self, err) ← Seek_switch self seek_index;
  match err with
  | Some e => mret (self, super_pos self, Some e)
  | None =>
      start ← lift (slice_get (super_pos_start self) seek_index);
      let offset := sub64 new_super_pos start in
      let '(fh, this_file_offset, err) := fh_Seek (fh self) offset WHENCE_ORIGIN in
      let self := set_fh fh self in
      match err with
      | Some e =>
          start ← lift (slice_get (super_pos_start self) seek_index);
          let self := set_super_pos (add64 start this_file_offset)
                                    (set_currently_open false self) in
          mret (self, super_pos self, Some e)
      | None =>
          let self := set_super_pos new_super_pos self in
          mret (self, super_pos self, None)
      end
  end.

Definition Seek (self : t) (offset whence : Z) : M (t * Z * option error) :=
  if bool_decide (whence = WHENCE_ORIGIN) then
    let new_super_pos := offset in
    seek_index ← (if bool_decide (new_super_pos = 0) then mret 0
                  else lift (findSeekIndex self new_super_pos));
    Seek_move self new_super_pos (Seek_clamp self whence seek_index)
  else if bool_decide (whence = WHENCE_CURRENT) then
    if bool_decide (offset = 0) then mret (self, super_pos self, None)
    else
      let new_super_pos := add64 (super_pos self) offset in
      seek_index ← lift (findSeekIndex self new_super_pos);
      Seek_move self new_super_pos (Seek_clamp self whence seek_index)
  else if bool_decide (whence = WHENCE_END) then
    if bool_decide (0 < offset) then
      mret (self, super_pos self,
            Some (errors_New "Seek(offset, WHENCE_END); seek must be <= 0"))
    else
      let new_super_pos := add64 (super_size self) offset in
      seek_index ← lift (findSeekIndex self new_super_pos);
      Seek_move self new_super_pos (Seek_clamp self whence seek_index)
  else
    mret (self, super_pos self,
          Some (errors_New "Seek(offset, whence); whence must be 0, 1, or 2")).

Definition Tell (self : t) : Z := super_pos self.
Definition Size (self : t) : Z := super_size self.

End Methods.
End ConcatFile.

(** ** Vocabulary for the statements about [ConcatFile] *)

Section ConcatVocabulary.
Variable fs : gmap string (list byte).
Import ConcatFile.

(** The logical offset at which file [j] starts: the total length of the
    files before it. *)
Definition offs (datas : list (list byte)) (j : nat) : Z :=
  len (concat (take j datas)).

(** The file [j] holds the position [p]. *)
Definition holds (datas : list (list byte)) (p : Z) (j : nat) : Prop :=
  offs datas j ≤ p ≤ offs datas (S j) - 1.

(** The loop invariant of [Open]: the slices are allocated and filled
    for the files before [i]. *)
Definition tables_upto (datas : list (list byte)) (i : nat) (self : t) : Prop :=
  length (super_pos_start self) = length datas
  ∧ length (super_pos_end self) = length datas
  ∧ super_pos_start self !! 0%nat = Some 0
  ∧ ∀ j, (j < i)%nat →
      super_pos_start self !! j = Some (offs datas j)
      ∧ super_pos_end self !! j = Some (offs datas (S j) - 1).

(** A stream over the files [datas] whose handle is open on the current
    file: what [Open] establishes and the operations keep, whatever the
    cursor. *)
Record Inv (datas : list (list byte)) (self : t) : Prop := {
  inv_names : Forall2 (λ name data, fs !! name = Some data) (filenames self) datas;
  inv_num : num_files self = len datas;
  inv_start : super_pos_start self = (λ j, offs datas j) <$> seq 0 (length datas);
  inv_end : super_pos_end self = (λ j, offs datas (S j) - 1) <$> seq 0 (length datas);
  inv_size : super_size self = len (concat datas);
  inv_bound : len (concat datas) ≤ MaxInt64;
  inv_cur : 0 ≤ current_file_num self < len datas;
  inv_fh : ∃ f, fh self = Some f ∧ f_closed f = false ∧ 0 ≤ f_offset f
                ∧ filenames self !! Z.to_nat (current_file_num self) = Some (f_name f)
                ∧ datas !! Z.to_nat (current_file_num self) = Some (f_data f)
}.

(** What [Open] does to find the sizes: each file is opened and closed
    again, in order. *)
Definition stat_events (names : list string) : list event :=
  concat ((λ name, [EvOpen name; EvClose name]) <$> names).

(** The absolute position a [Seek] aims at, by origin. *)
Definition candidate (self : t) (offset whence : Z) : Z :=
  if bool_decide (whence = WHENCE_ORIGIN) then offset
  else if bool_decide (whence = WHENCE_CURRENT) then add64 (super_pos self) offset
  else add64 (super_size self) offset.

(** The cursor and the handle agree: the handle stands at [super_pos]
    counted from the start of the current file, not past its end. *)
Definition Positioned (datas : list (list byte)) (self : t) : Prop :=
  ∃ f, fh self = Some f
       ∧ super_pos self = offs datas (Z.to_nat (current_file_num self)) + f_offset f
       ∧ f_offset f ≤ len (f_data f).

(** The events of walking from file [i] over the [k] files after it: each
    file is closed, then the next one is opened. *)
Definition crossings (names : list string) (i k : nat) : list event :=
  concat (zip_with (λ a b, [EvClose a; EvOpen b])
                   (take k (drop i names)) (take k (drop (S i) names))).

(** The stream has nothing left to read: it is on the last file and the
    handle stands at the end of that file, or past it. *)
Definition Exhausted (datas : list (list byte)) (self : t) : Prop :=
  current_file_num self = len datas - 1
  ∧ ∃ f, fh self = Some f ∧ len (f_data f) ≤ f_offset f.

(** What [Open] computes once and for all: the names, their number, the
    total size and the table of offsets. *)
Definition layout (self : t) : list string * Z * Z * list Z * list Z :=
  (filenames self, num_files self, super_size self,
   super_pos_start self, super_pos_end self).

(** A stream that came from [Open] over the files [datas], in whatever
    state later calls have left it: the table is the one [Open] built, the
    current file is one of the files and the handle is not nil; the handle
    may be closed and the stream may be marked closed. *)
Record Sound (datas : list (list byte)) (self : t) : Prop := {
  snd_names : Forall2 (λ name data, fs !! name = Some data) (filenames self) datas;
  snd_num : num_files self = len datas;
  snd_start : super_pos_start self = (λ j, offs datas j) <$> seq 0 (length datas);
  snd_end : super_pos_end self = (λ j, offs datas (S j) - 1) <$> seq 0 (length datas);
  snd_cur : 0 ≤ current_file_num self < len datas;
  snd_fh : is_Some (fh self)
}.

(** The calls of a client on a stream, made one after the other. *)
Inductive call : Type :=
  | CallSeek (offset whence : Z)
  | CallRead (b : list byte)
  | CallClose.

Definition do_call (c : call) (self : t) : M t :=
  match c with
  | CallSeek offset whence => '(self, _, _) ← Seek fs self offset whence; mret self
  | CallRead b => '(self, _, _, _) ← Read fs self b; mret self
  | CallClose => '(self, _) ← Close self; mret self
  end.

Fixpoint calls (cs : list call) (self : t) : M t :=
  match cs with
  | [] => mret self
  | c :: cs => self ← do_call c self; calls cs self
  end.

End ConcatVocabulary.

(** ** Concrete sources *)

(** A file handle moved back to offset 0, and a file handle closed. *)
Definition rewind (f : File) : File := mkFile (f_name f) (f_data f) 0 false.
Definition shut (f : File) : File := mkFile (f_name f) (f_data f) (f_offset f) true.

Definition bytes (s : string) : list byte := String.list_byte_of_string s.

Definition openFile (name contents : string) : File :=
  mkFile name (bytes contents) 0 false.

(** The scenario of three files of sizes 5, 3 and 4. *)
Definition fs3 : gmap string (list byte) :=
  <["a" := bytes "ABCDE"]> (<["b" := bytes "FGH"]> (<["c" := bytes "IJKL"]> ∅)).

Definition names3 : list string := ["a"; "b"; "c"].
Definition datas3 : list (list byte) := [bytes "ABCDE"; bytes "FGH"; bytes "IJKL"].

(** The stream [Open] returns on these three files. *)
Definition cf3 : ConcatFile.t :=
  ConcatFile.mk true names3 3 0 (Some (mkFile "a" (bytes "ABCDE") 0 false))
                0 12 [0; 5; 8] [4; 7; 11].

(** The same stream after [Seek(4, start)]. *)
Definition cf3_at4 : ConcatFile.t :=
  ConcatFile.mk true names3 3 0 (Some (mkFile "a" (bytes "ABCDE") 4 false))
                4 12 [0; 5; 8] [4; 7; 11].

(** Three files of which the middle one is empty. *)
Definition fs_gap : gmap string (list byte) :=
  <["a" := bytes "ABC"]> (<["b" := bytes ""]> (<["c" := bytes "DE"]> ∅)).

Definition datas_gap : list (list byte) := [bytes "ABC"; bytes ""; bytes "DE"].

Definition cf_gap : ConcatFile.t :=
  ConcatFile.mk true names3 3 0 (Some (mkFile "a" (bytes "ABC") 0 false))
                0 5 [0; 3; 3] [2; 2; 4].

(** Two empty files, and the stream on them once a [Read] has moved it to
    the last one. *)
Definition fs_void : gmap string (list byte) :=
  <["a" := bytes ""]> (<["b" := bytes ""]> ∅).

Definition cf_void : ConcatFile.t :=
  ConcatFile.mk true ["a"; "b"] 2 1 (Some (mkFile "b" (bytes "") 0 false))
                0 0 [0; 0] [-1; -1].

(** The stream a successful [Open] returns, if any. *)
Definition opened (fs : gmap string (list byte)) (names : list string)
    : option ConcatFile.t :=
  match ConcatFile.Open fs names [] with
  | Done (Some self, _, _) => Some self
  | _ => None
  end.

(** The stream on the three files once everything has been read. *)
Definition cf3_end : ConcatFile.t :=
  ConcatFile.mk true names3 3 2 (Some (mkFile "c" (bytes "IJKL") 4 false))
                12 12 [0; 5; 8] [4; 7; 11].

(** A file whose handle was closed before it was handed over. *)
Definition closedFile (name contents : string) : File :=
  mkFile name (bytes contents) 0 true.

(** * Arithmetic and slices *)

Lemma wrap64_id (z : Z) : - 2 ^ 63 ≤ z ≤ MaxInt64 → wrap64 z = z.
Proof.
  unfold wrap64, MaxInt64. intros H.
  rewrite Z.mod_small; lia.
Qed.

Lemma wrap64_add_l (a b : Z) : wrap64 (wrap64 a + b) = wrap64 (a + b).
Proof.
  unfold wrap64. f_equal.
  replace ((a + 2 ^ 63) `mod` 2 ^ 64 - 2 ^ 63 + b + 2 ^ 63)
    with ((a + 2 ^ 63) `mod` 2 ^ 64 + b) by lia.
  rewrite Zplus_mod_idemp_l. f_equal. lia.
Qed.

Lemma wrap64_range (z : Z) : - 2 ^ 63 ≤ wrap64 z ≤ MaxInt64.
Proof.
  unfold wrap64, MaxInt64.
  pose proof (Z.mod_pos_bound (z + 2 ^ 63) (2 ^ 64)). lia.
Qed.

Lemma len_nonneg {A} (l : list A) : 0 ≤ len l.
Proof. unfold len. lia. Qed.

Lemma len_app {A} (l1 l2 : list A) : len (l1 ++ l2) = len l1 + len l2.
Proof. unfold len. rewrite length_app. lia. Qed.

Lemma len_nil {A} : len (@nil A) = 0.
Proof. done. Qed.

Lemma slice_get_Some {A} (l : list A) (i : Z) (x : A) :
  0 ≤ i → l !! Z.to_nat i = Some x → slice_get l i = Done x.
Proof.
  intros Hi Hl. unfold slice_get.
  apply lookup_lt_Some in Hl as Hlt.
  rewrite bool_decide_true by (unfold len; lia).
  by rewrite Hl.
Qed.

Lemma slice_set_Done {A} (l : list A) (i : Z) (x : A) :
  0 ≤ i < len l → slice_set l i x = Done (<[Z.to_nat i := x]> l).
Proof. intros Hi. unfold slice_set. by rewrite bool_decide_true. Qed.

Lemma slice_set_middle {A} (l1 l2 : list A) (x y : A) (i : Z) :
  i = len l1 → slice_set (l1 ++ y :: l2) i x = Done (l1 ++ x :: l2).
Proof.
  intros ->. unfold len. rewrite slice_set_Done.
  - rewrite Nat2Z.id, insert_app_r_alt, Nat.sub_diag by done. done.
  - unfold len. rewrite length_app. cbn. lia.
Qed.

Lemma slice_get_middle {A} (l1 l2 : list A) (y : A) (i : Z) :
  i = len l1 → slice_get (l1 ++ y :: l2) i = Done y.
Proof.
  intros ->. apply slice_get_Some; [apply len_nonneg|].
  unfold len. rewrite Nat2Z.id. apply list_lookup_middle. done.
Qed.

Lemma slice_get_snoc {A} (l1 l2 : list A) (y : A) (i : Z) :
  i = len l1 → slice_get ((l1 ++ [y]) ++ l2) i = Done y.
Proof. intros ->. rewrite <- app_assoc. by apply slice_get_middle. Qed.

(** * Properties of the compiled implementation *)

(** ** [Close] *)

Section MultiReadSeekerFacts.
Context {T : Type} `{!ReadCloseSeeker T}.
Import MultiReadSeeker.

Lemma Close_loop_spec (cs : list T) : ∀ i errs,
  Close_loop i (Some <$> cs) errs
  = Done (Some <$> (closed <$> cs), errs ++ close_failures i cs).
Proof.
  induction cs as [|c cs IH]; intros i errs; simpl.
  - by rewrite app_nil_r.
  - unfold closed at 1, close_err. destruct (rcs_Close c) as [c' [e|]]; simpl.
    + rewrite IH. simpl. by rewrite <- app_assoc.
    + by rewrite IH.
Qed.

Lemma Close_spec (cs : list T) starts ends k p :
  Close (mk (Some <$> cs) starts ends k p)
  = Done (mk (Some <$> (closed <$> cs)) starts ends k p,
          ErrSet_ReturnValue (close_failures 0 cs)).
Proof. unfold Close. simpl. by rewrite Close_loop_spec. Qed.

Lemma close_failures_nil (cs : list T) : ∀ i,
  close_failures i cs = [] ↔ Forall (λ c, close_err c = None) cs.
Proof.
  induction cs as [|c cs IH]; intros i; simpl.
  - split; [constructor | done].
  - destruct (close_err c) as [e|] eqn:E.
    + split; [done | intros H; inversion H; congruence].
    + rewrite IH. split; [by constructor | by inversion 1].
Qed.

Lemma close_failures_elem (cs : list T) : ∀ i j c e,
  cs !! j = Some c → close_err c = Some e →
  errors_Wrapf e "Closing io.Seeker #%d (0-based)" (FmtInt (i + Z.of_nat j))
    ∈ close_failures i cs.
Proof.
  induction cs as [|c0 cs IH]; intros i j c e Hj He; [done|].
  destruct j as [|j]; simpl in *.
  - injection Hj as ->. rewrite He, Z.add_0_r. apply list_elem_of_here.
  - assert (errors_Wrapf e "Closing io.Seeker #%d (0-based)"
              (FmtInt (i + Z.pos (Pos.of_succ_nat j)))
            ∈ close_failures (i + 1) cs) as Hin.
    { replace (i + Z.pos (Pos.of_succ_nat j)) with (i + 1 + Z.of_nat j) by lia.
      by eapply IH. }
    destruct (close_err c0); [by apply list_elem_of_further | done].
Qed.

(** C8: [Close] calls close on every child whatever the earlier closes
    returned (every child ends in its closed state), the value returned
    aggregates exactly the failures, each wrapped with the index of its
    child, and it is nil exactly when every close succeeded. *)
Theorem Close_closes_all_and_aggregates (cs : list T) starts ends k p :
  ∃ r, Close (mk (Some <$> cs) starts ends k p)
       = Done (mk (Some <$> (closed <$> cs)) starts ends k p, r)
    ∧ r = ErrSet_ReturnValue (close_failures 0 cs)
    ∧ (r = None ↔ Forall (λ c, close_err c = None) cs)
    ∧ (∀ j c e, cs !! j = Some c → close_err c = Some e →
         ∃ errs, r = Some (errset_ErrSet errs)
           ∧ errors_Wrapf e "Closing io.Seeker #%d (0-based)" (FmtInt (Z.of_nat j))
               ∈ errs).
Proof.
  eexists. split; [apply Close_spec|]. split; [done|]. split.
  - rewrite <- (close_failures_nil cs 0).
    destruct (close_failures 0 cs); simpl; split; congruence.
  - intros j c e Hj He.
    pose proof (close_failures_elem cs 0 j c e Hj He) as Hin.
    rewrite Z.add_0_l in Hin.
    destruct (close_failures 0 cs) as [|e0 errs] eqn:E.
    + by apply not_elem_of_nil in Hin.
    + eexists. split; [reflexivity | done].
Qed.

Lemma Close_times_spec (n : nat) : ∀ (cs : list T) starts ends k p,
  Close_times n (mk (Some <$> cs) starts ends k p)
  = Done (mk (Some <$> Nat.iter n (fmap closed) cs) starts ends k p).
Proof.
  induction n as [|n IH]; intros cs starts ends k p; [done|].
  cbn [Close_times]. rewrite Close_spec. cbn. rewrite IH.
  by rewrite <- Nat.iter_succ_r.
Qed.

(** C10: after any number [n] of calls of [Close] the stream is unchanged
    but for the state of its children, and one more call closes every
    child again, in the state the earlier closes left it in, and returns
    the failures of those closes: nothing records that the stream was
    closed. *)
Theorem Close_again_closes_every_child_again (n : nat) (cs : list T) starts ends k p :
  let again := Nat.iter n (fmap closed) cs in
  Close_times n (mk (Some <$> cs) starts ends k p)
  = Done (mk (Some <$> again) starts ends k p)
  ∧ Close (mk (Some <$> again) starts ends k p)
    = Done (mk (Some <$> (closed <$> again)) starts ends k p,
            ErrSet_ReturnValue (close_failures 0 again)).
Proof. split; [apply Close_times_spec | apply Close_spec]. Qed.

(** C4 (as amended): [New] and [Initialize] on no child at all panic;
    only the file-name based [Open] returns an error for an empty list. *)
Theorem New_without_children_panics :
  New (T:=T) [] = Panicked "MultiReadSeeker needs at least one child"
  ∧ (∀ starts ends k p,
       Initialize (T:=T) (mk [] starts ends k p) []
       = Panicked "MultiReadSeeker needs at least one child")
  ∧ (∀ fs log,
       ConcatFile.Open fs [] log
       = Done (None, Some (errors_New "At least one file name is required"), log)).
Proof. done. Qed.

End MultiReadSeekerFacts.

(** C4 (as stated, refuted): [New] on an empty list returns nothing, so in
    particular no error value. *)
Lemma New_without_children_returns_no_error :
  ¬ ∃ r, MultiReadSeeker.New (T:=File) [] = Done r.
Proof. intros [r Hr]. discriminate Hr. Qed.

(** ** The table built by [Initialize] *)

Lemma starts_after_app_one (ends : list Z) (e : Z) :
  starts_after (ends ++ [e]) = 0 :: ((λ e, add64 e 1) <$> ends).
Proof.
  unfold starts_after. rewrite fmap_app, app_comm_cons.
  apply take_app_length'. rewrite length_app. cbn. rewrite length_fmap. lia.
Qed.

Lemma starts_after_snoc (ends : list Z) (e : Z) :
  starts_after (ends ++ [e])
  = starts_after ends
    ++ [match last ends with Some prev => add64 prev 1 | None => 0 end].
Proof.
  rewrite starts_after_app_one.
  induction ends as [|e0 ends _] using rev_ind; [done|].
  by rewrite last_snoc, starts_after_app_one, fmap_app.
Qed.

Lemma length_starts_after (ends : list Z) : length (starts_after ends) = length ends.
Proof. unfold starts_after. rewrite length_take. cbn. rewrite length_fmap. lia. Qed.

Section InitializeFacts.
Context {T : Type} `{!ReadCloseSeeker T}.
Import MultiReadSeeker.

Lemma Initialize_loop_spec (rest : list T) : ∀ (pre : list T) k p,
  Forall seeks_ok rest →
  Initialize_loop (len pre) rest
    (mk ((Some <$> (rewound <$> pre)) ++ replicate (length rest) None)
        (starts_after (size_of <$> pre) ++ replicate (length rest) 0)
        ((size_of <$> pre) ++ replicate (length rest) 0) k p)
  = Done (mk (Some <$> (rewound <$> (pre ++ rest)))
             (starts_after (size_of <$> (pre ++ rest)))
             (size_of <$> (pre ++ rest)) k p, None).
Proof.
  induction rest as [|c rest IH]; intros pre k p Hok.
  - cbn. by rewrite !app_nil_r.
  - inversion Hok as [|? ? [He Hs] Hok']; subst.
    cbn [Initialize_loop length replicate].
    assert (size_of c = (rcs_Seek c 0 WHENCE_END).1.2) as Hsz by done.
    assert (rewound c = (rcs_Seek (rcs_Seek c 0 WHENCE_END).1.1 0 WHENCE_START).1.1)
      as Hrw by done.
    unfold seek_end in He, Hs.
    destruct (rcs_Seek c 0 WHENCE_END) as [[c1 endPos] err1].
    cbn in He, Hs, Hsz, Hrw. subst err1.
    destruct (rcs_Seek c1 0 WHENCE_START) as [[c2 pos2] err2].
    cbn in Hs, Hrw. subst err2.
    unfold set_child, set_superPosEnd, set_superPosStart.
    cbn [children superPosStart superPosEnd currentSeekerNum currentSuperPos].
    rewrite slice_set_middle by (unfold len; by rewrite !length_fmap).
    cbn [mbind run_bind mret run_ret children superPosStart superPosEnd
         currentSeekerNum currentSuperPos].
    rewrite slice_set_middle by (unfold len; by rewrite !length_fmap).
    cbn [mbind run_bind mret run_ret children superPosStart superPosEnd
         currentSeekerNum currentSuperPos].
    assert (∃ starts1,
      (if bool_decide (0 < len pre)
       then
         prev ← slice_get ((size_of <$> pre) ++ endPos :: replicate (length rest) 0)
                          (len pre - 1);
         l ← slice_set (starts_after (size_of <$> pre) ++ 0 :: replicate (length rest) 0)
                       (len pre) (add64 prev 1);
         mret (mk ((Some <$> (rewound <$> pre)) ++ Some c1 :: replicate (length rest) None)
                  l ((size_of <$> pre) ++ endPos :: replicate (length rest) 0) k p)
       else
         mret (mk ((Some <$> (rewound <$> pre)) ++ Some c1 :: replicate (length rest) None)
                  (starts_after (size_of <$> pre) ++ 0 :: replicate (length rest) 0)
                  ((size_of <$> pre) ++ endPos :: replicate (length rest) 0) k p))
      = Done (mk ((Some <$> (rewound <$> pre)) ++ Some c1 :: replicate (length rest) None)
                 (starts1 ++ replicate (length rest) 0)
                 ((size_of <$> pre) ++ endPos :: replicate (length rest) 0) k p)
      ∧ starts1 = starts_after (size_of <$> (pre ++ [c])))
      as (starts1 & -> & Hstarts).
    { rewrite fmap_app. change (size_of <$> [c]) with [size_of c].
      rewrite starts_after_snoc.
      eexists. split; [|reflexivity].
      destruct pre as [|c' pre _] using rev_ind.
      - cbn. done.
      - rewrite bool_decide_true by (unfold len; rewrite length_app; cbn; lia).
        rewrite !fmap_app. change (size_of <$> [c']) with [size_of c'].
        rewrite last_snoc.
        rewrite slice_get_snoc
          by (unfold len; rewrite length_app, length_fmap; cbn; lia).
        cbn [mbind run_bind].
        rewrite slice_set_middle
          by (unfold len; rewrite length_starts_after, !length_app, length_fmap; done).
        cbn. by rewrite <- !app_assoc. }
    cbn [mbind run_bind mret run_ret children superPosStart superPosEnd
         currentSeekerNum currentSuperPos].
    rewrite slice_set_middle by (unfold len; by rewrite !length_fmap).
    cbn [mbind run_bind mret run_ret children superPosStart superPosEnd
         currentSeekerNum currentSuperPos].
    replace (pre ++ c :: rest) with ((pre ++ [c]) ++ rest) by (by rewrite <- app_assoc).
    rewrite <- (IH (pre ++ [c]) k p Hok').
    f_equal; [unfold len; rewrite length_app; cbn; lia|].
    rewrite Hstarts, !fmap_app.
    change (size_of <$> [c]) with [size_of c].
    change (rewound <$> [c]) with [rewound c].
    change (Some <$> [rewound c]) with [Some (rewound c)].
    rewrite Hsz, Hrw, <- !app_assoc. reflexivity.
Qed.

Lemma Initialize_spec (cs : list T) :
  cs ≠ [] → Forall seeks_ok cs →
  Initialize zero cs
  = Done (mk (Some <$> (rewound <$> cs)) (starts_after (size_of <$> cs))
             (size_of <$> cs) 0 0, None).
Proof.
  intros Hne Hok. unfold Initialize. cbn [children zero].
  rewrite bool_decide_false by (unfold len; cbn; lia).
  rewrite bool_decide_false by (destruct cs; [done | unfold len; cbn; lia]).
  unfold make, len. rewrite Nat2Z.id.
  apply (Initialize_loop_spec cs [] 0 0 Hok).
Qed.

End InitializeFacts.

Lemma File_seeks (f : File) :
  f_closed f = false →
  seeks_ok f ∧ size_of f = len (f_data f)
  ∧ rewound f = mkFile (f_name f) (f_data f) 0 false.
Proof.
  intros Hcl. destruct f as [name data q cl]. cbn in Hcl. subst cl.
  assert (File_Seek (mkFile name data q false) 0 WHENCE_END
          = (mkFile name data (len data) false, len data, None)) as Hend.
  { unfold File_Seek. cbn [f_closed f_data f_name f_offset].
    rewrite (bool_decide_false (WHENCE_END = WHENCE_START)) by done.
    rewrite (bool_decide_false (WHENCE_END = WHENCE_CURRENT)) by done.
    rewrite (bool_decide_true (WHENCE_END = WHENCE_END)) by done.
    rewrite Z.add_0_r, bool_decide_true by apply len_nonneg. done. }
  unfold seeks_ok, size_of, rewound, seek_end.
  cbn [rcs_Seek File_ReadCloseSeeker]. rewrite Hend. by cbn.
Qed.

(** C1 (the defect): for every non-empty list of open files, [New]
    succeeds and stores the size of each source as its end offset, with
    start offsets 0 and each end offset plus one.  So the range of the
    first source is [0, s_0] and not [0, s_0 - 1], and for sizes 5, 3, 4
    the table is start [0; 6; 4], end [5; 3; 4] instead of start [0; 5; 8],
    end [4; 7; 11]. *)
Theorem Initialize_end_offset_is_size (files : list File) :
  files ≠ [] → Forall (λ f, f_closed f = false) files →
  ∃ cs starts ends,
    MultiReadSeeker.New files
    = Done (Some (MultiReadSeeker.mk cs starts ends 0 0), None)
    ∧ ends = (λ f, len (f_data f)) <$> files
    ∧ starts = starts_after ends
    ∧ starts !! 0%nat = Some 0.
Proof.
  intros Hne Hopen.
  assert (Forall seeks_ok files) as Hok.
  { eapply Forall_impl; [exact Hopen|]. intros f Hf. by apply File_seeks. }
  assert (size_of <$> files = (λ f, len (f_data f)) <$> files) as Hsizes.
  { apply Forall_fmap_ext. eapply Forall_impl; [exact Hopen|].
    intros f Hf. by apply File_seeks. }
  unfold MultiReadSeeker.New. rewrite (Initialize_spec files Hne Hok). cbn.
  eexists _, _, _. split; [reflexivity|]. split; [done|].
  rewrite Hsizes. split; [done|].
  destruct files as [|f files]; [done|]. reflexivity.
Qed.

(** One source whose close fails and one whose close succeeds: both are
    closed and the value returned holds the one failure. *)
Example Close_one_failure_of_two :
  ∃ s',
    MultiReadSeeker.Close
      (MultiReadSeeker.mk [Some (closedFile "a" "AB"); Some (openFile "b" "C")]
                          [0; 3] [2; 1] 0 0)
    = Done (s', Some (errset_ErrSet
         [errors_Wrapf os_ErrClosed "Closing io.Seeker #%d (0-based)" (FmtInt 0)]))
    ∧ MultiReadSeeker.children s'
      = [Some (closedFile "a" "AB"); Some (mkFile "b" (bytes "C") 0 true)].
Proof. eexists. split; vm_compute; reflexivity. Qed.

(** Two calls of [Close] on open files: the first returns nil, the second
    the aggregate of the two "already closed" failures. *)
Example Close_twice_on_files :
  let s := MultiReadSeeker.mk [Some (openFile "a" "AB"); Some (openFile "b" "C")]
                              [0; 3] [2; 1] 0 0 in
  ∃ s1 s2,
    MultiReadSeeker.Close s = Done (s1, None)
    ∧ MultiReadSeeker.Close s1
      = Done (s2, Some (errset_ErrSet
           [errors_Wrapf os_ErrClosed "Closing io.Seeker #%d (0-based)" (FmtInt 0);
            errors_Wrapf os_ErrClosed "Closing io.Seeker #%d (0-based)" (FmtInt 1)])).
Proof. do 2 eexists. split; vm_compute; reflexivity. Qed.

(** * Properties of [ConcatFile] *)

(** ** The offsets of the files *)

Lemma offs_0 datas : offs datas 0 = 0.
Proof. done. Qed.

Lemma offs_S datas j d :
  datas !! j = Some d → offs datas (S j) = offs datas j + len d.
Proof.
  intros Hj. unfold offs. rewrite (take_S_r _ _ _ Hj), concat_app, len_app.
  simpl. by rewrite app_nil_r.
Qed.

Lemma offs_ge datas j : (length datas ≤ j)%nat → offs datas j = len (concat datas).
Proof. intros Hj. unfold offs. by rewrite take_ge by lia. Qed.

Lemma offs_nonneg datas j : 0 ≤ offs datas j.
Proof. apply len_nonneg. Qed.

Lemma offs_mono_S datas j : offs datas j ≤ offs datas (S j).
Proof.
  destruct (datas !! j) as [d|] eqn:E.
  - rewrite (offs_S _ _ _ E). pose proof (len_nonneg d). lia.
  - apply lookup_ge_None in E. rewrite !offs_ge by lia. lia.
Qed.

Lemma offs_mono datas i j : (i ≤ j)%nat → offs datas i ≤ offs datas j.
Proof.
  induction 1 as [|j _ IH]; [lia|].
  pose proof (offs_mono_S datas j). lia.
Qed.

Lemma offs_le_total datas j : offs datas j ≤ len (concat datas).
Proof.
  destruct (decide (j ≤ length datas)%nat) as [Hj|Hj].
  - rewrite <- (offs_ge datas (length datas)) by lia. by apply offs_mono.
  - rewrite offs_ge by lia. lia.
Qed.

(** What is left of the stream from offset [q] of file [c] on. *)
Lemma drop_concat_at datas c d (q : nat) :
  datas !! c = Some d → (q ≤ length d)%nat →
  drop (Z.to_nat (offs datas c) + q) (concat datas)
  = drop q d ++ concat (drop (S c) datas).
Proof.
  intros Hc Hq.
  rewrite <- (take_drop_middle _ _ _ Hc) at 2.
  rewrite concat_app. simpl.
  unfold offs, len. rewrite Nat2Z.id.
  rewrite drop_app_add'; [|done].
  rewrite drop_app_le; done.
Qed.

Lemma offs_locate datas p : ∀ m,
  0 ≤ p < offs datas m → ∃ j, (j < m)%nat ∧ offs datas j ≤ p < offs datas (S j).
Proof.
  induction m as [|m IH]; intros Hp.
  - rewrite offs_0 in Hp. lia.
  - destruct (decide (p < offs datas m)) as [Hlt|Hge].
    + destruct IH as (j & Hj & Hin); [lia|]. exists j. split; [lia | done].
    + exists m. split; lia.
Qed.

(** ** Position resolution *)

Section Resolution.
Import ConcatFile.
Variables (datas : list (list byte)) (self : t).
Hypothesis Hnum : num_files self = len datas.
Hypothesis Hstart :
  super_pos_start self = (λ j, offs datas j) <$> seq 0 (length datas).
Hypothesis Hend :
  super_pos_end self = (λ j, offs datas (S j) - 1) <$> seq 0 (length datas).

Lemma start_lookup j :
  (j < length datas)%nat → super_pos_start self !! j = Some (offs datas j).
Proof. intros Hj. by rewrite Hstart, list_lookup_fmap, lookup_seq_lt. Qed.

Lemma end_lookup j :
  (j < length datas)%nat → super_pos_end self !! j = Some (offs datas (S j) - 1).
Proof. intros Hj. by rewrite Hend, list_lookup_fmap, lookup_seq_lt. Qed.

Lemma start_get j :
  (j < length datas)%nat →
  slice_get (super_pos_start self) (Z.of_nat j) = Done (offs datas j).
Proof.
  intros Hj. apply slice_get_Some; [lia|]. rewrite Nat2Z.id. by apply start_lookup.
Qed.

Lemma end_get j :
  (j < length datas)%nat →
  slice_get (super_pos_end self) (Z.of_nat j) = Done (offs datas (S j) - 1).
Proof.
  intros Hj. apply slice_get_Some; [lia|]. rewrite Nat2Z.id. by apply end_lookup.
Qed.

Local Abbreviation holds := (holds datas).

Lemma findSeekIndex_loop_spec p : ∀ k i,
  (i + k ≤ length datas)%nat →
  ∃ r, findSeekIndex_loop k (Z.of_nat i) self p = Done r
    ∧ ((r = seekImpossible ∧ ∀ j, (i ≤ j < i + k)%nat → ¬ holds p j)
       ∨ (∃ j, r = Z.of_nat j ∧ (i ≤ j < i + k)%nat ∧ holds p j)).
Proof.
  induction k as [|k IH]; intros i Hik.
  - exists seekImpossible. split; [done|]. left. split; [done | lia].
  - cbn [findSeekIndex_loop].
    rewrite start_get by lia. cbn.
    destruct (IH (S i)) as (r & Hr & Hcases); [lia|].
    replace (Z.of_nat i + 1) with (Z.of_nat (S i)) by lia.
    assert (∀ r', findSeekIndex_loop k (Z.of_nat (S i)) self p = Done r' →
              (¬ holds p i) →
              ((r' = seekImpossible ∧ ∀ j, (i ≤ j < i + S k)%nat → ¬ holds p j)
               ∨ (∃ j, r' = Z.of_nat j ∧ (i ≤ j < i + S k)%nat ∧ holds p j)))
      as Hskip.
    { intros r' Hr' Hno. rewrite Hr in Hr'. injection Hr' as <-.
      destruct Hcases as [[-> Hall]|(j & -> & Hj & Hh)].
      - left. split; [done|]. intros j Hj.
        destruct (decide (j = i)) as [->|]; [done|]. apply Hall. lia.
      - right. exists j. split; [done|]. split; [lia | done]. }
    case_bool_decide as Hs.
    + rewrite end_get by lia. cbn.
      case_bool_decide as He.
      * exists (Z.of_nat i). split; [done|]. right. exists i.
        split; [done|]. split; [lia|]. by split.
      * exists r. split; [done|]. apply Hskip; [done|].
        unfold holds. lia.
    + exists r. split; [done|]. apply Hskip; [done|]. unfold holds. lia.
Qed.

Lemma findSeekIndex_cases p :
  ∃ r, findSeekIndex self p = Done r
    ∧ ((r = seekImpossible ∧ (p < 0 ∨ len (concat datas) ≤ p))
       ∨ (∃ j, r = Z.of_nat j ∧ (j < length datas)%nat ∧ holds p j)).
Proof.
  unfold findSeekIndex. case_bool_decide as Hneg.
  - exists seekImpossible. split; [done|]. left. split; [done | lia].
  - rewrite Hnum. unfold len at 1. rewrite Nat2Z.id.
    destruct (findSeekIndex_loop_spec p (length datas) 0) as (r & Hr & Hc); [lia|].
    exists r. split; [done|].
    destruct Hc as [[-> Hall]|(j & -> & Hj & Hh)].
    + left. split; [done|]. right.
      destruct (decide (len (concat datas) ≤ p)) as [|Hlt]; [done|].
      destruct (offs_locate datas p (length datas)) as (j & Hj & Hin).
      { rewrite offs_ge by lia. lia. }
      exfalso. apply (Hall j); [lia|]. unfold holds. lia.
    + right. exists j. split; [done|]. split; [lia | done].
Qed.

Lemma findSeekIndex_inside p :
  0 ≤ p < len (concat datas) →
  ∃ j, findSeekIndex self p = Done (Z.of_nat j)
    ∧ (j < length datas)%nat ∧ holds p j.
Proof.
  intros Hp. destruct (findSeekIndex_cases p) as (r & Hr & [[_ Hout]|Hin]).
  - lia.
  - destruct Hin as (j & -> & Hj & Hh). by exists j.
Qed.

Lemma findSeekIndex_outside p :
  p < 0 ∨ len (concat datas) ≤ p → findSeekIndex self p = Done seekImpossible.
Proof.
  intros Hp. destruct (findSeekIndex_cases p) as (r & Hr & [[-> _]|Hin]); [done|].
  destruct Hin as (j & -> & Hj & Hh). unfold holds in Hh.
  pose proof (offs_nonneg datas j). pose proof (offs_le_total datas (S j)). lia.
Qed.

End Resolution.

(** ** The operating system *)

Ltac mstep := repeat progress (unfold mbind, M_bind, mret, M_ret, lift, emit; cbn).

Lemma os_Open_ok fs name data log :
  fs !! name = Some data →
  os_Open fs name log = Done (Some (mkFile name data 0 false), None, log ++ [EvOpen name]).
Proof. intros H. unfold os_Open. by rewrite H. Qed.

Lemma fh_Close_ok name data q log :
  fh_Close (Some (mkFile name data q false)) log
  = Done (Some (mkFile name data q true), None, log ++ [EvClose name]).
Proof. done. Qed.

(** ** [Open] builds the boundary table *)

Section OpenFacts.
Import ConcatFile.
Variable fs : gmap string (list byte).
Variables (names : list string) (datas : list (list byte)).
Hypothesis Hnames : Forall2 (λ name data, fs !! name = Some data) names datas.
Hypothesis Hbound : len (concat datas) ≤ MaxInt64.

Lemma Open_loop_spec : ∀ k i co nf cur h sp ss starts ends log,
  (i + k = length datas)%nat →
  tables_upto datas i (mk co names nf cur h sp ss starts ends) →
  ∃ starts' ends' log',
    Open_loop fs k (Z.of_nat i) names (mk co names nf cur h sp ss starts ends) log
    = Done (Some (mk co names nf cur h sp ss starts' ends'), None, log')
    ∧ tables_upto datas (length datas) (mk co names nf cur h sp ss starts' ends').
Proof.
  induction k as [|k IH]; intros i co nf cur h sp ss starts ends log Hik Hinv.
  - replace i with (length datas) in Hinv by lia. by eexists _, _, _.
  - cbn [Open_loop]. mstep.
    destruct (lookup_lt_is_Some_2 datas i) as [data Hdata]; [lia|].
    destruct (Forall2_lookup_r _ _ _ _ _ Hnames Hdata) as (name & Hname & Hfs).
    rewrite (slice_get_Some names (Z.of_nat i) name) by (rewrite ?Nat2Z.id; done || lia).
    rewrite (os_Open_ok _ _ _ _ Hfs). mstep.
    destruct Hinv as (Hls & Hle & H0 & Hlt). cbn in Hls, Hle, H0, Hlt.
    pose proof (offs_nonneg datas i) as Hoi.
    pose proof (offs_le_total datas (S i)) as Hoi'.
    pose proof (offs_S _ _ _ Hdata) as HoS.
    pose proof (len_nonneg data) as Hdl.
    unfold MaxInt64 in Hbound.
    match goal with
    | |- context [ ?X (log ++ [EvOpen name]) ] =>
        set (blk := X (log ++ [EvOpen name]));
        assert (∃ starts1,
          blk = Done (mk co names nf cur h sp ss starts1 ends, log ++ [EvOpen name])
          ∧ length starts1 = length datas
          ∧ starts1 !! 0%nat = Some 0
          ∧ starts1 !! i = Some (offs datas i)
          ∧ ∀ j, (j < i)%nat → starts1 !! j = Some (offs datas j))
          as (starts1 & Hblk & Hls1 & H01 & Hi1 & Hlt1);
          [subst blk | rewrite Hblk; clear Hblk blk]
    end.
    { case_bool_decide as Hpos.
      - destruct (Hlt (i - 1)%nat) as [_ Hprev]; [lia|].
        rewrite (slice_get_Some ends (Z.of_nat i - 1) (offs datas (S (i - 1)) - 1));
          [|lia|by replace (Z.to_nat (Z.of_nat i - 1)) with (i - 1)%nat by lia].
        rewrite slice_set_Done by (unfold len; lia). cbn.
        replace (S (i - 1)) with i by lia. unfold add64.
        rewrite wrap64_id by (unfold MaxInt64; lia).
        replace (offs datas i - 1 + 1) with (offs datas i) by lia.
        rewrite Nat2Z.id. eexists. split; [reflexivity|].
        split; [by rewrite length_insert|].
        split; [rewrite list_lookup_insert_ne by lia; done|].
        split; [apply list_lookup_insert_eq; lia|].
        intros j Hj. rewrite list_lookup_insert_ne by lia. by apply Hlt.
      - assert (i = 0%nat) as -> by lia. eexists. split; [reflexivity|].
        repeat split; try done. intros j Hj. lia. }
    mstep.
    rewrite (slice_get_Some starts1 (Z.of_nat i) (offs datas i))
      by (rewrite ?Nat2Z.id; done || lia).
    rewrite slice_set_Done by (unfold len; lia). cbn.
    unfold add64, sub64.
    rewrite (wrap64_id (offs datas i + len data)) by (unfold MaxInt64; lia).
    rewrite wrap64_id by (unfold MaxInt64; lia).
    replace (Z.of_nat i + 1) with (Z.of_nat (S i)) by lia.
    rewrite Nat2Z.id. apply IH; [lia|].
    unfold tables_upto. cbn.
    split; [done|]. split; [by rewrite length_insert|]. split; [done|].
    intros j Hj. destruct (decide (j = i)) as [->|Hne].
    + split; [done|]. rewrite list_lookup_insert_eq by lia. f_equal. lia.
    + rewrite list_lookup_insert_ne by lia. split; [apply Hlt1; lia | apply Hlt; lia].
Qed.

Lemma tables_full self :
  tables_upto datas (length datas) self →
  super_pos_start self = (λ j, offs datas j) <$> seq 0 (length datas)
  ∧ super_pos_end self = (λ j, offs datas (S j) - 1) <$> seq 0 (length datas).
Proof.
  intros (Hls & Hle & _ & Hlt).
  split; apply list_eq; intros j; rewrite list_lookup_fmap;
    (destruct (decide (j < length datas)%nat) as [Hj|Hj];
     [rewrite lookup_seq_lt by done; cbn; by apply Hlt
     |rewrite lookup_seq_ge by lia; cbn; apply lookup_ge_None; lia]).
Qed.

Lemma Open_spec log :
  datas ≠ [] →
  ∃ self log',
    Open fs names log = Done (Some self, None, log')
    ∧ Inv fs datas self
    ∧ currently_open self = true
    ∧ Positioned datas self
    ∧ super_pos self = 0
    ∧ current_file_num self = 0.
Proof.
  intros Hne.
  pose proof (Forall2_length _ _ _ Hnames) as Hlen.
  assert (0 < length datas)%nat as Hpos by (destruct datas; [done | cbn; lia]).
  destruct (lookup_lt_is_Some_2 datas 0) as [data Hdata]; [lia|].
  destruct (Forall2_lookup_r _ _ _ _ _ Hnames Hdata) as (name & Hname & Hfs).
  unfold Open. rewrite bool_decide_false by (unfold len; lia).
  mstep. unfold make.
  rewrite slice_set_Done by (unfold len; rewrite length_replicate; lia). cbn.
  unfold set_super_pos_start at 1; cbn.
  replace (Z.to_nat (len names)) with (length datas)
    by (unfold len; lia).
  destruct (Open_loop_spec (length datas) 0 false (len names) 0 None 0 0
              (<[0%nat:=0]> (replicate (length datas) 0))
              (replicate (length datas) 0) log)
    as (starts' & ends' & log' & Hloop & Hfull); [lia| |].
  { unfold tables_upto; cbn. rewrite length_insert, !length_replicate.
    split; [done|]. split; [done|]. split; [|intros j Hj; lia].
    apply list_lookup_insert_eq. rewrite length_replicate. lia. }
  change (Z.of_nat 0) with 0 in Hloop. change (Z.to_nat 0) with 0%nat.
  rewrite Hloop. cbn.
  destruct (tables_full _ Hfull) as [Hs He].
  pose proof (end_lookup datas _ He (length datas - 1)) as Hlast.
  cbn in Hs, He, Hlast.
  rewrite (slice_get_Some ends' (len names - 1)
             (offs datas (S (length datas - 1)) - 1));
    [|unfold len; lia
     |replace (Z.to_nat (len names - 1)) with (length datas - 1)%nat
        by (unfold len; lia); apply Hlast; lia].
  cbn. rewrite (slice_get_Some names 0 name) by done. cbn.
  rewrite (os_Open_ok _ _ _ _ Hfs). cbn.
  replace (S (length datas - 1)) with (length datas) by lia.
  rewrite offs_ge by lia. unfold add64.
  pose proof (len_nonneg (concat datas)).
  rewrite wrap64_id by (unfold MaxInt64 in *; lia).
  replace (len (concat datas) - 1 + 1) with (len (concat datas)) by lia.
  eexists _, _. split; [reflexivity|].
  split; [|split; [done|]; split; [|done]].
  - constructor; cbn; try done.
    + unfold len. lia.
    + unfold len. lia.
    + eexists. split; [reflexivity|]. cbn. by repeat split.
  - eexists. split; [reflexivity|]. cbn. rewrite offs_0.
    pose proof (len_nonneg data). lia.
Qed.

(** The table of [Open] is the contiguous one: the first range starts at
    0, each range ends at its start plus its size minus one, the next
    range starts one further, and the total size is the sum of the
    sizes. *)
Lemma Open_table log :
  datas ≠ [] →
  ∃ self log',
    Open fs names log = Done (Some self, None, log')
    ∧ super_pos_start self !! 0%nat = Some 0
    ∧ (∀ j data, datas !! j = Some data →
         ∃ start,
           super_pos_start self !! j = Some start
           ∧ super_pos_end self !! j = Some (start + len data - 1)
           ∧ ((S j < length datas)%nat →
              super_pos_start self !! S j = Some (start + len data - 1 + 1)))
    ∧ super_size self = foldr Z.add 0 (len <$> datas).
Proof.
  intros Hne. destruct (Open_spec log Hne) as (self & log' & Hopen & HI & _).
  exists self, log'. split; [done|].
  assert (0 < length datas)%nat as Hpos by (destruct datas; [done | cbn; lia]).
  split; [by rewrite (start_lookup datas self (inv_start _ _ _ HI)) by done|].
  split.
  - intros j data Hj. apply lookup_lt_Some in Hj as Hlt.
    exists (offs datas j).
    rewrite (start_lookup datas self (inv_start _ _ _ HI)) by done.
    rewrite (end_lookup datas self (inv_end _ _ _ HI)) by done.
    rewrite (offs_S _ _ _ Hj). split; [done|]. split; [done|].
    intros HS. rewrite (start_lookup datas self (inv_start _ _ _ HI)) by done.
    rewrite (offs_S _ _ _ Hj). f_equal. lia.
  - rewrite (inv_size _ _ _ HI). clear.
    induction datas as [|d ds IH]; [done|].
    cbn [concat fmap list_fmap foldr]. by rewrite len_app, IH.
Qed.

End OpenFacts.

(** ** Moving between files *)

Section MoveFacts.
Import ConcatFile.
Variable fs : gmap string (list byte).
Variable datas : list (list byte).

Lemma Inv_file self (j : nat) :
  Inv fs datas self → (j < length datas)%nat →
  ∃ name data, filenames self !! j = Some name ∧ datas !! j = Some data
               ∧ fs !! name = Some data.
Proof.
  intros HI Hj. destruct (lookup_lt_is_Some_2 datas j) as [data Hdata]; [done|].
  destruct (Forall2_lookup_r _ _ _ _ _ (inv_names _ _ _ HI) Hdata)
    as (name & Hname & Hfs).
  by exists name, data.
Qed.

(** Replacing the handle by a fresh one on file [j] keeps the invariant. *)
Lemma Inv_reopen self (j : nat) name data co :
  Inv fs datas self → (j < length datas)%nat →
  filenames self !! j = Some name → datas !! j = Some data →
  Inv fs datas
    (mk co (filenames self) (num_files self) (Z.of_nat j)
        (Some (mkFile name data 0 false)) (super_pos self) (super_size self)
        (super_pos_start self) (super_pos_end self)).
Proof.
  intros [] Hj Hname Hdata. constructor; cbn; try done.
  - unfold len. lia.
  - eexists. split; [reflexivity|]. cbn. rewrite Nat2Z.id. by repeat split.
Qed.

Lemma Seek_switch_spec self (j : nat) log :
  Inv fs datas self → (j < length datas)%nat →
  ∃ self' evs,
    Seek_switch fs self (Z.of_nat j) log = Done (self', None, log ++ evs)
    ∧ Inv fs datas self'
    ∧ current_file_num self' = Z.of_nat j
    ∧ super_pos self' = super_pos self
    ∧ currently_open self' = currently_open self
    ∧ (Z.of_nat j ≠ current_file_num self →
         ∃ name data, datas !! j = Some data
                      ∧ fh self' = Some (mkFile name data 0 false)).
Proof.
  intros HI Hj. unfold Seek_switch. case_bool_decide as Hchg.
  - destruct (inv_fh _ _ _ HI) as (f & Hf & Hcl & Hq & Hfn & Hfd).
    destruct (Inv_file self j HI Hj) as (name & data & Hname & Hdata & Hfs).
    destruct f as [fname fdata q cl]. cbn in Hcl. subst cl.
    rewrite Hf. mstep.
    rewrite (slice_get_Some _ (Z.of_nat j) name) by (rewrite ?Nat2Z.id; done || lia).
    mstep. rewrite (os_Open_ok _ _ _ _ Hfs). cbn.
    eexists _, [EvClose fname; EvOpen name].
    split; [by rewrite <- app_assoc|].
    unfold set_current_file_num, set_fh; cbn.
    split; [by apply Inv_reopen|].
    repeat split; try done. intros _. by exists name, data.
  - exists self, []. rewrite app_nil_r.
    split; [done|]. split; [done|]. split; [lia|]. split; [done|].
    split; [done|]. intros Hne. by destruct Hchg.
Qed.

Lemma goToNextFile_more self f log :
  Inv fs datas self → fh self = Some f →
  current_file_num self < len datas - 1 →
  ∃ self' name data,
    goToNextFile fs self log
    = Done (self', true, None, log ++ [EvClose (f_name f); EvOpen name])
    ∧ Inv fs datas self'
    ∧ current_file_num self' = current_file_num self + 1
    ∧ datas !! Z.to_nat (current_file_num self + 1) = Some data
    ∧ fh self' = Some (mkFile name data 0 false)
    ∧ super_pos self' = super_pos self
    ∧ currently_open self' = currently_open self.
Proof.
  intros HI Hf Hlt. unfold goToNextFile.
  rewrite (inv_num _ _ _ HI), bool_decide_true by done.
  destruct (inv_fh _ _ _ HI) as (f' & Hf' & Hcl & Hq & Hfn & Hfd).
  rewrite Hf in Hf'. injection Hf' as <-.
  pose proof (inv_cur _ _ _ HI) as Hcur. unfold len in Hlt, Hcur.
  set (j := Z.to_nat (current_file_num self + 1)).
  destruct (Inv_file self j HI) as (name & data & Hname & Hdata & Hfs); [lia|].
  destruct f as [fname fdata q cl]. cbn in Hcl. subst cl.
  rewrite Hf. mstep.
  rewrite (slice_get_Some _ _ name) by (done || lia).
  mstep. rewrite (os_Open_ok _ _ _ _ Hfs). cbn.
  eexists _, name, data.
  split; [by rewrite <- app_assoc|].
  unfold set_current_file_num, set_fh; cbn.
  split.
  { replace (current_file_num self + 1) with (Z.of_nat j) by lia.
    apply Inv_reopen; [done|lia|done..]. }
  by repeat split.
Qed.

Lemma goToNextFile_last self log :
  Inv fs datas self → ¬ current_file_num self < len datas - 1 →
  goToNextFile fs self log = Done (self, false, None, log).
Proof.
  intros HI Hlt. unfold goToNextFile.
  by rewrite (inv_num _ _ _ HI), bool_decide_false.
Qed.

Lemma Inv_set self f f' co sp :
  Inv fs datas self → fh self = Some f →
  f_name f' = f_name f → f_data f' = f_data f →
  f_closed f' = false → 0 ≤ f_offset f' →
  Inv fs datas
    (mk co (filenames self) (num_files self) (current_file_num self)
        (Some f') sp (super_size self) (super_pos_start self) (super_pos_end self)).
Proof.
  intros [] Hf Hn Hd Hc Hq. constructor; cbn; try done.
  destruct inv_fh0 as (f0 & Hf0 & ? & ? & ? & ?).
  rewrite Hf in Hf0. injection Hf0 as <-.
  exists f'. rewrite Hn, Hd. by repeat split.
Qed.

Lemma Seek_move_spec self p (j : nat) log :
  Inv fs datas self → (j < length datas)%nat →
  ∃ self' ret err evs,
    Seek_move fs self p (Z.of_nat j) log = Done (self', ret, err, log ++ evs)
    ∧ Inv fs datas self'
    ∧ current_file_num self' = Z.of_nat j
    ∧ (offs datas j ≤ p ≤ MaxInt64 →
         err = None ∧ ret = p ∧ super_pos self' = p
         ∧ currently_open self' = currently_open self
         ∧ ∃ f, fh self' = Some f ∧ f_offset f = p - offs datas j).
Proof.
  intros HI Hj. unfold Seek_move. mstep.
  destruct (Seek_switch_spec self j log HI Hj)
    as (self1 & evs & -> & HI1 & Hcur1 & Hsp1 & Hco1 & _).
  cbn.
  rewrite (start_get datas self1 (inv_start _ _ _ HI1) j Hj). cbn.
  destruct (inv_fh _ _ _ HI1) as (f & Hf & Hcl & Hq & Hfn & Hfd).
  rewrite Hf. unfold fh_Seek, File_Seek. rewrite Hcl.
  rewrite (bool_decide_true (WHENCE_ORIGIN = WHENCE_START)) by done.
  pose proof (offs_nonneg datas j) as Ho.
  pose proof (offs_le_total datas j) as Ho'.
  pose proof (inv_bound _ _ _ HI) as Hb.
  case_bool_decide as Hoff; cbn.
  - exists (set_super_pos p (set_fh (Some (mkFile (f_name f) (f_data f)
                                  (sub64 p (offs datas j)) false)) self1)).
    eexists _, _, evs. split; [reflexivity|].
    unfold set_super_pos, set_fh; cbn.
    split; [by eapply Inv_set|]. split; [done|].
    intros Hp. split; [done|]. split; [done|]. split; [done|].
    split; [done|]. eexists. split; [reflexivity|]. cbn.
    unfold sub64. apply wrap64_id. unfold MaxInt64 in *. lia.
  - eexists _, _, _, evs. split; [reflexivity|].
    unfold set_super_pos, set_fh, set_currently_open; cbn.
    split; [by eapply Inv_set|]. split; [done|].
    intros Hp. exfalso. apply Hoff. unfold sub64.
    rewrite wrap64_id; unfold MaxInt64 in *; lia.
Qed.

(** Seeking to a position that some file holds. *)
Lemma Seek_resolved self p whence log :
  Inv fs datas self → 0 ≤ p < len (concat datas) →
  ∃ self' evs,
    (seek_index ← lift (findSeekIndex self p);
     Seek_move fs self p (Seek_clamp self whence seek_index)) log
    = Done (self', p, None, log ++ evs)
    ∧ Inv fs datas self'
    ∧ Positioned datas self'
    ∧ super_pos self' = p
    ∧ currently_open self' = currently_open self.
Proof.
  intros HI Hp.
  destruct (findSeekIndex_inside datas self (inv_num _ _ _ HI) (inv_start _ _ _ HI)
              (inv_end _ _ _ HI) p Hp) as (j & Hfind & Hj & Hlo & Hhi).
  mstep. rewrite Hfind. cbn.
  unfold Seek_clamp. rewrite bool_decide_false by (unfold seekImpossible; lia).
  pose proof (inv_bound _ _ _ HI) as Hb.
  destruct (Seek_move_spec self p j log HI Hj)
    as (self' & ret & err & evs & -> & HI' & Hcur' & Hok).
  destruct Hok as (-> & -> & Hsp & Hco & f & Hf & Hq); [lia|].
  exists self', evs. split; [done|]. split; [done|]. split; [|done].
  destruct (inv_fh _ _ _ HI') as (f' & Hf' & _ & _ & _ & Hfd).
  rewrite Hf in Hf'. injection Hf' as <-.
  rewrite Hcur', Nat2Z.id in Hfd.
  exists f. split; [done|]. rewrite Hcur', Nat2Z.id, Hsp, Hq.
  split; [lia|]. rewrite (offs_S _ _ _ Hfd) in Hhi. lia.
Qed.

Lemma Seek_start_spec self p log :
  Inv fs datas self → 0 ≤ p < len (concat datas) →
  ∃ self' evs,
    Seek fs self p WHENCE_ORIGIN log = Done (self', p, None, log ++ evs)
    ∧ Inv fs datas self'
    ∧ Positioned datas self'
    ∧ super_pos self' = p
    ∧ currently_open self' = currently_open self.
Proof.
  intros HI Hp. unfold Seek. rewrite bool_decide_true by done.
  case_bool_decide as H0; [|by apply Seek_resolved].
  subst p. mstep.
  assert (0 < length datas)%nat as Hn.
  { pose proof (inv_cur _ _ _ HI). unfold len in *. lia. }
  unfold Seek_clamp. rewrite bool_decide_false by done.
  pose proof (inv_bound _ _ _ HI) as Hb.
  destruct (Seek_move_spec self 0 0 log HI Hn)
    as (self' & ret & err & evs & Hmove & HI' & Hcur' & Hok).
  change (Z.of_nat 0) with 0 in *. rewrite Hmove.
  rewrite offs_0 in Hok.
  destruct Hok as (-> & -> & Hsp & Hco & f & Hf & Hq); [lia|].
  exists self', evs. split; [done|]. split; [done|]. split; [|done].
  exists f. split; [done|]. rewrite Hcur', Hsp, Hq. cbn. rewrite offs_0.
  pose proof (len_nonneg (f_data f)). lia.
Qed.

End MoveFacts.

Lemma drop_concat_offs (datas : list (list byte)) j :
  drop (Z.to_nat (offs datas j)) (concat datas) = concat (drop j datas).
Proof.
  rewrite <- (take_drop j datas) at 2. rewrite concat_app.
  unfold offs, len. rewrite Nat2Z.id. by rewrite drop_app_length.
Qed.

(** ** Reading *)

Lemma File_Read_spec name data q (b : list byte) :
  0 ≤ q →
  let avail := drop (Z.to_nat q) data in
  let m := (length b `min` length avail)%nat in
  File_Read (mkFile name data q false) b
  = (mkFile name data (q + Z.of_nat m) false,
     take m avail ++ drop m b, Z.of_nat m,
     if bool_decide (b ≠ [] ∧ m = 0%nat) then Some io_EOF else None).
Proof.
  intros Hq avail m. unfold File_Read. cbn [f_closed f_offset f_data f_name].
  fold avail.
  replace (len b `min` len avail) with (Z.of_nat m) by (unfold len, m; lia).
  destruct b as [|x b].
  - by rewrite Z.add_0_r.
  - rewrite bool_decide_false by (unfold len; cbn; lia).
    case_bool_decide as Hm.
    + assert (m = 0%nat) as -> by lia.
      rewrite bool_decide_true by done. by rewrite Z.add_0_r.
    + rewrite bool_decide_false by (intros [_ ?]; lia).
      by rewrite Nat2Z.id.
Qed.

Section ReadFacts.
Import ConcatFile.
Variable fs : gmap string (list byte).
Variable datas : list (list byte).

(** The bytes of the stream from the cursor on. *)
Local Abbreviation ahead self := (drop (Z.to_nat (super_pos self)) (concat datas)).

Lemma Read_rec_spec : ∀ fuel self b log,
  Inv fs datas self → currently_open self = true → Positioned datas self →
  len datas - current_file_num self ≤ Z.of_nat fuel →
  let n := (length b `min` length (ahead self))%nat in
  ∃ self' err evs,
    Read_rec fs fuel self b log
    = Done (self', take n (ahead self) ++ drop n b, Z.of_nat n, err, log ++ evs)
    ∧ Inv fs datas self'
    ∧ currently_open self' = true
    ∧ Positioned datas self'
    ∧ super_pos self' = super_pos self + Z.of_nat n
    ∧ (n = length b → err = None)
    ∧ (b ≠ [] → n = 0%nat → err = Some io_EOF)
    ∧ current_file_num self ≤ current_file_num self'
    ∧ (∀ f, fh self = Some f →
         current_file_num self < len datas - 1 →
         (length (drop (Z.to_nat (f_offset f)) (f_data f)) < length b)%nat →
         ∃ name' evs', evs = EvClose (f_name f) :: EvOpen name' :: evs'
                       ∧ current_file_num self < current_file_num self').
Proof.
  induction fuel as [|fuel IH]; intros self b log HI Hco HP Hfuel n.
  { pose proof (inv_cur _ _ _ HI). lia. }
  destruct HP as (f & Hf & Hsp & Hqle).
  destruct (inv_fh _ _ _ HI) as (f' & Hf' & Hcl & Hq & Hfn & Hfd).
  rewrite Hf in Hf'. injection Hf' as <-.
  destruct f as [name data q cl]. cbn in Hcl, Hq, Hfn, Hfd, Hsp, Hqle. subst cl.
  pose proof (inv_cur _ _ _ HI) as Hcur.
  pose proof (inv_bound _ _ _ HI) as Hb.
  set (c := Z.to_nat (current_file_num self)) in *.
  pose proof (offs_nonneg datas c) as Hoc.
  pose proof (offs_S _ _ _ Hfd) as HoS.
  pose proof (offs_le_total datas (S c)) as HoT.
  assert (ahead self = drop (Z.to_nat q) data ++ concat (drop (S c) datas)) as Hahead.
  { rewrite Hsp, Z2Nat.inj_add by lia.
    apply drop_concat_at; [done | unfold len in Hqle; lia]. }
  set (avail := drop (Z.to_nat q) data) in *.
  set (m := (length b `min` length avail)%nat).
  assert (length avail = Z.to_nat (len data - q)) as Havail.
  { unfold avail, len. rewrite length_drop. lia. }
  cbn [Read_rec]. rewrite Hco. cbn [negb]. rewrite Hf. cbn [fh_Read].
  rewrite File_Read_spec by done. fold avail m.
  assert (add64 (super_pos self) (Z.of_nat m) = super_pos self + Z.of_nat m) as Hadd.
  { unfold add64. apply wrap64_id. unfold MaxInt64, len in *. lia. }
  rewrite Hadd. unfold len at 1.
  case_bool_decide as Hfull.
  - (* the current file fills the buffer *)
    assert (n = m) as Hn.
    { unfold n. rewrite Hahead, length_app. lia. }
    mstep. rewrite Hn.
    eexists _, _, []. rewrite app_nil_r.
    split.
    { rewrite Hahead, take_app_le by lia. reflexivity. }
    unfold set_super_pos, set_fh; cbn.
    split; [eapply Inv_set; try done; cbn; lia|].
    split; [done|].
    split.
    { eexists. split; [reflexivity|]. cbn. fold c. unfold len in *. lia. }
    split; [done|].
    split.
    { intros _. rewrite bool_decide_false; [done|]. intros [Hne ->].
      destruct b; [done | cbn in Hfull; lia]. }
    split; [intros Hne ->; destruct b; [done | cbn in Hfull; lia]|].
    split; [lia|].
    intros f0 Hf0 _ Hshort. injection Hf0 as <-.
    cbn in Hshort. fold avail in Hshort. lia.
  - (* the current file is exhausted before the buffer is full *)
    assert (m = length avail) as Hm by lia.
    assert (m < length b)%nat as Hmb by lia.
    set (self1 := set_super_pos _ _).
    assert (Inv fs datas self1) as HI1.
    { unfold self1, set_super_pos, set_fh; cbn.
      eapply Inv_set; try done; cbn; lia. }
    assert (length (take m avail) = m) as Htk by (rewrite length_take; lia).
    destruct (decide (current_file_num self < len datas - 1)) as [Hmore|Hlast].
    + destruct (goToNextFile_more fs datas self1 _ log HI1 eq_refl Hmore)
        as (self2 & name2 & data2 & Hgo & HI2 & Hcur2 & Hd2 & Hf2 & Hsp2 & Hco2).
      cbn in Hcur2, Hd2, Hsp2, Hco2.
      mstep. rewrite Hgo. cbn. rewrite Nat2Z.id.
      rewrite drop_app_length', take_app_length' by done.
      assert (super_pos self2 = offs datas (S c)) as Hsp2'.
      { rewrite Hsp2. unfold len in *. lia. }
      assert (S c = Z.to_nat (current_file_num self2)) as Hc2 by lia.
      destruct (IH self2 (drop m b) (log ++ [EvClose name; EvOpen name2]))
        as (self3 & err & evs & Hrec & HI3 & Hco3 & HP3 & Hsp3 & Hfull3 & Heof3
            & Hmono3 & _).
      { done. }
      { by rewrite Hco2. }
      { eexists. split; [done|]. cbn. rewrite <- Hc2.
        pose proof (len_nonneg data2). lia. }
      { lia. }
      assert (ahead self2 = concat (drop (S c) datas)) as Hahead2.
      { rewrite Hsp2'. apply drop_concat_offs. }
      rewrite Hahead2 in Hrec, Hsp3, Hfull3, Heof3.
      rewrite Hrec. cbn.
      rewrite length_drop in *.
      set (n2 := ((length b - m) `min` length (concat (drop (S c) datas)))%nat) in *.
      assert (n = (m + n2)%nat) as Hn.
      { unfold n, n2. rewrite Hahead, length_app. lia. }
      eexists self3, err, (_ :: _ :: evs).
      split.
      { rewrite Hn, Hahead, <- !app_assoc. cbn.
        rewrite take_app_ge by lia. rewrite take_ge by lia.
        rewrite drop_drop, Nat2Z.inj_add, <- !app_assoc.
        replace (m + n2 - length avail)%nat with n2 by lia. reflexivity. }
      split; [done|]. split; [done|]. split; [done|].
      split; [rewrite Hsp3, Hn; lia|].
      split; [intros Hnb; apply Hfull3; lia|].
      split.
      { intros Hne Hn0; apply Heof3; [|lia].
        intros Hd. apply (f_equal length) in Hd. rewrite length_drop in Hd.
        cbn in Hd. lia. }
      split; [lia|].
      intros f0 Hf0 _ _. injection Hf0 as <-.
      exists name2, evs. split; [done | cbn; lia].
    + mstep. rewrite (goToNextFile_last fs datas self1 log HI1) by done. cbn.
      assert (n = m) as Hn.
      { unfold n. rewrite Hahead, length_app, drop_ge; [cbn; lia|].
        unfold len in *. lia. }
      assert (take n (ahead self) = take m avail) as Htake.
      { rewrite Hn, Hahead, take_app_le by lia. done. }
      rewrite Htake, Hn.
      assert (Positioned datas self1) as HP1.
      { eexists. split; [reflexivity|]. cbn. fold c. unfold len in *. lia. }
      case_bool_decide as Hpos; cbn.
      * rewrite bool_decide_false by (intros [_ ?]; lia).
        exists self1, None, []. rewrite app_nil_r.
        split; [done|]. split; [done|]. split; [done|]. split; [done|].
        split; [done|]. split; [done|]. split; [intros _ ?; lia|].
        split; [done|]. intros ? _ ? _. lia.
      * exists self1, (Some io_EOF), []. rewrite app_nil_r.
        split; [done|]. split; [done|]. split; [done|]. split; [done|].
        split; [done|]. split; [intros ?; lia|]. split; [done|].
        split; [done|]. intros ? _ ? _. lia.
Qed.

Lemma Read_spec self b log :
  Inv fs datas self → currently_open self = true → Positioned datas self →
  let n := (length b `min` length (ahead self))%nat in
  ∃ self' err evs,
    Read fs self b log
    = Done (self', take n (ahead self) ++ drop n b, Z.of_nat n, err, log ++ evs)
    ∧ Inv fs datas self'
    ∧ currently_open self' = true
    ∧ Positioned datas self'
    ∧ super_pos self' = super_pos self + Z.of_nat n
    ∧ (n = length b → err = None)
    ∧ (b ≠ [] → n = 0%nat → err = Some io_EOF)
    ∧ current_file_num self ≤ current_file_num self'
    ∧ (∀ f, fh self = Some f →
         current_file_num self < len datas - 1 →
         (length (drop (Z.to_nat (f_offset f)) (f_data f)) < length b)%nat →
         ∃ name' evs', evs = EvClose (f_name f) :: EvOpen name' :: evs'
                       ∧ current_file_num self < current_file_num self').
Proof.
  intros HI Hco HP. unfold Read. apply Read_rec_spec; try done.
  pose proof (inv_cur _ _ _ HI). rewrite (inv_num _ _ _ HI). lia.
Qed.

Lemma goToNextFile_cases self log :
  (∃ msg, goToNextFile fs self log = Panicked msg)
  ∨ (∃ self' inc err log',
       goToNextFile fs self log = Done (self', inc, err, log')
       ∧ num_files self' = num_files self
       ∧ (inc = true →
            current_file_num self < num_files self - 1
            ∧ current_file_num self' = current_file_num self + 1)).
Proof.
  unfold goToNextFile. case_bool_decide as Hlt.
  - mstep.
    assert (∃ fh' e log1, fh_Close (fh self) log = Done (fh', e, log1))
      as (fh' & e & log1 & ->).
    { destruct (fh self) as [[name data q []]|]; by eexists _, _, _. }
    cbn.
    destruct (slice_get (filenames self) (current_file_num self + 1))
      as [name|msg|] eqn:Hget; cbn; [|left; by eexists|].
    + unfold os_Open. destruct (fs !! name); cbn;
        right; eexists _, _, _, _; (split; [reflexivity|]); by cbn.
    + exfalso. unfold slice_get in Hget. repeat case_match; discriminate.
  - right. by eexists _, _, _, _.
Qed.

(** A [Read] into an empty buffer returns at once: no byte, no error, also
    at the end of the stream. *)
Lemma Read_empty_buffer self log :
  Inv fs datas self → currently_open self = true → Positioned datas self →
  ∃ self', Read fs self [] log = Done (self', [], 0, None, log)
           ∧ super_pos self' = super_pos self.
Proof.
  intros HI Hco (f & Hf & Hsp & Hq).
  destruct (inv_fh _ _ _ HI) as (f' & Hf' & Hcl & Hq0 & _ & Hfd).
  rewrite Hf in Hf'. injection Hf' as <-.
  assert (add64 (super_pos self) 0 = super_pos self) as Hadd.
  { pose proof (offs_nonneg datas (Z.to_nat (current_file_num self))).
    pose proof (offs_S _ _ _ Hfd).
    pose proof (offs_le_total datas (S (Z.to_nat (current_file_num self)))).
    pose proof (inv_bound _ _ _ HI).
    unfold add64. rewrite Z.add_0_r. apply wrap64_id. unfold MaxInt64 in *. lia. }
  exists (set_super_pos (super_pos self) (set_fh (Some f) self)).
  split; [|done]. unfold Read.
  destruct (Z.to_nat (num_files self - current_file_num self)) as [|fuel];
    cbn [Read_rec]; rewrite Hco, Hf; cbn [negb fh_Read]; unfold File_Read;
    rewrite Hcl, (bool_decide_true (len [] = 0)) by done;
    rewrite Hadd, bool_decide_true by done; done.
Qed.

(** [Read] returns or panics in every state: the fuel it starts with is
    never used up. *)
Lemma Read_rec_total : ∀ fuel self b log,
  num_files self - current_file_num self ≤ Z.of_nat fuel →
  Read_rec fs fuel self b log ≠ Diverged.
Proof.
  induction fuel as [|fuel IH]; intros self b log Hfuel.
  - cbn [Read_rec]. destruct (currently_open self); cbn [negb]; [|done].
    destruct (fh_Read (fh self) b) as [[[fh' b'] n] err].
    case_bool_decide; [done|]. mstep.
    set (self1 := set_super_pos _ _).
    destruct (goToNextFile_cases self1 log)
      as [[msg ->]|(self' & inc & err' & log' & -> & Hnum & Hinc)]; [done|].
    cbn. destruct err'; [done|]. destruct inc.
    + destruct Hinc as [Hlt _]; [done|]. cbn in Hlt. lia.
    + by case_bool_decide.
  - cbn [Read_rec]. destruct (currently_open self); cbn [negb]; [|done].
    destruct (fh_Read (fh self) b) as [[[fh' b'] n] err].
    case_bool_decide; [done|]. mstep.
    set (self1 := set_super_pos _ _).
    destruct (goToNextFile_cases self1 log)
      as [[msg ->]|(self' & inc & err' & log' & -> & Hnum & Hinc)]; [done|].
    cbn. destruct err'; [done|]. destruct inc.
    + destruct Hinc as [Hlt Hcur]; [done|]. cbn in Hlt, Hcur.
      pose proof (IH self' (drop (Z.to_nat n) b') log') as Hrec.
      destruct (Read_rec fs fuel self' (drop (Z.to_nat n) b') log')
        as [[[[[? ?] ?] ?] ?]|?|]; [done|done|].
      exfalso. apply Hrec; [|done]. cbn in Hnum. lia.
    + by case_bool_decide.
Qed.

Lemma Read_total self b log : Read fs self b log ≠ Diverged.
Proof. unfold Read. apply Read_rec_total. lia. Qed.

End ReadFacts.

(** ** The two example streams *)

Ltac concrete_Inv :=
  constructor;
  [ repeat constructor | reflexivity | reflexivity | reflexivity | reflexivity
  | vm_compute; discriminate
  | split; vm_compute; first [discriminate | reflexivity]
  | eexists; split; [reflexivity|]; split; [reflexivity|];
    split; [vm_compute; discriminate|]; split; reflexivity ].

Lemma cf3_opened : opened fs3 names3 = Some cf3.
Proof. vm_compute. reflexivity. Qed.

Lemma cf3_Inv : Inv fs3 datas3 cf3.
Proof. concrete_Inv. Defined.

Lemma cf3_Positioned : Positioned datas3 cf3.
Proof.
  eexists. split; [reflexivity|]. split; [reflexivity | vm_compute; discriminate].
Defined.

Lemma cf_gap_opened : opened fs_gap names3 = Some cf_gap.
Proof. vm_compute. reflexivity. Qed.

Lemma cf_gap_Inv : Inv fs_gap datas_gap cf_gap.
Proof. concrete_Inv. Defined.

(** * The claims about [ConcatFile] *)

Section ConcatClaims.
Import ConcatFile.
Variable fs : gmap string (list byte).
Variable datas : list (list byte).

(** C2: on an open stream over the files [datas], for every position [p]
    with [0 <= p < totalSize], [Seek(p, start)] succeeds and returns [p],
    and a [Read] into a one-byte buffer right after it returns one byte,
    no error, and the byte at index [p] of the concatenation of the
    files. *)
Theorem Seek_start_then_Read_one_byte self p (x : byte) log :
  Inv fs datas self → currently_open self = true →
  0 ≤ p < len (concat datas) →
  ∃ self1 log1 self2 log2 y,
    Seek fs self p WHENCE_ORIGIN log = Done (self1, p, None, log1)
    ∧ Read fs self1 [x] log1 = Done (self2, [y], 1, None, log2)
    ∧ concat datas !! Z.to_nat p = Some y.
Proof.
  intros HI Hco Hp.
  destruct (Seek_start_spec fs datas self p log HI Hp)
    as (self1 & evs1 & Hseek & HI1 & HP1 & Hsp1 & Hco1).
  destruct (Read_spec fs datas self1 [x] (log ++ evs1) HI1)
    as (self2 & err & evs2 & Hread & _ & _ & _ & _ & Herr & _); [congruence|done|].
  rewrite Hsp1 in Hread, Herr.
  destruct (lookup_lt_is_Some_2 (concat datas) (Z.to_nat p)) as [y Hy].
  { unfold len in Hp. lia. }
  rewrite (drop_S _ _ _ Hy) in Hread, Herr. cbn in Hread, Herr.
  rewrite Herr in Hread by done.
  by exists self1, (log ++ evs1), self2, ((log ++ evs1) ++ evs2), y.
Qed.

(** C3: on an open stream whose cursor [p] agrees with its handle, one
    [Read] into a buffer of length [L] returns [n = min L (totalSize - p)]
    bytes, the bytes [p .. p+n) of the concatenation of the files, that
    is the rest of the current file followed by the files after it, so
    [n = L] unless the end of the stream comes first; the cursor moves
    by [n]; and a [Read] into a non-empty buffer that obtains nothing
    reports end of stream. *)
Theorem Read_spans_files self f (b : list byte) log :
  Inv fs datas self → currently_open self = true → Positioned datas self →
  fh self = Some f →
  let p := Z.to_nat (super_pos self) in
  let n := (length b `min` (length (concat datas) - p))%nat in
  ∃ self' err log',
    Read fs self b log
    = Done (self', take n (drop p (concat datas)) ++ drop n b, Z.of_nat n, err, log')
    ∧ drop p (concat datas)
      = drop (Z.to_nat (f_offset f)) (f_data f)
        ++ concat (drop (S (Z.to_nat (current_file_num self))) datas)
    ∧ super_pos self' = super_pos self + Z.of_nat n
    ∧ Inv fs datas self' ∧ currently_open self' = true ∧ Positioned datas self'
    ∧ (n = length b → err = None)
    ∧ (b ≠ [] → n = 0%nat → err = Some io_EOF).
Proof.
  intros HI Hco HP Hf p n.
  destruct (Read_spec fs datas self b log HI Hco HP)
    as (self' & err & evs & Hread & HI' & Hco' & HP' & Hsp' & Hfull & Heof & _).
  rewrite length_drop in Hread, Hsp', Hfull, Heof. fold p n in Hread, Hsp', Hfull, Heof.
  exists self', err, (log ++ evs). split; [done|]. split; [|done].
  destruct HP as (f' & Hf' & Hsp & Hq). rewrite Hf in Hf'. injection Hf' as <-.
  destruct (inv_fh _ _ _ HI) as (f' & Hf' & _ & Hq0 & _ & Hfd).
  rewrite Hf in Hf'. injection Hf' as <-.
  unfold p. rewrite Hsp, Z2Nat.inj_add by (done || apply offs_nonneg).
  apply drop_concat_at; [done | unfold len in Hq; lia].
Qed.

(** C5: [Seek(d, end)] with [d > 0] returns the cursor and an error and
    leaves the stream as it was; on a stream of at least one byte
    [Seek(-1, end)] succeeds, returns [totalSize - 1] and sets the cursor
    there: the position is [totalSize - 1], the current file is the file
    that holds that position, and its handle is open at that position
    counted from the start of the file. *)
Theorem Seek_from_end self d log :
  0 < d →
  Seek fs self d WHENCE_END log
  = Done (self, super_pos self,
          Some (errors_New "Seek(offset, WHENCE_END); seek must be <= 0"), log)
  ∧ (Inv fs datas self → 1 ≤ len (concat datas) →
     ∃ self' log' (j : nat) f,
       Seek fs self (-1) WHENCE_END log
       = Done (self', len (concat datas) - 1, None, log')
       ∧ super_pos self' = len (concat datas) - 1
       ∧ holds datas (len (concat datas) - 1) j
       ∧ current_file_num self' = Z.of_nat j
       ∧ fh self' = Some f
       ∧ f_closed f = false
       ∧ datas !! j = Some (f_data f)
       ∧ f_offset f = len (concat datas) - 1 - offs datas j
       ∧ currently_open self' = currently_open self
       ∧ Inv fs datas self'
       ∧ Positioned datas self').
Proof.
  intros Hd. split.
  - unfold Seek. rewrite !bool_decide_false by done.
    rewrite (bool_decide_true (WHENCE_END = WHENCE_END)) by done.
    by rewrite bool_decide_true.
  - intros HI Hsize.
    pose proof (inv_bound _ _ _ HI) as Hb.
    set (p := len (concat datas) - 1).
    destruct (findSeekIndex_inside datas self (inv_num _ _ _ HI) (inv_start _ _ _ HI)
                (inv_end _ _ _ HI) p) as (j & Hfind & Hj & Hh); [unfold p; lia|].
    pose proof (offs_nonneg datas j) as Ho.
    destruct (Seek_move_spec fs datas self p j log HI Hj)
      as (self' & ret & err & evs & Hmove & HI' & Hcur' & Hok).
    destruct Hok as (-> & -> & Hsp & Hco & f & Hf & Hq).
    { destruct Hh. unfold p in *. lia. }
    destruct (inv_fh _ _ _ HI') as (f' & Hf' & Hcl & _ & _ & Hfd).
    rewrite Hf in Hf'. injection Hf' as <-.
    rewrite Hcur', Nat2Z.id in Hfd.
    exists self', (log ++ evs), j, f.
    split.
    { unfold Seek. rewrite !bool_decide_false by done.
      rewrite (bool_decide_true (WHENCE_END = WHENCE_END)) by done.
      rewrite bool_decide_false by done.
      rewrite (inv_size _ _ _ HI).
      assert (add64 (len (concat datas)) (-1) = p) as ->.
      { unfold add64, p. rewrite wrap64_id; unfold MaxInt64 in *; lia. }
      mstep. rewrite Hfind. cbn.
      unfold Seek_clamp. rewrite bool_decide_false by (unfold seekImpossible; lia).
      exact Hmove. }
    split; [done|]. split; [done|]. split; [done|]. split; [done|].
    split; [done|]. split; [done|]. split; [done|]. split; [done|].
    split; [done|].
    exists f. split; [done|]. rewrite Hcur', Nat2Z.id, Hsp, Hq.
    split; [lia|]. destruct Hh as [_ Hhi]. rewrite (offs_S _ _ _ Hfd) in Hhi. lia.
Qed.

(** C6 (as amended): a [Seek] that looks its candidate position up in
    the table, and finds that no file holds it, chooses the file by the
    origin alone: the first file for origin end, the last file for
    origins start and current, whatever the sign of the candidate.  Every
    [Seek] makes the lookup but three: [Seek(0, start)] goes to the first
    file without one, also when no file holds position 0;
    [Seek(0, current)] returns at once and [Seek(d, end)] with [d > 0] is
    refused, and both leave the stream as it was. *)
Theorem Seek_clamps_by_origin self offset whence log :
  Inv fs datas self →
  whence = WHENCE_ORIGIN ∨ whence = WHENCE_CURRENT ∨ whence = WHENCE_END →
  findSeekIndex self (candidate self offset whence) = Done seekImpossible →
  ∃ self' ret err log',
    Seek fs self offset whence log = Done (self', ret, err, log')
    ∧ ((whence = WHENCE_ORIGIN ∧ offset ≠ 0)
       ∨ (whence = WHENCE_CURRENT ∧ offset ≠ 0)
       ∨ (whence = WHENCE_END ∧ offset ≤ 0) →
       current_file_num self'
       = if bool_decide (whence = WHENCE_END) then 0 else num_files self - 1)
    ∧ (whence = WHENCE_ORIGIN → offset = 0 → current_file_num self' = 0)
    ∧ (whence = WHENCE_CURRENT → offset = 0 → self' = self)
    ∧ (whence = WHENCE_END → 0 < offset → self' = self).
Proof.
  intros HI Hwhence Hfind.
  assert (0 < length datas)%nat as Hn.
  { pose proof (inv_cur _ _ _ HI). unfold len in *. lia. }
  assert (∀ p, ∃ self' ret err log',
            Seek_move fs self p (Seek_clamp self whence seekImpossible) log
            = Done (self', ret, err, log')
            ∧ current_file_num self'
              = if bool_decide (whence = WHENCE_END) then 0 else num_files self - 1)
    as Hmove.
  { intros p. unfold Seek_clamp. rewrite bool_decide_true by done.
    case_bool_decide.
    - destruct (Seek_move_spec fs datas self p 0 log HI Hn)
        as (self' & ret & err & evs & Hm & _ & Hcur & _).
      by exists self', ret, err, (log ++ evs).
    - destruct (Seek_move_spec fs datas self p (length datas - 1) log HI)
        as (self' & ret & err & evs & Hm & _ & Hcur & _); [lia|].
      rewrite (inv_num _ _ _ HI). unfold len.
      replace (Z.of_nat (length datas) - 1) with (Z.of_nat (length datas - 1)) by lia.
      by exists self', ret, err, (log ++ evs). }
  unfold candidate in Hfind. unfold Seek.
  destruct Hwhence as [->|[->| ->]].
  - rewrite !bool_decide_true in * by done.
    destruct (decide (offset = 0)) as [->|Hoff].
    + rewrite bool_decide_true by done. mstep.
      unfold Seek_clamp. rewrite bool_decide_false by done.
      destruct (Seek_move_spec fs datas self 0 0 log HI Hn)
        as (self' & ret & err & evs & Hm & _ & Hcur & _).
      change (Z.of_nat 0) with 0 in Hm, Hcur.
      exists self', ret, err, (log ++ evs).
      split; [done|]. split; [intros [[_ ?]|[[? _]|[? _]]]; done|].
      split; [done|]. split; intros ?; done.
    + rewrite bool_decide_false by done. mstep. rewrite Hfind. cbn.
      destruct (Hmove offset) as (self' & ret & err & log' & Hm & Hcur).
      exists self', ret, err, log'.
      split; [done|]. split; [done|]. split; [done|]. split; intros ?; done.
  - rewrite (bool_decide_false (WHENCE_CURRENT = WHENCE_ORIGIN)) in * by done.
    rewrite (bool_decide_true (WHENCE_CURRENT = WHENCE_CURRENT)) in * by done.
    destruct (decide (offset = 0)) as [->|Hoff].
    + rewrite bool_decide_true by done.
      exists self, (super_pos self), None, log.
      split; [done|]. split; [intros [[? _]|[[_ ?]|[? _]]]; done|].
      split; [intros ?; done|]. split; [done|]. intros ?; done.
    + rewrite bool_decide_false by done. mstep. rewrite Hfind. cbn.
      destruct (Hmove (add64 (super_pos self) offset))
        as (self' & ret & err & log' & Hm & Hcur).
      exists self', ret, err, log'.
      split; [done|]. split; [done|]. split; [intros ?; done|].
      split; [done|]. intros ?; done.
  - rewrite (bool_decide_false (WHENCE_END = WHENCE_ORIGIN)) in * by done.
    rewrite (bool_decide_false (WHENCE_END = WHENCE_CURRENT)) in * by done.
    rewrite (bool_decide_true (WHENCE_END = WHENCE_END)) by done.
    destruct (decide (0 < offset)) as [Hpos|Hneg].
    + rewrite bool_decide_true by done.
      eexists self, _, _, log.
      split; [done|]. split; [intros [[? _]|[[? _]|[_ ?]]]; done || lia|].
      split; [intros ?; done|]. split; [intros ?; done|]. done.
    + rewrite bool_decide_false by done. mstep. rewrite Hfind. cbn.
      destruct (Hmove (add64 (super_size self) offset))
        as (self' & ret & err & log' & Hm & Hcur).
      exists self', ret, err, log'.
      split; [done|]. split; [done|]. split; [intros ?; done|].
      split; [intros ?; done|]. intros _ ?. lia.
Qed.

(** C7 (as amended): when a [Read] asks for more than the current file
    still holds and a later file exists, the handle of the exhausted file
    is closed and the next file is opened before reading goes on. *)
Theorem Read_crossing_closes_exhausted_file self f (b : list byte) log :
  Inv fs datas self → currently_open self = true → Positioned datas self →
  fh self = Some f →
  current_file_num self < len datas - 1 →
  (length (drop (Z.to_nat (f_offset f)) (f_data f)) < length b)%nat →
  ∃ self' buf n err name' evs,
    Read fs self b log
    = Done (self', buf, n, err, log ++ EvClose (f_name f) :: EvOpen name' :: evs)
    ∧ current_file_num self < current_file_num self'.
Proof.
  intros HI Hco HP Hf Hmore Hshort.
  destruct (Read_spec fs datas self b log HI Hco HP)
    as (self' & err & evs & Hread & _ & _ & _ & _ & _ & _ & _ & Hlog).
  destruct (Hlog f Hf Hmore Hshort) as (name' & evs' & -> & Hcur).
  by eexists self', _, _, err, name', evs'.
Qed.

(** C9 (as amended): for a file of length 0 the end offset that [Open]
    records is the start offset minus one, and [findSeekIndex] returns
    its index for no position. *)
Theorem empty_file_is_never_resolved self (j : nat) :
  Inv fs datas self → datas !! j = Some [] →
  ∃ start,
    super_pos_start self !! j = Some start
    ∧ super_pos_end self !! j = Some (start - 1)
    ∧ ∀ p, findSeekIndex self p ≠ Done (Z.of_nat j).
Proof.
  intros HI Hj. apply lookup_lt_Some in Hj as Hlt.
  pose proof (offs_S _ _ _ Hj) as HoS. rewrite len_nil, Z.add_0_r in HoS.
  exists (offs datas j).
  split; [by apply (start_lookup datas self (inv_start _ _ _ HI))|].
  split.
  { rewrite <- HoS. by apply (end_lookup datas self (inv_end _ _ _ HI)). }
  intros p Hp.
  destruct (findSeekIndex_cases datas self (inv_num _ _ _ HI) (inv_start _ _ _ HI)
              (inv_end _ _ _ HI) p) as (r & Hr & [[-> _]|(j' & -> & _ & Hh)]).
  - rewrite Hr in Hp. injection Hp. unfold seekImpossible. lia.
  - rewrite Hr in Hp. injection Hp as Hjj. apply Nat2Z.inj in Hjj. subst j'.
    unfold holds in Hh. lia.
Qed.

End ConcatClaims.

(** * Witnesses and counterexamples *)

Import ConcatFile.

Lemma Seek_start_then_Read_one_byte_witness :
  ∃ self1 log1 self2 log2 y,
    Seek fs3 cf3 4 WHENCE_ORIGIN [] = Done (self1, 4, None, log1)
    ∧ Read fs3 self1 [Byte.x00] log1 = Done (self2, [y], 1, None, log2)
    ∧ concat datas3 !! Z.to_nat 4 = Some y.
Proof.
  apply (Seek_start_then_Read_one_byte fs3 datas3 cf3 4 Byte.x00 []).
  - exact cf3_Inv.
  - reflexivity.
  - vm_compute. split; [discriminate | reflexivity].
Defined.

Lemma Read_spans_files_witness :
  ∃ self' err log',
    Read fs3 cf3 (bytes "......") []
    = Done (self', take 6 (concat datas3) ++ [], 6, err, log')
    ∧ drop 0 (concat datas3)
      = drop 0 (bytes "ABCDE") ++ concat (drop 1 datas3)
    ∧ super_pos self' = 0 + 6
    ∧ Inv fs3 datas3 self' ∧ currently_open self' = true ∧ Positioned datas3 self'
    ∧ (6%nat = 6%nat → err = None)
    ∧ (bytes "......" ≠ [] → 6%nat = 0%nat → err = Some io_EOF).
Proof.
  apply (Read_spans_files fs3 datas3 cf3 (mkFile "a" (bytes "ABCDE") 0 false)
           (bytes "......") []).
  - exact cf3_Inv.
  - reflexivity.
  - exact cf3_Positioned.
  - reflexivity.
Defined.

Lemma Seek_from_end_witness :
  Seek fs3 cf3 1 WHENCE_END []
  = Done (cf3, 0, Some (errors_New "Seek(offset, WHENCE_END); seek must be <= 0"), [])
  ∧ ∃ self' log' (j : nat) f,
      Seek fs3 cf3 (-1) WHENCE_END [] = Done (self', 11, None, log')
      ∧ super_pos self' = 11
      ∧ holds datas3 11 j
      ∧ current_file_num self' = Z.of_nat j
      ∧ fh self' = Some f
      ∧ f_closed f = false
      ∧ datas3 !! j = Some (f_data f)
      ∧ f_offset f = 11 - offs datas3 j
      ∧ currently_open self' = true
      ∧ Inv fs3 datas3 self'
      ∧ Positioned datas3 self'.
Proof.
  destruct (Seek_from_end fs3 datas3 cf3 1 []) as [Hfail Hok].
  - reflexivity.
  - split; [exact Hfail|]. apply Hok.
    + exact cf3_Inv.
    + vm_compute. discriminate.
Defined.

Lemma Seek_clamps_by_origin_witness :
  ∃ self' ret err log',
    Seek fs3 cf3 (-1) WHENCE_ORIGIN [] = Done (self', ret, err, log')
    ∧ ((WHENCE_ORIGIN = WHENCE_ORIGIN ∧ -1 ≠ 0)
       ∨ (WHENCE_ORIGIN = WHENCE_CURRENT ∧ -1 ≠ 0)
       ∨ (WHENCE_ORIGIN = WHENCE_END ∧ -1 ≤ 0) →
       current_file_num self' = 2)
    ∧ (WHENCE_ORIGIN = WHENCE_ORIGIN → -1 = 0 → current_file_num self' = 0)
    ∧ (WHENCE_ORIGIN = WHENCE_CURRENT → -1 = 0 → self' = cf3)
    ∧ (WHENCE_ORIGIN = WHENCE_END → 0 < -1 → self' = cf3).
Proof.
  apply (Seek_clamps_by_origin fs3 datas3 cf3 (-1) WHENCE_ORIGIN []).
  - exact cf3_Inv.
  - left. reflexivity.
  - reflexivity.
Defined.

Lemma Read_crossing_closes_exhausted_file_witness :
  ∃ self' buf n err name' evs,
    Read fs3 cf3_at4 (bytes "...") []
    = Done (self', buf, n, err, [] ++ EvClose "a" :: EvOpen name' :: evs)
    ∧ 0 < current_file_num self'.
Proof.
  apply (Read_crossing_closes_exhausted_file fs3 datas3 cf3_at4
           (mkFile "a" (bytes "ABCDE") 4 false) (bytes "...") []).
  - concrete_Inv.
  - reflexivity.
  - eexists. split; [reflexivity|].
    split; [reflexivity | vm_compute; discriminate].
  - reflexivity.
  - reflexivity.
  - vm_compute. lia.
Defined.

Lemma empty_file_is_never_resolved_witness :
  ∃ start,
    super_pos_start cf_gap !! 1%nat = Some start
    ∧ super_pos_end cf_gap !! 1%nat = Some (start - 1)
    ∧ ∀ p, findSeekIndex cf_gap p ≠ Done 1.
Proof.
  apply (empty_file_is_never_resolved fs_gap datas_gap cf_gap 1).
  - exact cf_gap_Inv.
  - reflexivity.
Defined.

(** The scenario of the three files "ABCDE", "FGH", "IJKL": [Seek(4, start)]
    and a [Read] of 3 bytes give "EFG"; [Seek(-2, end)] gives position 10,
    a [Read] of 5 bytes gives the 2 bytes "KL", and the next [Read] gives
    nothing and end of stream. *)
Example scenario_5_3_4 :
  ∃ s1 l1 s2 l2 s3 l3 s4 l4 s5 l5,
    Seek fs3 cf3 4 WHENCE_ORIGIN [] = Done (s1, 4, None, l1)
    ∧ Read fs3 s1 (bytes "...") l1 = Done (s2, bytes "EFG", 3, None, l2)
    ∧ Seek fs3 s2 (-2) WHENCE_END l2 = Done (s3, 10, None, l3)
    ∧ Read fs3 s3 (bytes ".....") l3 = Done (s4, bytes "KL...", 2, None, l4)
    ∧ Read fs3 s4 (bytes ".....") l4 = Done (s5, bytes ".....", 0, Some io_EOF, l5).
Proof.
  do 10 eexists.
  split; [vm_compute; reflexivity|]. split; [vm_compute; reflexivity|].
  split; [vm_compute; reflexivity|]. split; [vm_compute; reflexivity|].
  vm_compute; reflexivity.
Qed.

(** C6 (as stated, refuted): on the three files of sizes 5, 3, 4,
    [Seek(-1, start)] has a negative candidate that no file holds and
    moves to the last file (index 2), not the first; [Seek(0, end)] has
    the candidate 12, beyond the last byte, and stays on the first file
    (index 0), not the last. *)
Lemma Seek_clamp_ignores_the_sign :
  (candidate cf3 (-1) WHENCE_ORIGIN < 0
   ∧ findSeekIndex cf3 (candidate cf3 (-1) WHENCE_ORIGIN) = Done seekImpossible
   ∧ ∃ self' ret err log',
       Seek fs3 cf3 (-1) WHENCE_ORIGIN [] = Done (self', ret, err, log')
       ∧ current_file_num self' = 2 ∧ current_file_num self' ≠ 0)
  ∧ (super_size cf3 ≤ candidate cf3 0 WHENCE_END
     ∧ findSeekIndex cf3 (candidate cf3 0 WHENCE_END) = Done seekImpossible
     ∧ ∃ self' ret err log',
         Seek fs3 cf3 0 WHENCE_END [] = Done (self', ret, err, log')
         ∧ current_file_num self' = 0
         ∧ current_file_num self' ≠ num_files cf3 - 1).
Proof.
  split.
  - split; [reflexivity|]. split; [reflexivity|].
    eexists _, _, _, _. split; [vm_compute; reflexivity|].
    split; [reflexivity | discriminate].
  - split; [vm_compute; discriminate|]. split; [reflexivity|].
    eexists _, _, _, _. split; [vm_compute; reflexivity|].
    split; [reflexivity | discriminate].
Qed.

(** On two empty files no file holds position 0, and [Seek(0, start)]
    from the last file goes to the first file all the same: it makes no
    lookup. *)
Example Seek_zero_start_makes_no_lookup :
  findSeekIndex cf_void (candidate cf_void 0 WHENCE_ORIGIN) = Done seekImpossible
  ∧ current_file_num cf_void = num_files cf_void - 1
  ∧ ∃ self' log',
      Seek fs_void cf_void 0 WHENCE_ORIGIN [] = Done (self', 0, None, log')
      ∧ current_file_num self' = 0.
Proof.
  split; [reflexivity|]. split; [reflexivity|].
  eexists _, _. split; [vm_compute; reflexivity | reflexivity].
Qed.

(** C7 (as stated, refuted): the stream stands at position 4 of the three
    files; a [Read] of three bytes returns "EFG" and, while crossing from
    file "a" to file "b", closes the handle of "a". *)
Lemma Read_closes_the_exhausted_file :
  opened fs3 names3 = Some cf3
  ∧ Seek fs3 cf3 4 WHENCE_ORIGIN [] = Done (cf3_at4, 4, None, [])
  ∧ ∃ self',
      Read fs3 cf3_at4 (bytes "...") []
      = Done (self', bytes "EFG", 3, None, [EvClose "a"; EvOpen "b"])
      ∧ EvClose "a" ∈ [EvClose "a"; EvOpen "b"].
Proof.
  split; [vm_compute; reflexivity|]. split; [vm_compute; reflexivity|].
  eexists. split; [vm_compute; reflexivity | apply list_elem_of_here].
Qed.

(** C9 (as stated, refuted): with an empty file between "ABC" and "DE",
    [Open] records start 3 and end 2 for it, and [Initialize] on the same
    three sources records start 4 and end 0: the two offsets differ. *)
Lemma empty_file_offsets_differ :
  datas_gap !! 1%nat = Some []
  ∧ opened fs_gap names3 = Some cf_gap
  ∧ super_pos_start cf_gap !! 1%nat = Some 3
  ∧ super_pos_end cf_gap !! 1%nat = Some 2
  ∧ super_pos_start cf_gap !! 1%nat ≠ super_pos_end cf_gap !! 1%nat
  ∧ ∃ cs, MultiReadSeeker.New
            [openFile "a" "ABC"; openFile "b" ""; openFile "c" "DE"]
          = Done (Some (MultiReadSeeker.mk cs [0; 4; 1] [3; 0; 2] 0 0), None).
Proof.
  split; [reflexivity|]. split; [vm_compute; reflexivity|].
  split; [reflexivity|]. split; [reflexivity|]. split; [discriminate|].
  eexists. vm_compute. reflexivity.
Qed.

Lemma Initialize_end_offset_is_size_witness :
  ∃ cs starts ends,
    MultiReadSeeker.New
      [openFile "a" "ABCDE"; openFile "b" "FGH"; openFile "c" "IJKL"]
    = Done (Some (MultiReadSeeker.mk cs starts ends 0 0), None)
    ∧ ends = [5; 3; 4]
    ∧ starts = [0; 6; 4]
    ∧ starts !! 0%nat = Some 0.
Proof.
  destruct (Initialize_end_offset_is_size
              [openFile "a" "ABCDE"; openFile "b" "FGH"; openFile "c" "IJKL"])
    as (cs & starts & ends & Hnew & -> & -> & H0).
  - discriminate.
  - repeat constructor.
  - exists cs, [0; 6; 4], [5; 3; 4]. split; [exact Hnew|]. repeat split.
Defined.

(** The struct comment's own example, a file of one byte: start 0, end 1. *)
Example Initialize_one_byte_file :
  ∃ cs, MultiReadSeeker.New [openFile "a" "A"]
        = Done (Some (MultiReadSeeker.mk cs [0] [1] 0 0), None).
Proof. eexists. vm_compute. reflexivity. Qed.

(** * Further properties of the compiled implementation *)

Section InitializeMore.
Context {T : Type} `{!ReadCloseSeeker T}.
Import MultiReadSeeker.

Lemma seeks_ok_error (c : T) i : seeks_ok c ↔ seek_error i c = None.
Proof.
  unfold seeks_ok, seek_error.
  destruct (seek_end c).2; [split; [intros [? _]|]; done|].
  destruct (rcs_Seek (seek_end c).1.1 0 WHENCE_START).2; split; try done.
  by intros [_ ?].
Qed.

(** One pass of the loop of [Initialize] over a child whose seeks succeed. *)
Lemma Initialize_loop_step (c : T) (rest pre : list T) k p :
  seeks_ok c →
  Initialize_loop (len pre) (c :: rest) (init_state pre (S (length rest)) k p)
  = Initialize_loop (len (pre ++ [c])) rest (init_state (pre ++ [c]) (length rest) k p).
Proof.
  intros [He Hs]. unfold init_state.
  cbn [Initialize_loop length replicate].
  assert (size_of c = (rcs_Seek c 0 WHENCE_END).1.2) as Hsz by done.
  assert (rewound c = (rcs_Seek (rcs_Seek c 0 WHENCE_END).1.1 0 WHENCE_START).1.1)
    as Hrw by done.
  unfold seek_end in He, Hs.
  destruct (rcs_Seek c 0 WHENCE_END) as [[c1 endPos] err1].
  cbn in He, Hs, Hsz, Hrw. subst err1.
  destruct (rcs_Seek c1 0 WHENCE_START) as [[c2 pos2] err2].
  cbn in Hs, Hrw. subst err2.
  unfold set_child, set_superPosEnd, set_superPosStart.
  cbn [children superPosStart superPosEnd currentSeekerNum currentSuperPos].
  rewrite slice_set_middle by (unfold len; by rewrite !length_fmap).
  cbn [mbind run_bind mret run_ret children superPosStart superPosEnd
       currentSeekerNum currentSuperPos].
  rewrite slice_set_middle by (unfold len; by rewrite !length_fmap).
  cbn [mbind run_bind mret run_ret children superPosStart superPosEnd
       currentSeekerNum currentSuperPos].
  replace (len (pre ++ [c])) with (len pre + 1)
    by (unfold len; rewrite length_app; cbn; lia).
  rewrite !fmap_app.
  change (size_of <$> [c]) with [size_of c].
  change (rewound <$> [c]) with [rewound c].
  change (Some <$> [rewound c]) with [Some (rewound c)].
  rewrite starts_after_snoc, Hsz, Hrw, <- !app_assoc. cbn [app].
  destruct pre as [|c' pre _] using rev_ind.
  - cbn. done.
  - rewrite bool_decide_true by (unfold len; rewrite length_app; cbn; lia).
    rewrite !fmap_app. change (size_of <$> [c']) with [size_of c'].
    rewrite last_snoc.
    rewrite slice_get_snoc
      by (unfold len; rewrite length_app, length_fmap; cbn; lia).
    cbn [mbind run_bind].
    rewrite slice_set_middle
      by (unfold len; rewrite length_starts_after, !length_app, length_fmap; done).
    cbn [mbind run_bind mret run_ret children superPosStart superPosEnd
         currentSeekerNum currentSuperPos].
    rewrite slice_set_middle
      by (unfold len; rewrite !length_app, !length_fmap; done).
    cbn [mbind run_bind mret run_ret]. reflexivity.
Qed.

(** The loop over children whose seeks all succeed, followed by more. *)
Lemma Initialize_loop_prefix (mid : list T) : ∀ (pre tail : list T) k p,
  Forall seeks_ok mid →
  Initialize_loop (len pre) (mid ++ tail) (init_state pre (length (mid ++ tail)) k p)
  = Initialize_loop (len (pre ++ mid)) tail (init_state (pre ++ mid) (length tail) k p).
Proof.
  induction mid as [|c mid IH]; intros pre tail k p Hok.
  - by rewrite app_nil_r.
  - inversion Hok as [|? ? Hc Hmid]; subst.
    cbn [app length]. rewrite Initialize_loop_step by done.
    rewrite IH by done. by rewrite <- app_assoc.
Qed.

(** The pass of the loop over a child one of whose seeks fails. *)
Lemma Initialize_loop_fails (c : T) (rest pre : list T) k p err :
  seek_error (len pre) c = Some err →
  ∃ c' starts ends,
    Initialize_loop (len pre) (c :: rest) (init_state pre (S (length rest)) k p)
    = Done (mk ((Some <$> (rewound <$> pre)) ++ Some c' :: replicate (length rest) None)
               starts ends k p, Some err).
Proof.
  unfold seek_error, seek_end, init_state. intros Herr.
  cbn [Initialize_loop length replicate].
  destruct (rcs_Seek c 0 WHENCE_END) as [[c1 endPos] [e1|]]; cbn in Herr.
  - injection Herr as <-. unfold set_child.
    cbn [children superPosStart superPosEnd currentSeekerNum currentSuperPos].
    rewrite slice_set_middle by (unfold len; by rewrite !length_fmap).
    by eexists _, _, _.
  - destruct (rcs_Seek c1 0 WHENCE_START) as [[c2 pos2] [e2|]]; cbn in Herr; [|done].
    injection Herr as <-.
    unfold set_child, set_superPosEnd, set_superPosStart.
    cbn [children superPosStart superPosEnd currentSeekerNum currentSuperPos].
    rewrite slice_set_middle by (unfold len; by rewrite !length_fmap).
    cbn [mbind run_bind mret run_ret children superPosStart superPosEnd
         currentSeekerNum currentSuperPos].
    rewrite slice_set_middle by (unfold len; by rewrite !length_fmap).
    cbn [mbind run_bind mret run_ret children superPosStart superPosEnd
         currentSeekerNum currentSuperPos].
    destruct pre as [|c' pre _] using rev_ind.
    + cbn. by eexists _, _, _.
    + rewrite bool_decide_true by (unfold len; rewrite length_app; cbn; lia).
      rewrite !fmap_app. change (size_of <$> [c']) with [size_of c'].
      rewrite slice_get_snoc
        by (unfold len; rewrite length_app, length_fmap; cbn; lia).
      cbn [mbind run_bind].
      rewrite slice_set_middle
        by (unfold len; rewrite length_starts_after, !length_app, length_fmap; done).
      cbn [mbind run_bind mret run_ret children superPosStart superPosEnd
           currentSeekerNum currentSuperPos].
      rewrite slice_set_middle
        by (unfold len; rewrite !length_app, !length_fmap; done).
      cbn [mbind run_bind mret run_ret]. by eexists _, _, _.
Qed.

(** [Initialize] on a new stream, up to the first child that remains. *)
Lemma Initialize_run (mid tail : list T) :
  mid ++ tail ≠ [] → Forall seeks_ok mid →
  Initialize zero (mid ++ tail)
  = Initialize_loop (len mid) tail (init_state mid (length tail) 0 0).
Proof.
  intros Hne Hok. unfold Initialize. cbn [children zero].
  rewrite bool_decide_false by (unfold len; cbn; lia).
  rewrite bool_decide_false
    by (destruct (mid ++ tail); [done | unfold len; cbn; lia]).
  unfold make, len at 1 2 3. rewrite Nat2Z.id.
  apply (Initialize_loop_prefix mid [] tail 0 0 Hok).
Qed.

(** X2: when the two seeks of the children before some child succeed and
    one of the two seeks of that child fails, [New] returns no stream and
    that failure, wrapped with the seek that failed and the child it
    failed on, whatever children come after it. *)
Theorem New_reports_the_first_failing_seek (pre : list T) (c : T) (rest : list T) err :
  Forall seeks_ok pre → seek_error (len pre) c = Some err →
  New (pre ++ c :: rest) = Done (None, Some err).
Proof.
  intros Hpre Herr. unfold New.
  rewrite Initialize_run by (done || by destruct pre).
  cbn [length].
  destruct (Initialize_loop_fails c rest pre 0 0 err Herr) as (c' & starts & ends & ->).
  done.
Qed.

Lemma Close_loop_nil_slot (cs : list T) (l : list (option T)) : ∀ i errs,
  Close_loop i ((Some <$> cs) ++ None :: l) errs
  = Panicked "invalid memory address or nil pointer dereference".
Proof.
  induction cs as [|c cs IH]; intros i errs; [done|].
  cbn. destruct (rcs_Close c) as [c' e]. by rewrite IH.
Qed.

Lemma Close_loop_nil_after (cs : list T) (c : T) (l : list (option T)) i errs :
  Close_loop i ((Some <$> cs) ++ Some c :: None :: l) errs
  = Panicked "invalid memory address or nil pointer dereference".
Proof.
  replace ((Some <$> cs) ++ Some c :: None :: l)
    with ((Some <$> (cs ++ [c])) ++ None :: l)
    by (by rewrite fmap_app, <- app_assoc).
  apply Close_loop_nil_slot.
Qed.

(** X5: when [Initialize] fails on a child that is not the last, the slots
    of the children after it are still nil, and [Close] on that stream
    panics on the first of them. *)
Theorem Close_after_failed_Initialize_panics (pre : list T) (c : T) (rest : list T) err :
  Forall seeks_ok pre → seek_error (len pre) c = Some err → rest ≠ [] →
  ∃ self,
    Initialize zero (pre ++ c :: rest) = Done (self, Some err)
    ∧ Close self = Panicked "invalid memory address or nil pointer dereference".
Proof.
  intros Hpre Herr Hrest.
  rewrite Initialize_run by (done || by destruct pre).
  cbn [length].
  destruct (Initialize_loop_fails c rest pre 0 0 err Herr) as (c' & starts & ends & ->).
  eexists. split; [reflexivity|]. unfold Close. cbn [children].
  destruct rest as [|r rest]; [done|]. cbn [length replicate].
  by rewrite Close_loop_nil_after.
Qed.

(** X3: a stream that [New] returned is initialized once and for all:
    [Initialize] on it panics, whatever children it is given. *)
Theorem Initialize_twice_panics (cs args : list T) :
  cs ≠ [] → Forall seeks_ok cs →
  ∃ self,
    New cs = Done (Some self, None)
    ∧ Initialize self args = Panicked "MultiReadSeeker already initialized".
Proof.
  intros Hne Hok. unfold New. rewrite (Initialize_spec cs Hne Hok). cbn.
  eexists. split; [reflexivity|]. unfold Initialize. cbn [children].
  rewrite bool_decide_true; [done|].
  unfold len. rewrite !length_fmap. destruct cs; [done | cbn; lia].
Qed.

End InitializeMore.

(** X1: on open files, whatever their offsets, [New] leaves every file
    open at offset 0, keeps the files in the order given, and returns a
    stream at source 0 and position 0. *)
Theorem New_rewinds_every_file (files : list File) :
  files ≠ [] → Forall (λ f, f_closed f = false) files →
  ∃ starts ends,
    MultiReadSeeker.New files
    = Done (Some (MultiReadSeeker.mk (Some <$> (rewind <$> files)) starts ends 0 0),
            None).
Proof.
  intros Hne Hopen.
  assert (Forall seeks_ok files) as Hok.
  { eapply Forall_impl; [exact Hopen|]. intros f Hf. by apply File_seeks. }
  assert (rewound <$> files = rewind <$> files) as Hrw.
  { apply Forall_fmap_ext. eapply Forall_impl; [exact Hopen|].
    intros f Hf. by apply File_seeks. }
  unfold MultiReadSeeker.New. rewrite (Initialize_spec files Hne Hok). cbn.
  rewrite Hrw. by eexists _, _.
Qed.

(** X4: [New] on open files followed by [Close] returns no error and
    leaves every file closed. *)
Theorem New_then_Close_on_open_files (files : list File) :
  files ≠ [] → Forall (λ f, f_closed f = false) files →
  ∃ self self',
    MultiReadSeeker.New files = Done (Some self, None)
    ∧ MultiReadSeeker.Close self = Done (self', None)
    ∧ MultiReadSeeker.children self' = Some <$> (shut <$> (rewind <$> files)).
Proof.
  intros Hne Hopen.
  assert (Forall seeks_ok files) as Hok.
  { eapply Forall_impl; [exact Hopen|]. intros f Hf. by apply File_seeks. }
  assert (rewound <$> files = rewind <$> files) as Hrw.
  { apply Forall_fmap_ext. eapply Forall_impl; [exact Hopen|].
    intros f Hf. by apply File_seeks. }
  unfold MultiReadSeeker.New. rewrite (Initialize_spec files Hne Hok). cbn.
  rewrite Hrw. eexists _, _. split; [reflexivity|].
  rewrite Close_spec.
  assert (close_failures 0 (rewind <$> files) = []) as ->.
  { apply close_failures_nil. apply Forall_fmap. by apply Forall_true. }
  split; [reflexivity|]. cbn. f_equal.
  rewrite <- !list_fmap_compose. by apply list_fmap_ext.
Qed.

(** * Further properties of [ConcatFile] *)

(** ** [Open] *)

Lemma stat_events_snoc names name :
  stat_events (names ++ [name]) = stat_events names ++ [EvOpen name; EvClose name].
Proof. unfold stat_events. by rewrite fmap_app, concat_app. Qed.

Section OpenMore.
Import ConcatFile.
Variable fs : gmap string (list byte).
Variable names : list string.

(** [k] passes of the loop of [Open] over files that exist. *)
Lemma Open_loop_run : ∀ k i co nf cur h sp ss starts ends log,
  (i + k ≤ length names)%nat →
  length starts = length names → length ends = length names →
  Forall (λ name, is_Some (fs !! name)) (take k (drop i names)) →
  ∃ starts' ends',
    length starts' = length names ∧ length ends' = length names
    ∧ ∀ m, Open_loop fs (k + m) (Z.of_nat i) names
             (mk co names nf cur h sp ss starts ends) log
           = Open_loop fs m (Z.of_nat (i + k)) names
               (mk co names nf cur h sp ss starts' ends')
               (log ++ stat_events (take k (drop i names))).
Proof.
  induction k as [|k IH]; intros i co nf cur h sp ss starts ends log Hik Hls Hle Hex.
  - exists starts, ends. split; [done|]. split; [done|]. intros m.
    rewrite take_0, Nat.add_0_r. unfold stat_events. cbn. by rewrite app_nil_r.
  - destruct (lookup_lt_is_Some_2 names i) as [name Hname]; [lia|].
    rewrite (drop_S _ _ _ Hname) in Hex |- *. cbn [take] in Hex |- *.
    inversion Hex as [|? ? [data Hfs] Hex']; subst.
    assert (∃ starts1 v,
      length starts1 = length names ∧ starts1 !! i = Some v
      ∧ ∀ l, (if bool_decide (0 < Z.of_nat i) then
                prev ← lift (slice_get ends (Z.of_nat i - 1));
                l ← lift (slice_set starts (Z.of_nat i) (add64 prev 1));
                mret (set_super_pos_start l (mk co names nf cur h sp ss starts ends))
              else mret (mk co names nf cur h sp ss starts ends)) l
             = Done (mk co names nf cur h sp ss starts1 ends, l))
      as (starts1 & v & Hls1 & Hv & Hblk).
    { case_bool_decide as Hpos.
      - destruct (lookup_lt_is_Some_2 ends (i - 1)) as [prev Hprev]; [lia|].
        exists (<[i := add64 prev 1]> starts), (add64 prev 1).
        split; [by rewrite length_insert|].
        split; [apply list_lookup_insert_eq; lia|]. intros l. mstep.
        rewrite (slice_get_Some ends (Z.of_nat i - 1) prev);
          [|lia|by replace (Z.to_nat (Z.of_nat i - 1)) with (i - 1)%nat by lia].
        rewrite slice_set_Done by (unfold len; lia). cbn. by rewrite Nat2Z.id.
      - destruct (lookup_lt_is_Some_2 starts i) as [v Hv]; [lia|].
        exists starts, v. by repeat split. }
    destruct (IH (S i) co nf cur h sp ss starts1
                 (<[i := sub64 (add64 v (len data)) 1]> ends)
                 ((log ++ [EvOpen name]) ++ [EvClose name]))
      as (starts' & ends' & Hls' & Hle' & Hrun); [lia|done|by rewrite length_insert|done|].
    exists starts', ends'. split; [done|]. split; [done|]. intros m.
    cbn [Nat.add Open_loop]. mstep.
    rewrite (slice_get_Some names (Z.of_nat i) name) by (rewrite ?Nat2Z.id; done || lia).
    rewrite (os_Open_ok _ _ _ _ Hfs). mstep.
    rewrite Hblk. mstep.
    rewrite (slice_get_Some starts1 (Z.of_nat i) v) by (rewrite ?Nat2Z.id; done || lia).
    rewrite slice_set_Done by (unfold len; lia). cbn.
    rewrite Nat2Z.id.
    replace (Z.of_nat i + 1) with (Z.of_nat (S i)) by lia.
    rewrite Hrun. f_equal; [f_equal; lia|].
    unfold stat_events. cbn. by rewrite <- !app_assoc.
Qed.

End OpenMore.

Section OpenResults.
Import ConcatFile.
Variable fs : gmap string (list byte).

(** X6: [Open] stops at the first name that is not a file and returns no
    stream and the error of the failed open; every file it opened before
    that was closed again, so no handle is left open. *)
Theorem Open_reports_the_first_missing_file (pre rest : list string) name log :
  Forall (λ n, is_Some (fs !! n)) pre → fs !! name = None →
  Open fs (pre ++ name :: rest) log
  = Done (None, Some (os_ErrNotExist name), log ++ stat_events pre).
Proof.
  intros Hpre Hname. set (names := pre ++ name :: rest).
  assert (length names = (length pre + S (length rest))%nat) as Hlen.
  { unfold names. rewrite length_app. done. }
  unfold Open. rewrite bool_decide_false by (unfold len; lia).
  mstep. unfold make.
  rewrite slice_set_Done by (unfold len; rewrite length_replicate; lia). cbn.
  unfold set_super_pos_start at 1; cbn.
  replace (Z.to_nat (len names)) with (length pre + S (length rest))%nat
    by (unfold len; lia).
  destruct (Open_loop_run fs names (length pre) 0 false (len names) 0 None 0 0
              (<[0%nat:=0]> (replicate (length pre + S (length rest)) 0))
              (replicate (length pre + S (length rest)) 0) log)
    as (starts' & ends' & Hls & Hle & Hrun).
  { lia. } { rewrite length_insert, length_replicate. lia. }
  { rewrite length_replicate. lia. }
  { unfold names. by rewrite drop_0, take_app_length. }
  change (Z.to_nat 0) with 0%nat. change (Z.of_nat 0) with 0 in Hrun.
  rewrite Hrun. cbn [Nat.add Open_loop]. mstep.
  rewrite (slice_get_Some names (Z.of_nat (length pre)) name);
    [|lia|rewrite Nat2Z.id; by apply list_lookup_middle].
  unfold os_Open. rewrite Hname. cbn.
  unfold names. by rewrite drop_0, take_app_length.
Qed.

Lemma Open_log (names : list string) name0 log :
  names !! 0%nat = Some name0 → Forall (λ n, is_Some (fs !! n)) names →
  ∃ self data,
    fs !! name0 = Some data
    ∧ Open fs names log
      = Done (Some self, None, log ++ stat_events names ++ [EvOpen name0])
    ∧ filenames self = names
    ∧ num_files self = len names
    ∧ current_file_num self = 0
    ∧ fh self = Some (mkFile name0 data 0 false)
    ∧ super_pos self = 0
    ∧ currently_open self = true.
Proof.
  intros H0 Hex. apply lookup_lt_Some in H0 as Hpos.
  unfold Open. rewrite bool_decide_false by (unfold len; lia).
  mstep. unfold make.
  rewrite slice_set_Done by (unfold len; rewrite length_replicate; lia). cbn.
  unfold set_super_pos_start at 1; cbn.
  replace (Z.to_nat (len names)) with (length names + 0)%nat by (unfold len; lia).
  destruct (Open_loop_run fs names (length names) 0 false (len names) 0 None 0 0
              (<[0%nat:=0]> (replicate (length names + 0) 0))
              (replicate (length names + 0) 0) log)
    as (starts' & ends' & Hls & Hle & Hrun).
  { lia. } { rewrite length_insert, length_replicate. lia. }
  { rewrite length_replicate. lia. }
  { by rewrite drop_0, firstn_all. }
  change (Z.to_nat 0) with 0%nat. change (Z.of_nat 0) with 0 in Hrun.
  rewrite Hrun. cbn [Open_loop]. cbn.
  destruct (lookup_lt_is_Some_2 ends' (length names - 1)) as [last Hlast]; [lia|].
  rewrite (slice_get_Some ends' (len names - 1) last);
    [|unfold len; lia
     |by replace (Z.to_nat (len names - 1)) with (length names - 1)%nat
        by (unfold len; lia)].
  cbn. rewrite (slice_get_Some names 0 name0) by done. cbn.
  destruct (Forall_lookup_1 _ _ _ _ Hex H0) as [data Hfs].
  rewrite (os_Open_ok _ _ _ _ Hfs). cbn.
  rewrite drop_0, firstn_all, <- app_assoc.
  eexists _, data. split; [done|]. split; [reflexivity|]. by cbn.
Qed.

(** X7: [Open] on files that exist returns a stream at position 0 on the
    first file, whose size is the sum of the sizes of the files; it has
    opened and closed every file once, in order, and then opened the first
    file, whose handle is the only one it leaves open. *)
Theorem Open_opens_the_first_file
    (names : list string) (datas : list (list byte)) name0 data0 log :
  Forall2 (λ name data, fs !! name = Some data) names datas →
  len (concat datas) ≤ MaxInt64 →
  names !! 0%nat = Some name0 → datas !! 0%nat = Some data0 →
  ∃ self,
    Open fs names log
    = Done (Some self, None, log ++ stat_events names ++ [EvOpen name0])
    ∧ Tell self = 0
    ∧ Size self = foldr Z.add 0 (len <$> datas)
    ∧ current_file_num self = 0
    ∧ fh self = Some (mkFile name0 data0 0 false)
    ∧ currently_open self = true.
Proof.
  intros Hnames Hbound Hn0 Hd0.
  assert (datas ≠ []) as Hne by (by destruct datas).
  destruct (Open_table fs names datas Hnames Hbound log Hne)
    as (self & log' & Hopen & _ & _ & Hsize).
  destruct (Open_log names name0 log Hn0)
    as (self3 & data & Hfs & Hopen3 & _ & _ & Hcur & Hfh & Hsp & Hco).
  { apply Forall_forall. intros name Hin.
    apply list_elem_of_lookup in Hin as [j Hj].
    destruct (Forall2_lookup_l _ _ _ _ _ Hnames Hj) as (d & _ & Hd). by eexists. }
  rewrite Hopen in Hopen3. injection Hopen3 as <- ->.
  destruct (Forall2_lookup_l _ _ _ _ _ Hnames Hn0) as (d & Hd & Hfs').
  assert (data = data0) as -> by congruence.
  by exists self.
Qed.

End OpenResults.

(** ** [Read] *)

Section ReadMore.
Import ConcatFile.
Variable fs : gmap string (list byte).
Variable datas : list (list byte).

Lemma Positioned_bounds self :
  Inv fs datas self → Positioned datas self →
  0 ≤ super_pos self ≤ len (concat datas).
Proof.
  intros HI (f & Hf & Hsp & Hq).
  destruct (inv_fh _ _ _ HI) as (f' & Hf' & _ & Hq0 & _ & Hfd).
  rewrite Hf in Hf'. injection Hf' as <-.
  pose proof (offs_nonneg datas (Z.to_nat (current_file_num self))).
  pose proof (offs_S _ _ _ Hfd).
  pose proof (offs_le_total datas (S (Z.to_nat (current_file_num self)))).
  lia.
Qed.

(** X8: [Open] followed by one [Read] returns the contents of the files,
    one after the other, as far as the buffer reaches, and [Tell] is then
    the number of bytes read. *)
Theorem Open_then_Read_returns_the_files (names : list string) (b : list byte) log :
  Forall2 (λ name data, fs !! name = Some data) names datas →
  len (concat datas) ≤ MaxInt64 → datas ≠ [] →
  let n := (length b `min` length (concat datas))%nat in
  ∃ self log1 self' err log2,
    Open fs names log = Done (Some self, None, log1)
    ∧ Read fs self b log1
      = Done (self', take n (concat datas) ++ drop n b, Z.of_nat n, err, log2)
    ∧ Tell self' = Z.of_nat n.
Proof.
  intros Hnames Hbound Hne n.
  destruct (Open_spec fs names datas Hnames Hbound log Hne)
    as (self & log1 & Hopen & HI & Hco & HP & Hsp & _).
  destruct (Read_spec fs datas self b log1 HI Hco HP)
    as (self' & err & evs & Hread & _ & _ & _ & Hsp' & _).
  rewrite Hsp in Hread, Hsp'. cbn in Hread, Hsp'.
  exists self, log1, self', err, (log1 ++ evs). by repeat split.
Qed.

(** X9: two [Read]s in a row deliver the bytes that one [Read] into the two
    buffers joined delivers, and move the cursor as far. *)
Theorem Reads_in_a_row_are_one_Read self (b1 b2 : list byte) log :
  Inv fs datas self → currently_open self = true → Positioned datas self →
  ∃ self1 buf1 n1 e1 log1 self2 buf2 n2 e2 log2 self12 buf12 e12 log12,
    Read fs self b1 log = Done (self1, buf1, Z.of_nat n1, e1, log1)
    ∧ Read fs self1 b2 log1 = Done (self2, buf2, Z.of_nat n2, e2, log2)
    ∧ Read fs self (b1 ++ b2) log
      = Done (self12, buf12, Z.of_nat (n1 + n2), e12, log12)
    ∧ take (n1 + n2) buf12 = take n1 buf1 ++ take n2 buf2
    ∧ Tell self2 = Tell self12
    ∧ Tell self2 = Tell self + Z.of_nat (n1 + n2).
Proof.
  intros HI Hco HP.
  pose proof (Positioned_bounds self HI HP) as Hb.
  destruct (Read_spec fs datas self b1 log HI Hco HP)
    as (self1 & e1 & evs1 & Hr1 & HI1 & Hco1 & HP1 & Hsp1 & _).
  destruct (Read_spec fs datas self1 b2 (log ++ evs1) HI1 Hco1 HP1)
    as (self2 & e2 & evs2 & Hr2 & _ & _ & _ & Hsp2 & _).
  destruct (Read_spec fs datas self (b1 ++ b2) log HI Hco HP)
    as (self12 & e12 & evs12 & Hr12 & _ & _ & _ & Hsp12 & _).
  set (rest := drop (Z.to_nat (super_pos self)) (concat datas)) in *.
  set (n1 := (length b1 `min` length rest)%nat) in *.
  assert (drop (Z.to_nat (super_pos self1)) (concat datas) = drop n1 rest) as Hrest1.
  { rewrite Hsp1. unfold rest. rewrite drop_drop. f_equal. lia. }
  rewrite Hrest1 in Hr2, Hsp2. rewrite length_drop in Hr2, Hsp2.
  set (n2 := (length b2 `min` (length rest - n1))%nat) in *.
  assert ((length (b1 ++ b2) `min` length rest)%nat = (n1 + n2)%nat) as Hn12.
  { rewrite length_app. unfold n1, n2. lia. }
  rewrite Hn12 in Hr12, Hsp12.
  eexists self1, _, n1, e1, _, self2, _, n2, e2, _, self12, _, e12, _.
  split; [exact Hr1|]. split; [exact Hr2|]. split; [exact Hr12|].
  split.
  - rewrite !take_app_length'
      by (rewrite length_take, ?length_drop; unfold n1, n2; lia).
    by rewrite take_take_drop.
  - unfold Tell. split; lia.
Qed.

End ReadMore.

(** ** [Close] *)

Section CloseMore.
Import ConcatFile.
Variable fs : gmap string (list byte).
Variable datas : list (list byte).

(** X11: [Close] closes the handle of the current file and marks the
    stream closed.  After it another [Close] does nothing and returns no
    error, a [Read] returns no byte and [io.ErrUnexpectedEOF] and leaves
    the buffer as it was, and a [Seek] from the start to any position fails
    on the closed handle; none of them opens or closes a handle. *)
Theorem Close_ends_the_stream self f log :
  Inv fs datas self → currently_open self = true → fh self = Some f →
  ∃ self1,
    Close self log = Done (self1, None, log ++ [EvClose (f_name f)])
    ∧ currently_open self1 = false
    ∧ fh self1 = Some (shut f)
    ∧ (∀ log1, Close self1 log1 = Done (self1, None, log1))
    ∧ (∀ b log1,
         Read fs self1 b log1 = Done (self1, b, 0, Some io_ErrUnexpectedEOF, log1))
    ∧ (∀ p log1, ∃ self2 ret,
         Seek fs self1 p WHENCE_ORIGIN log1 = Done (self2, ret, Some os_ErrClosed, log1)).
Proof.
  intros HI Hco Hf.
  destruct (inv_fh _ _ _ HI) as (f' & Hf' & Hcl & Hq & Hfn & Hfd).
  rewrite Hf in Hf'. injection Hf' as <-.
  exists (set_fh (Some (shut f)) (set_currently_open false self)).
  split.
  { unfold Close. rewrite Hco. mstep. rewrite Hf. unfold fh_Close, File_Close.
    rewrite Hcl. by mstep. }
  split; [done|]. split; [done|]. split; [done|]. split.
  { intros b log1. unfold Read.
    match goal with |- Read_rec _ ?fuel _ _ _ = _ => destruct fuel end; reflexivity. }
  intros p log1.
  set (self1 := set_fh (Some (shut f)) (set_currently_open false self)).
  assert (0 < length datas)%nat as Hn.
  { pose proof (inv_cur _ _ _ HI). unfold len in *. lia. }
  assert (∀ j, (j < length datas)%nat →
            ∃ self2 ret,
              Seek_move fs self1 p (Z.of_nat j) log1
              = Done (self2, ret, Some os_ErrClosed, log1)) as Hmove.
  { intros j Hj. unfold Seek_move, Seek_switch. mstep.
    case_bool_decide as Hchg; cbn.
    - by eexists _, _.
    - rewrite (start_get datas self (inv_start _ _ _ HI) j Hj). cbn.
      by eexists _, _. }
  unfold Seek. rewrite bool_decide_true by done.
  unfold Seek_clamp. destruct (decide (p = 0)) as [->|Hp0].
  - rewrite (bool_decide_true (0 = 0)) by done.
    mstep. rewrite bool_decide_false by done. apply (Hmove 0%nat Hn).
  - rewrite (bool_decide_false (p = 0)) by done.
    destruct (findSeekIndex_cases datas self1 (inv_num _ _ _ HI) (inv_start _ _ _ HI)
                (inv_end _ _ _ HI) p) as (r & Hr & Hcases).
    mstep. rewrite Hr. cbn.
    destruct Hcases as [[-> _]|(j & -> & Hj & _)].
    + rewrite bool_decide_true by done. rewrite bool_decide_false by done.
      rewrite (inv_num _ _ _ HI). unfold len.
      replace (Z.of_nat (length datas) - 1) with (Z.of_nat (length datas - 1)) by lia.
      apply Hmove. lia.
    + rewrite bool_decide_false by (unfold seekImpossible; lia). by apply Hmove.
Qed.

End CloseMore.

(** ** What no operation changes *)

Section Frame.
Import ConcatFile.
Variable fs : gmap string (list byte).

Lemma fh_Close_returns (h : option File) log :
  ∃ h' e evs, fh_Close h log = Done (h', e, log ++ evs).
Proof.
  destruct h as [[name data q []]|]; cbn.
  - eexists _, _, []. by rewrite app_nil_r.
  - by eexists _, _, [_].
  - eexists _, _, []. by rewrite app_nil_r.
Qed.

Lemma os_Open_returns name log :
  ∃ h e evs, os_Open fs name log = Done (h, e, log ++ evs).
Proof.
  unfold os_Open. destruct (fs !! name); cbn.
  - by eexists _, _, [_].
  - eexists _, _, []. by rewrite app_nil_r.
Qed.

Lemma goToNextFile_layout self log self' inc err log' :
  goToNextFile fs self log = Done (self', inc, err, log') →
  layout self' = layout self.
Proof.
  unfold goToNextFile. case_bool_decide; [|by intros [= <- _ _ _]].
  mstep. destruct (fh_Close_returns (fh self) log) as (h1 & e1 & evs1 & ->). cbn.
  destruct (slice_get _ _) as [name| |]; cbn; [|done..].
  destruct (os_Open_returns name (log ++ evs1)) as (h2 & e2 & evs2 & ->). cbn.
  by intros [= <- _ _ _].
Qed.

Lemma Read_rec_layout : ∀ fuel self b log self' b' n err log',
  Read_rec fs fuel self b log = Done (self', b', n, err, log') →
  layout self' = layout self.
Proof.
  assert (∀ self (b : list byte) log (k : t → list byte → M (t * list byte * Z * option error)),
            (∀ self1 b1 log1 self' b' n err log',
               layout self1 = layout self →
               k self1 b1 log1 = Done (self', b', n, err, log') →
               layout self' = layout self) →
            ∀ self' b' n err log',
              (if negb (currently_open self) then mret (self, b, 0, Some io_ErrUnexpectedEOF)
               else
                 let num_requested := len b in
                 let '(fh, b, n, err) := fh_Read (fh self) b in
                 let self := set_super_pos (add64 (super_pos self) n) (set_fh fh self) in
                 if bool_decide (n = num_requested) then mret (self, b, n, err)
                 else
                   '(self, incremented, incr_err) ← goToNextFile fs self;
                   match incr_err with
                   | Some e => mret (self, b, n, Some e)
                   | None =>
                       if (incremented : bool) then
                         '(self, rest, sub_n, sub_err) ← k self (drop (Z.to_nat n) b);
                         mret (self, take (Z.to_nat n) b ++ rest, n + sub_n, sub_err)
                       else if bool_decide (0 < n) then mret (self, b, n, err)
                       else mret (self, b, n, Some io_EOF)
                   end) log
              = Done (self', b', n, err, log') →
              layout self' = layout self) as Hbody.
  { intros self b log k Hk self' b' n err log'.
    destruct (currently_open self); cbn [negb]; [|by intros [= <- _ _ _ _]].
    destruct (fh_Read (fh self) b) as [[[h1 b1] n1] err1]. cbn zeta.
    case_bool_decide; [by intros [= <- _ _ _ _]|].
    mstep. set (self1 := set_super_pos _ _).
    destruct (goToNextFile fs self1 log) as [[[[self2 inc] e2] log2]| |] eqn:Hgo;
      cbn; [|done..].
    apply goToNextFile_layout in Hgo. change (layout self1) with (layout self) in Hgo.
    destruct e2; [by intros [= <- _ _ _ _]; rewrite Hgo|].
    destruct inc.
    - destruct (k self2 (drop (Z.to_nat n1) b1) log2)
        as [[[[[self3 b3] n3] e3] log3]| |] eqn:Hrec; cbn; [|done..].
      intros [= <- _ _ _ _]. by eapply Hk.
    - case_bool_decide; by intros [= <- _ _ _ _]; rewrite Hgo. }
  induction fuel as [|fuel IH]; intros self b log self' b' n err log'.
  - cbn [Read_rec]. apply (Hbody self b log (λ _ _, diverge)).
    intros ? ? ? ? ? ? ? ? _. done.
  - cbn [Read_rec]. apply (Hbody self b log (Read_rec fs fuel)).
    intros self1 b1 log1 ? ? ? ? ? Hl Hrec.
    rewrite <- Hl. by eapply IH.
Qed.

Lemma Read_layout self b log self' b' n err log' :
  Read fs self b log = Done (self', b', n, err, log') → layout self' = layout self.
Proof. apply Read_rec_layout. Qed.

Lemma Seek_switch_layout self seek_index log self' err log' :
  Seek_switch fs self seek_index log = Done (self', err, log') →
  layout self' = layout self.
Proof.
  unfold Seek_switch. case_bool_decide; [|by intros [= <- _ _]].
  mstep. destruct (fh_Close_returns (fh self) log) as (h1 & e1 & evs1 & ->). cbn.
  destruct e1; [by intros [= <- _ _]|].
  destruct (slice_get _ _) as [name| |]; cbn; [|done..].
  destruct (os_Open_returns name (log ++ evs1)) as (h2 & e2 & evs2 & ->). cbn.
  destruct e2; by intros [= <- _ _].
Qed.

Lemma Seek_move_layout self p seek_index log self' ret err log' :
  Seek_move fs self p seek_index log = Done (self', ret, err, log') →
  layout self' = layout self.
Proof.
  unfold Seek_move. mstep.
  destruct (Seek_switch fs self seek_index log) as [[[self1 e1] log1]| |] eqn:Hsw;
    cbn; [|done..].
  apply Seek_switch_layout in Hsw.
  destruct e1; [by intros [= <- _ _ _]|].
  destruct (slice_get _ _) as [start| |]; cbn; [|done..].
  destruct (fh_Seek _ _ _) as [[h2 q2] e2].
  destruct e2; cbn; by intros [= <- _ _ _].
Qed.

Lemma Seek_layout self offset whence log self' ret err log' :
  Seek fs self offset whence log = Done (self', ret, err, log') →
  layout self' = layout self.
Proof.
  assert (∀ p (m : M Z),
            (seek_index ← m; Seek_move fs self p (Seek_clamp self whence seek_index)) log
            = Done (self', ret, err, log') → layout self' = layout self) as Hmove.
  { intros p m. mstep. destruct (m log) as [[i log1]| |]; cbn; [|done..].
    apply Seek_move_layout. }
  unfold Seek. repeat case_bool_decide; try apply Hmove; by intros [= <- _ _ _].
Qed.

Lemma Close_layout self log self' err log' :
  Close self log = Done (self', err, log') → layout self' = layout self.
Proof.
  unfold Close. destruct (currently_open self); [|by intros [= <- _ _]].
  mstep.
  destruct (fh_Close_returns (fh self) log) as (h1 & e1 & evs1 & Hc).
  change (fh (set_currently_open false self)) with (fh self). rewrite Hc. cbn.
  by intros [= <- _ _].
Qed.

End Frame.

(** ** No call panics *)

Section Safety.
Import ConcatFile.
Variable fs : gmap string (list byte).
Variable datas : list (list byte).

Lemma Inv_Sound self : Inv fs datas self → Sound fs datas self.
Proof.
  intros []. constructor; try done.
  destruct inv_fh0 as (f & -> & _). by eexists.
Qed.

Lemma Sound_set self co h sp :
  Sound fs datas self → is_Some h →
  Sound fs datas
    (mk co (filenames self) (num_files self) (current_file_num self) h sp
        (super_size self) (super_pos_start self) (super_pos_end self)).
Proof. intros [] Hh. by constructor. Qed.

Ltac sound_set :=
  unfold set_super_pos, set_currently_open, set_fh;
  cbn; apply Sound_set.

Lemma Sound_file self (j : nat) :
  Sound fs datas self → (j < length datas)%nat →
  ∃ name data, filenames self !! j = Some name ∧ fs !! name = Some data.
Proof.
  intros HS Hj. destruct (lookup_lt_is_Some_2 datas j) as [data Hdata]; [done|].
  destruct (Forall2_lookup_r _ _ _ _ _ (snd_names _ _ _ HS) Hdata)
    as (name & Hname & Hfs).
  by exists name, data.
Qed.

Lemma fh_Close_Some (h : option File) log :
  is_Some h →
  ∃ h' e evs, fh_Close h log = Done (h', e, log ++ evs) ∧ is_Some h'.
Proof.
  intros [[name data q []] ->]; cbn.
  - eexists _, _, []. rewrite app_nil_r. split; [done | by eexists].
  - eexists _, _, [_]. split; [done | by eexists].
Qed.

Lemma Seek_switch_sound self (j : nat) log :
  Sound fs datas self → (j < length datas)%nat →
  ∃ self' err log',
    Seek_switch fs self (Z.of_nat j) log = Done (self', err, log')
    ∧ Sound fs datas self'.
Proof.
  intros HS Hj. unfold Seek_switch. case_bool_decide as Hchg; [|by eexists _, _, _].
  mstep.
  destruct (fh_Close_Some (fh self) log (snd_fh _ _ _ HS)) as (h1 & e1 & evs1 & -> & Hh1).
  cbn. destruct e1 as [e|].
  { eexists _, _, _. split; [done|]. by sound_set. }
  destruct (Sound_file self j HS Hj) as (name & data & Hname & Hfs).
  rewrite (slice_get_Some _ (Z.of_nat j) name) by (rewrite ?Nat2Z.id; done || lia).
  mstep. rewrite (os_Open_ok _ _ _ _ Hfs). cbn.
  eexists _, _, _. split; [done|].
  destruct HS. constructor; cbn; try done. unfold len; lia.
Qed.

Lemma Seek_move_sound self p (j : nat) log :
  Sound fs datas self → (j < length datas)%nat →
  ∃ self' ret err log',
    Seek_move fs self p (Z.of_nat j) log = Done (self', ret, err, log')
    ∧ Sound fs datas self'.
Proof.
  intros HS Hj. unfold Seek_move. mstep.
  destruct (Seek_switch_sound self j log HS Hj) as (self1 & e1 & log1 & -> & HS1).
  cbn. destruct e1 as [e|]; [by eexists _, _, _, _|].
  rewrite (start_get datas self1 (snd_start _ _ _ HS1) j Hj). cbn.
  destruct (snd_fh _ _ _ HS1) as [f Hf]. rewrite Hf. cbn [fh_Seek].
  destruct (File_Seek f _ _) as [[f2 q2] e2].
  destruct e2 as [e|]; cbn.
  - eexists _, _, _, _. split; [done|]. sound_set; [done | by eexists].
  - eexists _, _, _, _. split; [done|]. sound_set; [done | by eexists].
Qed.

Lemma Seek_sound self offset whence log :
  Sound fs datas self →
  ∃ self' ret err log',
    Seek fs self offset whence log = Done (self', ret, err, log')
    ∧ Sound fs datas self'.
Proof.
  intros HS.
  assert (0 < length datas)%nat as Hn.
  { pose proof (snd_cur _ _ _ HS). unfold len in *. lia. }
  assert (∀ i, i = seekImpossible ∨ (∃ j, i = Z.of_nat j ∧ (j < length datas)%nat) →
            ∃ j, Seek_clamp self whence i = Z.of_nat j ∧ (j < length datas)%nat)
    as Hclamp.
  { intros i Hi. unfold Seek_clamp. case_bool_decide as Himp.
    - case_bool_decide.
      + by exists 0%nat.
      + exists (length datas - 1)%nat. rewrite (snd_num _ _ _ HS). unfold len. lia.
    - destruct Hi as [?|(j & -> & Hj)]; [done | by exists j]. }
  assert (∀ p, ∃ self' ret err log',
            (seek_index ← lift (findSeekIndex self p);
             Seek_move fs self p (Seek_clamp self whence seek_index)) log
            = Done (self', ret, err, log') ∧ Sound fs datas self') as Hfind.
  { intros p.
    destruct (findSeekIndex_cases datas self (snd_num _ _ _ HS) (snd_start _ _ _ HS)
                (snd_end _ _ _ HS) p) as (r & Hr & Hcases).
    mstep. rewrite Hr. cbn.
    destruct (Hclamp r) as (j & -> & Hj).
    { destruct Hcases as [[-> _]|(j & -> & Hj & _)]; [by left | right; by exists j]. }
    by apply Seek_move_sound. }
  unfold Seek. repeat case_bool_decide; try apply Hfind; try by eexists _, _, _, _.
  mstep. destruct (Hclamp 0) as (j & -> & Hj); [right; by exists 0%nat|].
  by apply Seek_move_sound.
Qed.

Lemma goToNextFile_sound self log :
  Sound fs datas self →
  ∃ self' inc err log',
    goToNextFile fs self log = Done (self', inc, err, log')
    ∧ Sound fs datas self'
    ∧ (inc = true → current_file_num self' = current_file_num self + 1).
Proof.
  intros HS. unfold goToNextFile. case_bool_decide as Hlt; [|by eexists _, _, _, _].
  mstep.
  destruct (fh_Close_Some (fh self) log (snd_fh _ _ _ HS)) as (h1 & e1 & evs1 & -> & Hh1).
  cbn. pose proof (snd_cur _ _ _ HS) as Hcur.
  rewrite (snd_num _ _ _ HS) in Hlt. unfold len in Hlt, Hcur.
  destruct (Sound_file self (Z.to_nat (current_file_num self + 1)) HS)
    as (name & data & Hname & Hfs); [lia|].
  rewrite (slice_get_Some _ _ name) by (done || lia).
  mstep. rewrite (os_Open_ok _ _ _ _ Hfs). cbn.
  eexists _, _, _, _. split; [done|]. split; [|done].
  destruct HS. constructor; cbn; try done. unfold len; lia.
Qed.

Lemma Read_rec_sound : ∀ fuel self b log,
  Sound fs datas self →
  len datas - current_file_num self ≤ Z.of_nat fuel →
  ∃ self' b' n err log',
    Read_rec fs fuel self b log = Done (self', b', n, err, log')
    ∧ Sound fs datas self'.
Proof.
  induction fuel as [|fuel IH]; intros self b log HS Hfuel.
  { pose proof (snd_cur _ _ _ HS). lia. }
  cbn [Read_rec]. destruct (currently_open self); cbn [negb];
    [|by eexists _, _, _, _, _].
  destruct (snd_fh _ _ _ HS) as [f Hf]. rewrite Hf. cbn [fh_Read].
  destruct (File_Read f b) as [[[f1 b1] n1] e1].
  case_bool_decide.
  { eexists _, _, _, _, _. split; [done|]. sound_set; [done | by eexists]. }
  mstep. set (self1 := set_super_pos _ _).
  assert (Sound fs datas self1) as HS1.
  { unfold self1. sound_set; [done | by eexists]. }
  destruct (goToNextFile_sound self1 log HS1)
    as (self2 & inc & e2 & log2 & -> & HS2 & Hinc).
  cbn. destruct e2 as [e|]; [by eexists _, _, _, _, _|].
  destruct inc.
  - destruct (IH self2 (drop (Z.to_nat n1) b1) log2 HS2)
      as (self3 & b3 & n3 & e3 & log3 & -> & HS3).
    { rewrite Hinc by done. cbn. lia. }
    cbn. by eexists _, _, _, _, _.
  - case_bool_decide; by eexists _, _, _, _, _.
Qed.

Lemma Read_sound self b log :
  Sound fs datas self →
  ∃ self' b' n err log',
    Read fs self b log = Done (self', b', n, err, log') ∧ Sound fs datas self'.
Proof.
  intros HS. apply Read_rec_sound; [done|].
  pose proof (snd_cur _ _ _ HS). rewrite (snd_num _ _ _ HS). lia.
Qed.

Lemma Close_sound self log :
  Sound fs datas self →
  ∃ self' err log', Close self log = Done (self', err, log') ∧ Sound fs datas self'.
Proof.
  intros HS. unfold Close. destruct (currently_open self); [|by eexists _, _, _].
  mstep.
  destruct (fh_Close_Some (fh self) log (snd_fh _ _ _ HS)) as (h1 & e1 & evs1 & Hc & Hh1).
  change (fh (set_currently_open false self)) with (fh self). rewrite Hc. cbn.
  eexists _, _, _. split; [done|]. by sound_set.
Qed.

Lemma do_call_sound c self log :
  Sound fs datas self →
  ∃ self' log',
    do_call fs c self log = Done (self', log')
    ∧ Sound fs datas self' ∧ layout self' = layout self.
Proof.
  intros HS. destruct c as [offset whence|b|]; cbn [do_call]; mstep.
  - destruct (Seek_sound self offset whence log HS)
      as (self' & ret & err & log' & Hseek & HS').
    rewrite Hseek. cbn. exists self', log'.
    split; [done|]. split; [done|]. by eapply Seek_layout.
  - destruct (Read_sound self b log HS)
      as (self' & b' & n & err & log' & Hread & HS').
    rewrite Hread. cbn. exists self', log'.
    split; [done|]. split; [done|]. by eapply Read_layout.
  - destruct (Close_sound self log HS) as (self' & err & log' & Hclose & HS').
    rewrite Hclose. cbn. exists self', log'.
    split; [done|]. split; [done|]. by eapply Close_layout.
Qed.

Lemma calls_sound : ∀ cs self log,
  Sound fs datas self →
  ∃ self' log',
    calls fs cs self log = Done (self', log')
    ∧ Sound fs datas self' ∧ layout self' = layout self.
Proof.
  induction cs as [|c cs IH]; intros self log HS.
  - by exists self, log.
  - cbn [calls]. mstep.
    destruct (do_call_sound c self log HS) as (self1 & log1 & -> & HS1 & Hl1).
    cbn. destruct (IH self1 log1 HS1) as (self' & log' & Hrun & HS' & Hl').
    exists self', log'. split; [done|]. split; [done|]. by rewrite Hl'.
Qed.

(** X12: [Open] on names of existing files returns a stream on which
    whatever calls of [Seek], [Read] and [Close] a client makes, with
    whatever arguments and in whatever order, also after an error and
    after [Close]: every call returns, none panics, and the names, the
    number of files, the table of offsets and the size, which is the
    total length of the files, stay what [Open] computed. *)
Theorem calls_after_Open_return_and_keep_the_layout (names : list string) log :
  Forall2 (λ name data, fs !! name = Some data) names datas → datas ≠ [] →
  len (concat datas) ≤ MaxInt64 →
  ∃ self log1,
    Open fs names log = Done (Some self, None, log1)
    ∧ ∀ cs log2, ∃ self' log',
        calls fs cs self log2 = Done (self', log')
        ∧ layout self' = layout self
        ∧ Size self' = len (concat datas).
Proof.
  intros Hnames Hne Hbound.
  destruct (Open_spec fs names datas Hnames Hbound log Hne)
    as (self & log1 & Hopen & HI & _).
  exists self, log1. split; [done|]. intros cs log2.
  destruct (calls_sound cs self log2 (Inv_Sound self HI))
    as (self' & log' & Hrun & _ & Hl).
  exists self', log'. split; [done|]. split; [done|].
  unfold Size. injection Hl as _ _ -> _ _. apply (inv_size _ _ _ HI).
Qed.

End Safety.

(** ** [Read] from any position of the handle *)

Lemma crossings_S names i k a b :
  names !! i = Some a → names !! S i = Some b →
  crossings names i (S k) = EvClose a :: EvOpen b :: crossings names (S i) k.
Proof.
  intros Ha Hb. unfold crossings.
  rewrite (drop_S _ _ _ Ha), !(drop_S _ _ _ Hb). done.
Qed.

Section ReadWalk.
Import ConcatFile.
Variable fs : gmap string (list byte).
Variable datas : list (list byte).

Lemma Read_rec_walk : ∀ fuel self f b log,
  Inv fs datas self → currently_open self = true → fh self = Some f →
  let c := Z.to_nat (current_file_num self) in
  let avail := drop (Z.to_nat (f_offset f)) (f_data f) in
  let src := avail ++ concat (drop (S c) datas) in
  let n := (length b `min` length src)%nat in
  len datas - current_file_num self ≤ Z.of_nat fuel →
  ∃ self' err,
    Read_rec fs fuel self b log
    = Done (self', take n src ++ drop n b, Z.of_nat n, err,
            log ++ crossings (filenames self) c
                             (Z.to_nat (current_file_num self') - c))
    ∧ Inv fs datas self'
    ∧ currently_open self' = true
    ∧ filenames self' = filenames self
    ∧ super_pos self' = wrap64 (super_pos self + Z.of_nat n)
    ∧ current_file_num self ≤ current_file_num self'
    ∧ (current_file_num self < current_file_num self' →
         len avail + (offs datas (Z.to_nat (current_file_num self')) - offs datas (S c))
         < len b)
    ∧ ((n < length b)%nat → Exhausted datas self')
    ∧ (n = length b → err = None)
    ∧ (b ≠ [] → n = 0%nat → err = Some io_EOF).
Proof.
  induction fuel as [|fuel IH]; intros self f b log HI Hco Hf c avail src n Hfuel.
  { pose proof (inv_cur _ _ _ HI). lia. }
  destruct (inv_fh _ _ _ HI) as (f' & Hf' & Hcl & Hq & Hfn & Hfd).
  rewrite Hf in Hf'. injection Hf' as <-.
  destruct f as [name data q cl]. cbn in Hcl, Hq, Hfn, Hfd, avail. subst cl.
  pose proof (inv_cur _ _ _ HI) as Hcur.
  fold c in Hfn, Hfd.
  set (m := (length b `min` length avail)%nat).
  cbn [Read_rec]. rewrite Hco. cbn [negb]. rewrite Hf. cbn [fh_Read].
  rewrite File_Read_spec by done. fold avail m.
  assert (len src = len avail + len (concat (drop (S c) datas))) as Hsrc.
  { unfold src. apply len_app. }
  pose proof (len_nonneg (concat (drop (S c) datas))) as Hrest.
  unfold len at 1.
  case_bool_decide as Hfull.
  - (* the current file fills the buffer *)
    assert (n = m) as Hn.
    { unfold n. rewrite <- (Nat2Z.id (length src)). fold (len src). unfold len in *. lia. }
    rewrite Hn.
    eexists (set_super_pos _ (set_fh _ self)), _.
    split.
    { cbn. rewrite Nat.sub_diag. unfold crossings. cbn. rewrite app_nil_r.
      unfold src. rewrite take_app_le by lia. reflexivity. }
    unfold set_super_pos, set_fh; cbn.
    split; [eapply Inv_set; try done; cbn; lia|].
    split; [done|]. split; [done|]. split; [done|]. split; [lia|].
    split; [lia|]. split; [lia|].
    split.
    { intros _. rewrite bool_decide_false; [done|]. intros [Hne ->].
      destruct b; [done | cbn in Hfull; lia]. }
    intros Hne ->. destruct b; [done | cbn in Hfull; lia].
  - (* the current file is exhausted before the buffer is full *)
    assert (m = length avail) as Hm by lia.
    assert (m < length b)%nat as Hmb by lia.
    set (self1 := set_super_pos _ _).
    assert (Inv fs datas self1) as HI1.
    { unfold self1, set_super_pos, set_fh; cbn.
      eapply Inv_set; try done; cbn; lia. }
    assert (length (take m avail) = m) as Htk by (rewrite length_take; lia).
    destruct (decide (current_file_num self < len datas - 1)) as [Hmore|Hlast].
    + destruct (goToNextFile_more fs datas self1 _ log HI1 eq_refl Hmore)
        as (self2 & name2 & data2 & Hgo & HI2 & Hcur2 & Hd2 & Hf2 & Hsp2 & Hco2).
      cbn in Hcur2, Hd2, Hsp2, Hco2.
      pose proof (goToNextFile_layout _ _ _ _ _ _ _ Hgo) as Hl2.
      assert (filenames self2 = filenames self) as Hnames2 by (by injection Hl2).
      assert (S c = Z.to_nat (current_file_num self2)) as Hc2 by lia.
      replace (Z.to_nat (current_file_num self + 1)) with (S c) in Hd2 by lia.
      assert (filenames self !! S c = Some name2) as Hfn2.
      { destruct (inv_fh _ _ _ HI2) as (f2 & Hf2' & _ & _ & Hfn2 & _).
        rewrite Hf2 in Hf2'. injection Hf2' as <-.
        by rewrite <- Hc2, Hnames2 in Hfn2. }
      mstep. rewrite Hgo. cbn. rewrite Nat2Z.id.
      rewrite drop_app_length', take_app_length' by done.
      assert (concat (drop (S c) datas) = data2 ++ concat (drop (S (S c)) datas))
        as Hrest2.
      { by rewrite (drop_S _ _ _ Hd2). }
      destruct (IH self2 _ (drop m b) (log ++ [EvClose name; EvOpen name2])
                  HI2 (eq_trans Hco2 Hco) Hf2)
        as (self3 & err & Hrec & HI3 & Hco3 & Hnames3 & Hsp3 & Hmono3 & Hneed3
            & Hshort3 & Hfull3 & Heof3).
      { lia. }
      cbn [f_offset f_data] in Hrec, Hsp3, Hneed3, Hshort3, Hfull3, Heof3.
      change (Z.to_nat 0) with 0%nat in Hrec, Hsp3, Hneed3, Hshort3, Hfull3, Heof3.
      rewrite <- ?Hc2, ?drop_0 in Hrec, Hsp3, Hneed3, Hshort3, Hfull3, Heof3.
      rewrite <- Hrest2 in Hrec, Hsp3, Hshort3, Hfull3, Heof3.
      rewrite length_drop in Hrec, Hsp3, Hshort3, Hfull3, Heof3.
      set (n2 := ((length b - m) `min` length (concat (drop (S c) datas)))%nat) in *.
      assert (n = (m + n2)%nat) as Hn.
      { unfold n, n2, src. rewrite length_app. lia. }
      rewrite Hrec. cbn.
      exists self3, err.
      split.
      { rewrite Hn. unfold src. rewrite <- !app_assoc. cbn.
        rewrite take_app_ge by lia. rewrite take_ge by lia.
        rewrite drop_drop, Nat2Z.inj_add, <- !app_assoc.
        replace (m + n2 - length avail)%nat with n2 by lia.
        rewrite Hnames2.
        replace (Z.to_nat (current_file_num self3) - c)%nat
          with (S (Z.to_nat (current_file_num self3) - S c)) by lia.
        by rewrite (crossings_S _ _ _ _ _ Hfn Hfn2). }
      split; [done|]. split; [done|]. split; [congruence|].
      split.
      { rewrite Hsp3, Hsp2. unfold add64. rewrite wrap64_add_l. f_equal. lia. }
      split; [lia|].
      split.
      { intros _. destruct (decide (current_file_num self2 < current_file_num self3))
          as [Hlt|Hge].
        - specialize (Hneed3 Hlt). rewrite (offs_S _ _ _ Hd2) in Hneed3.
          unfold len in *. rewrite length_drop in Hneed3. lia.
        - replace (Z.to_nat (current_file_num self3)) with (S c) by lia.
          unfold len. lia. }
      split; [intros Hnb; apply Hshort3; lia|].
      split; [intros Hnb; apply Hfull3; lia|].
      intros Hne Hn0; apply Heof3; [|lia].
      intros Hd. apply (f_equal length) in Hd. rewrite length_drop in Hd.
      cbn in Hd. lia.
    + mstep. rewrite (goToNextFile_last fs datas self1 log HI1) by done. cbn.
      assert (concat (drop (S c) datas) = []) as Hnil.
      { rewrite drop_ge; [done|]. unfold len in *. lia. }
      assert (n = m) as Hn.
      { unfold n, src. rewrite Hnil, app_nil_r. done. }
      assert (take n src = take m avail) as Htake.
      { rewrite Hn. unfold src. by rewrite Hnil, app_nil_r. }
      rewrite Htake, Hn.
      assert (log ++ crossings (filenames self) c (c - c) = log) as Hlog.
      { rewrite Nat.sub_diag. unfold crossings. cbn. by rewrite app_nil_r. }
      assert (Exhausted datas self1) as Hex.
      { split; [cbn; unfold len in *; lia|].
        eexists. split; [reflexivity|]. cbn.
        unfold avail in Hm. rewrite length_drop in Hm. unfold len. lia. }
      case_bool_decide as Hpos; cbn.
      * rewrite bool_decide_false by (intros [_ ?]; lia).
        exists self1, None. cbn. fold c. rewrite Hlog.
        split; [done|]. split; [done|]. split; [done|]. split; [done|].
        split; [done|]. split; [lia|]. split; [lia|].
        split; [done|].
        split; [done|]. intros _ ?; lia.
      * exists self1, (Some io_EOF). cbn. fold c. rewrite Hlog.
        split; [done|]. split; [done|]. split; [done|]. split; [done|].
        split; [done|]. split; [lia|]. split; [lia|].
        split; [done|].
        split; [intros ?; lia|]. done.
Qed.

Lemma Read_walk self f b log :
  Inv fs datas self → currently_open self = true → fh self = Some f →
  let c := Z.to_nat (current_file_num self) in
  let avail := drop (Z.to_nat (f_offset f)) (f_data f) in
  let src := avail ++ concat (drop (S c) datas) in
  let n := (length b `min` length src)%nat in
  ∃ self' err,
    Read fs self b log
    = Done (self', take n src ++ drop n b, Z.of_nat n, err,
            log ++ crossings (filenames self) c
                             (Z.to_nat (current_file_num self') - c))
    ∧ Inv fs datas self'
    ∧ currently_open self' = true
    ∧ filenames self' = filenames self
    ∧ super_pos self' = wrap64 (super_pos self + Z.of_nat n)
    ∧ current_file_num self ≤ current_file_num self'
    ∧ (current_file_num self < current_file_num self' →
         len avail + (offs datas (Z.to_nat (current_file_num self')) - offs datas (S c))
         < len b)
    ∧ ((n < length b)%nat → Exhausted datas self')
    ∧ (n = length b → err = None)
    ∧ (b ≠ [] → n = 0%nat → err = Some io_EOF).
Proof.
  intros HI Hco Hf c avail src n. unfold Read.
  apply Read_rec_walk; try done.
  pose proof (inv_cur _ _ _ HI). rewrite (inv_num _ _ _ HI). lia.
Qed.

(** X13: one [Read] on an open stream walks forward over the files: the
    handles it closes and opens are those of the files from the current
    one to the one it ends in, each closed before the next is opened, so
    one handle is open at any time.  It leaves a file only when the buffer
    reaches beyond the start of the next one, and a [Read] that returns
    fewer bytes than the buffer holds ends in the last file. *)
Theorem Read_walks_the_files_in_order self (b : list byte) log :
  Inv fs datas self → currently_open self = true → Positioned datas self →
  ∃ self' b' n err,
    let c := Z.to_nat (current_file_num self) in
    let c' := Z.to_nat (current_file_num self') in
    Read fs self b log
    = Done (self', b', n, err, log ++ crossings (filenames self) c (c' - c))
    ∧ (c ≤ c' < length datas)%nat
    ∧ ((c < c')%nat → offs datas c' < super_pos self + len b)
    ∧ (n < len b → S c' = length datas).
Proof.
  intros HI Hco (f & Hf & Hsp & Hqle).
  destruct (inv_fh _ _ _ HI) as (f' & Hf' & _ & Hq & _ & Hfd).
  rewrite Hf in Hf'. injection Hf' as <-.
  pose proof (offs_nonneg datas (Z.to_nat (current_file_num self))) as Hoc.
  pose proof (offs_S _ _ _ Hfd) as HoS.
  pose proof (offs_le_total datas (S (Z.to_nat (current_file_num self)))) as HoT.
  pose proof (inv_bound _ _ _ HI) as Hb.
  pose proof (inv_cur _ _ _ HI) as Hcur.
  assert (len (drop (Z.to_nat (f_offset f)) (f_data f)) = len (f_data f) - f_offset f)
    as Havail.
  { unfold len in *. rewrite length_drop. lia. }
  assert (len (concat (drop (S (Z.to_nat (current_file_num self))) datas))
          = len (concat datas) - offs datas (S (Z.to_nat (current_file_num self))))
    as Hrest.
  { rewrite <- drop_concat_offs. unfold len. rewrite length_drop.
    unfold len in HoT. lia. }
  destruct (Read_walk self f b log HI Hco Hf)
    as (self' & err & Hread & HI' & _ & _ & _ & Hmono & Hneed & Hshort & _).
  pose proof (inv_cur _ _ _ HI') as Hcur'.
  eexists self', _, _, err. cbn zeta.
  split; [exact Hread|].
  split; [unfold len in *; lia|].
  split.
  { intros Hlt. rewrite Havail in Hneed. lia. }
  intros Hlt. destruct Hshort as [Hlast _]; unfold len in *; lia.
Qed.

(** X10: a [Read] on an open stream that returns fewer bytes than the
    buffer holds leaves the stream exhausted: on the last file, with the
    handle at the end of that file or past it.  On an exhausted stream a
    [Read] into a non-empty buffer returns no byte and [io.EOF], leaves
    the buffer as it was, opens and closes no handle, keeps the cursor and
    leaves the stream exhausted; so once a [Read] has come up short every
    [Read] after it reports the end of the stream. *)
Theorem Read_short_of_the_buffer_exhausts_the_stream self (b : list byte) log :
  Inv fs datas self → currently_open self = true →
  ∃ self' buf n err log',
    Read fs self b log = Done (self', buf, n, err, log')
    ∧ Inv fs datas self'
    ∧ currently_open self' = true
    ∧ (n < len b → Exhausted datas self')
    ∧ (Exhausted datas self → b ≠ [] →
         buf = b ∧ n = 0 ∧ err = Some io_EOF ∧ log' = log
         ∧ Exhausted datas self'
         ∧ (- 2 ^ 63 ≤ Tell self ≤ MaxInt64 → Tell self' = Tell self)).
Proof.
  intros HI Hco.
  destruct (inv_fh _ _ _ HI) as (f & Hf & Hcl & Hq & Hfn & Hfd).
  destruct (Read_walk self f b log HI Hco Hf)
    as (self' & err & Hread & HI' & Hco' & _ & Hsp & Hmono & _ & Hshort & _ & Heof).
  set (c := Z.to_nat (current_file_num self)) in *.
  set (src := drop (Z.to_nat (f_offset f)) (f_data f) ++ concat (drop (S c) datas)) in *.
  set (n := (length b `min` length src)%nat) in *.
  pose proof (inv_cur _ _ _ HI) as Hcur.
  pose proof (inv_cur _ _ _ HI') as Hcur'.
  eexists self', _, _, err, _. split; [exact Hread|].
  split; [done|]. split; [done|]. split.
  { intros Hlt. apply Hshort. unfold len in Hlt. lia. }
  intros [Hlast (f0 & Hf0 & Hend)] Hne.
  rewrite Hf in Hf0. injection Hf0 as <-.
  assert (src = []) as Hsrc.
  { unfold src. rewrite (drop_ge (f_data f)) by (unfold len in *; lia).
    rewrite (drop_ge datas) by (unfold c, len in *; lia). done. }
  assert (n = 0%nat) as Hn.
  { unfold n. rewrite Hsrc. cbn. lia. }
  assert (0 < length b)%nat as Hb by (destruct b; [done | cbn; lia]).
  rewrite Hn, Hsrc. rewrite Hn in Hsp.
  replace (Z.to_nat (current_file_num self') - c)%nat with 0%nat
    by (unfold c, len in *; lia).
  split; [done|]. split; [done|]. split; [by apply Heof|].
  split; [unfold crossings; cbn; by rewrite app_nil_r|].
  split; [apply Hshort; lia|].
  intros Hrange. unfold Tell. rewrite Hsp, Z.add_0_r. by apply wrap64_id.
Qed.

(** X14: on a stream of at most [MAX_NON_LFS] bytes [Seek(0, end)]
    succeeds and returns the size, but the file it settles in is the
    first one, with the handle at the offset [Size] of that file.  The
    [Read] after it therefore returns the contents of the files after the
    first, as far as the buffer reaches: with no error when the buffer is
    filled, with [io.EOF] when a non-empty buffer gets no byte, and with
    at least one byte, and the cursor beyond the size, when the buffer is
    not empty and the files after the first are not all empty. *)
Theorem Seek_to_the_end_then_Read_returns_the_later_files self (b : list byte) log :
  Inv fs datas self → currently_open self = true →
  len (concat datas) ≤ MAX_NON_LFS →
  let rest := concat (drop 1 datas) in
  let n := (length b `min` length rest)%nat in
  ∃ self1 log1 f1 self2 err log2,
    Seek fs self 0 WHENCE_END log = Done (self1, Size self, None, log1)
    ∧ Size self = len (concat datas)
    ∧ Tell self1 = Size self
    ∧ currently_open self1 = true
    ∧ current_file_num self1 = 0
    ∧ fh self1 = Some f1
    ∧ f_closed f1 = false
    ∧ datas !! 0%nat = Some (f_data f1)
    ∧ f_offset f1 = Size self
    ∧ Read fs self1 b log1 = Done (self2, take n rest ++ drop n b, Z.of_nat n, err, log2)
    ∧ Tell self2 = Size self + Z.of_nat n
    ∧ (n = length b → err = None)
    ∧ (b ≠ [] → n = 0%nat → err = Some io_EOF)
    ∧ (b ≠ [] → rest ≠ [] → (0 < n)%nat ∧ Size self < Tell self2).
Proof.
  intros HI Hco Hbound rest n.
  assert (0 < length datas)%nat as Hn.
  { pose proof (inv_cur _ _ _ HI). unfold len in *. lia. }
  pose proof (len_nonneg (concat datas)) as Htot.
  unfold Size, Tell. rewrite (inv_size _ _ _ HI).
  destruct (Seek_move_spec fs datas self (len (concat datas)) 0 log HI Hn)
    as (self1 & ret & e & evs & Hmove & HI1 & Hcur1 & Hok).
  rewrite offs_0 in Hok.
  destruct Hok as (-> & -> & Hsp1 & Hco1 & f1 & Hf1 & Hq1);
    [unfold MAX_NON_LFS, MaxInt64 in *; lia|].
  assert (Seek fs self 0 WHENCE_END log
          = Done (self1, len (concat datas), None, log ++ evs)) as Hseek.
  { unfold Seek. rewrite !bool_decide_false by done.
    rewrite (bool_decide_true (WHENCE_END = WHENCE_END)) by done.
    rewrite bool_decide_false by done.
    rewrite (inv_size _ _ _ HI).
    assert (add64 (len (concat datas)) 0 = len (concat datas)) as ->.
    { unfold add64. rewrite Z.add_0_r. apply wrap64_id.
      unfold MAX_NON_LFS, MaxInt64 in *. lia. }
    mstep.
    rewrite (findSeekIndex_outside datas self (inv_num _ _ _ HI) (inv_start _ _ _ HI)
               (inv_end _ _ _ HI)) by lia.
    cbn. unfold Seek_clamp. rewrite !bool_decide_true by done. exact Hmove. }
  destruct (inv_fh _ _ _ HI1) as (f' & Hf' & Hcl1 & _ & _ & Hfd1).
  rewrite Hf1 in Hf'. injection Hf' as <-.
  rewrite Hcur1 in Hfd1. change (Z.to_nat (Z.of_nat 0)) with 0%nat in Hfd1.
  pose proof (offs_S _ _ _ Hfd1) as HoS. rewrite offs_0 in HoS.
  pose proof (offs_le_total datas 1) as HoT.
  assert (drop (Z.to_nat (f_offset f1)) (f_data f1) = []) as Havail.
  { apply drop_ge. unfold len in *. lia. }
  assert (len rest ≤ len (concat datas)) as Hrest.
  { unfold rest. rewrite <- drop_concat_offs. unfold len. rewrite length_drop. lia. }
  destruct (Read_walk self1 f1 b (log ++ evs) HI1 (eq_trans Hco1 Hco) Hf1)
    as (self2 & err & Hread & _ & _ & _ & Hsp2 & _ & _ & _ & Hfull & Heof).
  rewrite Hcur1, Havail in Hread, Hsp2, Hfull, Heof.
  change (Z.to_nat (Z.of_nat 0)) with 0%nat in Hread, Hsp2, Hfull, Heof.
  cbn [app] in Hread, Hsp2, Hfull, Heof.
  fold rest in Hread, Hsp2, Hfull, Heof. fold n in Hread, Hsp2, Hfull, Heof.
  assert (Z.of_nat n ≤ len rest) as Hnle by (unfold n, len; lia).
  assert (super_pos self2 = len (concat datas) + Z.of_nat n) as Hsp2'.
  { rewrite Hsp2, Hsp1. apply wrap64_id. unfold MAX_NON_LFS, MaxInt64 in *. lia. }
  eexists self1, _, f1, self2, err, _.
  split; [exact Hseek|]. split; [done|]. split; [done|].
  split; [congruence|]. split; [done|]. split; [done|]. split; [done|].
  split; [done|]. split; [lia|]. split; [exact Hread|].
  split; [done|]. split; [done|]. split; [done|].
  intros Hb Hr.
  assert (0 < n)%nat as Hpos.
  { unfold n. destruct b; [done|]. destruct rest; [done|]. cbn. lia. }
  split; [done | lia].
Qed.

(** X15: [Seek] from the start to the size, or to a position past it up
    to [MAX_NON_LFS], other than 0, succeeds and returns that position,
    and [Tell] reports it; the stream is then on the last file and
    exhausted.  A [Read] into a non-empty buffer then returns no byte and
    [io.EOF], leaves the buffer and the cursor as they were, and opens or
    closes no handle. *)
Theorem Seek_past_the_end_then_Read_reports_the_end self p (b : list byte) log :
  Inv fs datas self → currently_open self = true →
  len (concat datas) ≤ p ≤ Z.max (len (concat datas)) MAX_NON_LFS →
  p ≠ 0 → b ≠ [] →
  ∃ self1 log1 self2,
    Seek fs self p WHENCE_ORIGIN log = Done (self1, p, None, log1)
    ∧ Tell self1 = p
    ∧ currently_open self1 = true
    ∧ Exhausted datas self1
    ∧ Read fs self1 b log1 = Done (self2, b, 0, Some io_EOF, log1)
    ∧ Tell self2 = p.
Proof.
  intros HI Hco Hp Hp0 Hb.
  assert (0 < length datas)%nat as Hn.
  { pose proof (inv_cur _ _ _ HI). unfold len in *. lia. }
  pose proof (len_nonneg (concat datas)) as Htot.
  pose proof (inv_bound _ _ _ HI) as Hbound.
  assert (p ≤ MaxInt64) as HpM by (unfold MAX_NON_LFS, MaxInt64 in *; lia).
  set (j := (length datas - 1)%nat).
  pose proof (offs_le_total datas j) as Hoj.
  destruct (Seek_move_spec fs datas self p j log HI)
    as (self1 & ret & e & evs & Hmove & HI1 & Hcur1 & Hok); [lia|].
  destruct Hok as (-> & -> & Hsp1 & Hco1 & f1 & Hf1 & Hq1); [lia|].
  assert (Seek fs self p WHENCE_ORIGIN log = Done (self1, p, None, log ++ evs)) as Hseek.
  { unfold Seek. rewrite bool_decide_true by done.
    rewrite bool_decide_false by done. mstep.
    rewrite (findSeekIndex_outside datas self (inv_num _ _ _ HI) (inv_start _ _ _ HI)
               (inv_end _ _ _ HI)) by lia.
    cbn. unfold Seek_clamp. rewrite bool_decide_true by done.
    rewrite bool_decide_false by done.
    rewrite (inv_num _ _ _ HI). unfold len.
    replace (Z.of_nat (length datas) - 1) with (Z.of_nat j) by lia. exact Hmove. }
  destruct (inv_fh _ _ _ HI1) as (f' & Hf' & _ & _ & _ & Hfd1).
  rewrite Hf1 in Hf'. injection Hf' as <-.
  rewrite Hcur1, Nat2Z.id in Hfd1.
  pose proof (offs_S _ _ _ Hfd1) as HoS.
  assert (offs datas (S j) = len (concat datas)) as HoT by (apply offs_ge; lia).
  assert (Exhausted datas self1) as Hex.
  { split; [unfold len; lia|]. exists f1. split; [done | lia]. }
  assert (drop (Z.to_nat (f_offset f1)) (f_data f1) = []) as Havail.
  { apply drop_ge. unfold len in *. lia. }
  assert (drop (S j) datas = []) as Hnil by (apply drop_ge; lia).
  destruct (Read_walk self1 f1 b (log ++ evs) HI1 (eq_trans Hco1 Hco) Hf1)
    as (self2 & err & Hread & HI2 & _ & _ & Hsp2 & Hmono & _ & _ & _ & Heof).
  rewrite Hcur1, Nat2Z.id, Havail, Hnil in Hread, Hsp2, Heof.
  cbn in Hread, Hsp2, Heof. rewrite Nat.min_0_r in Hread, Hsp2, Heof.
  cbn in Hread. rewrite Heof in Hread by done.
  pose proof (inv_cur _ _ _ HI2) as Hcur2.
  replace (Z.to_nat (current_file_num self2) - j)%nat with 0%nat in Hread
    by (unfold len in *; lia).
  unfold crossings in Hread. cbn in Hread. rewrite app_nil_r in Hread.
  exists self1, (log ++ evs), self2.
  split; [exact Hseek|]. split; [done|]. split; [congruence|].
  split; [done|]. split; [exact Hread|].
  unfold Tell. rewrite Hsp2, Hsp1, Z.add_0_r. apply wrap64_id.
  unfold MaxInt64 in *. lia.
Qed.

End ReadWalk.

(** ** More about [Seek] *)

Section SeekMore.
Import ConcatFile.
Variable fs : gmap string (list byte).
Variable datas : list (list byte).

(** Seeking in file [j] to a position before its start. *)
Lemma Seek_move_before self p (j : nat) log :
  Inv fs datas self → (j < length datas)%nat →
  - 2 ^ 63 ≤ p - offs datas j < 0 →
  ∃ self' evs f,
    Seek_move fs self p (Z.of_nat j) log
    = Done (self', offs datas j, Some os_EINVAL, log ++ evs)
    ∧ Inv fs datas self'
    ∧ current_file_num self' = Z.of_nat j
    ∧ currently_open self' = false
    ∧ super_pos self' = offs datas j
    ∧ fh self' = Some f ∧ f_closed f = false.
Proof.
  intros HI Hj Hp. unfold Seek_move. mstep.
  destruct (Seek_switch_spec fs datas self j log HI Hj)
    as (self1 & evs & -> & HI1 & Hcur1 & Hsp1 & Hco1 & _).
  cbn.
  rewrite (start_get datas self1 (inv_start _ _ _ HI1) j Hj). cbn.
  destruct (inv_fh _ _ _ HI1) as (f & Hf & Hcl & Hq & Hfn & Hfd).
  rewrite Hf. unfold fh_Seek, File_Seek. rewrite Hcl.
  rewrite (bool_decide_true (WHENCE_ORIGIN = WHENCE_START)) by done.
  pose proof (offs_nonneg datas j) as Ho.
  pose proof (offs_le_total datas j) as Ho'.
  pose proof (inv_bound _ _ _ HI) as Hb.
  rewrite bool_decide_false.
  2: { unfold sub64. rewrite wrap64_id; unfold MaxInt64 in *; lia. }
  cbn.
  assert (add64 (offs datas j) 0 = offs datas j) as ->.
  { unfold add64. rewrite Z.add_0_r. apply wrap64_id. unfold MaxInt64 in *. lia. }
  eexists _, evs, f. split; [reflexivity|].
  unfold set_super_pos, set_fh, set_currently_open; cbn.
  split; [by eapply Inv_set|]. done.
Qed.

(** X16: [Seek] from the start to a negative position [p] that is not
    below [-2^63 + Size], so that the offset in the file computed from it
    does not wrap around, fails with the error of the file's own seek, but
    not without effect: it moves to the last file, sets the cursor to the
    start of that file and returns it, and marks the stream closed while
    the handle stays open.  After it every [Read] returns
    [io.ErrUnexpectedEOF], and [Close] returns no error and closes
    nothing. *)
Theorem Seek_before_the_start_fails_and_ends_the_stream self p log :
  Inv fs datas self →
  - 2 ^ 63 + len (concat datas) ≤ p < 0 →
  ∃ self1 log1 f,
    Seek fs self p WHENCE_ORIGIN log
    = Done (self1, offs datas (length datas - 1), Some os_EINVAL, log1)
    ∧ Tell self1 = offs datas (length datas - 1)
    ∧ current_file_num self1 = num_files self - 1
    ∧ fh self1 = Some f ∧ f_closed f = false
    ∧ (∀ b log2, Read fs self1 b log2
                 = Done (self1, b, 0, Some io_ErrUnexpectedEOF, log2))
    ∧ (∀ log2, Close self1 log2 = Done (self1, None, log2)).
Proof.
  intros HI Hp.
  assert (0 < length datas)%nat as Hn.
  { pose proof (inv_cur _ _ _ HI). unfold len in *. lia. }
  set (j := (length datas - 1)%nat).
  pose proof (offs_nonneg datas j) as Ho.
  pose proof (offs_le_total datas j) as Ho'.
  destruct (Seek_move_before self p j log HI)
    as (self1 & evs & f & Hmove & HI1 & Hcur1 & Hco1 & Hsp1 & Hf1 & Hcl1); [lia..|].
  exists self1, (log ++ evs), f.
  split.
  { unfold Seek. rewrite bool_decide_true by done.
    rewrite bool_decide_false by lia. mstep.
    rewrite (findSeekIndex_outside datas self (inv_num _ _ _ HI) (inv_start _ _ _ HI)
               (inv_end _ _ _ HI)) by lia.
    cbn. unfold Seek_clamp. rewrite bool_decide_true by done.
    rewrite bool_decide_false by done.
    rewrite (inv_num _ _ _ HI). unfold len.
    replace (Z.of_nat (length datas) - 1) with (Z.of_nat j) by lia. exact Hmove. }
  split; [done|].
  split; [rewrite (inv_num _ _ _ HI); unfold len; lia|].
  split; [done|]. split; [done|]. split.
  - intros b log2. unfold Read.
    match goal with |- Read_rec _ ?fuel _ _ _ = _ => destruct fuel end;
      cbn [Read_rec]; by rewrite Hco1.
  - intros log2. unfold Close. by rewrite Hco1.
Qed.

(** X17: on an open stream [Seek(d, current)] to a position inside the
    stream succeeds and returns the cursor plus [d], also for [d = 0], and
    a [Read] into a one-byte buffer right after it returns the byte at
    that index of the concatenation of the files and moves the cursor by
    one. *)
Theorem Seek_current_moves_by_offset self d (x : byte) log :
  Inv fs datas self → currently_open self = true → Positioned datas self →
  0 ≤ Tell self + d < len (concat datas) →
  ∃ self1 log1 self2 log2 y,
    Seek fs self d WHENCE_CURRENT log = Done (self1, Tell self + d, None, log1)
    ∧ Tell self1 = Tell self + d
    ∧ Read fs self1 [x] log1 = Done (self2, [y], 1, None, log2)
    ∧ concat datas !! Z.to_nat (Tell self + d) = Some y
    ∧ Tell self2 = Tell self + d + 1.
Proof.
  unfold Tell. intros HI Hco HP Hp.
  pose proof (inv_bound _ _ _ HI) as Hb.
  assert (∃ self1 evs,
            Seek fs self d WHENCE_CURRENT log
            = Done (self1, super_pos self + d, None, log ++ evs)
            ∧ Inv fs datas self1 ∧ Positioned datas self1
            ∧ super_pos self1 = super_pos self + d
            ∧ currently_open self1 = true)
    as (self1 & evs & Hseek & HI1 & HP1 & Hsp1 & Hco1).
  { unfold Seek. rewrite bool_decide_false by done.
    rewrite bool_decide_true by done.
    case_bool_decide as Hd.
    - subst d. exists self, []. rewrite app_nil_r, Z.add_0_r. done.
    - assert (add64 (super_pos self) d = super_pos self + d) as ->.
      { unfold add64. apply wrap64_id. unfold MaxInt64 in *. lia. }
      destruct (Seek_resolved fs datas self _ WHENCE_CURRENT log HI Hp)
        as (self1 & evs & Hseek & HI1 & HP1 & Hsp1 & Hco1).
      exists self1, evs. split; [done|]. split; [done|]. split; [done|].
      split; [done | congruence]. }
  destruct (Read_spec fs datas self1 [x] (log ++ evs) HI1 Hco1 HP1)
    as (self2 & err & evs2 & Hread & _ & _ & _ & Hsp2 & Herr & _).
  rewrite Hsp1 in Hread, Herr, Hsp2.
  destruct (lookup_lt_is_Some_2 (concat datas) (Z.to_nat (super_pos self + d)))
    as [y Hy].
  { unfold len in Hp. lia. }
  rewrite (drop_S _ _ _ Hy) in Hread, Herr, Hsp2. cbn in Hread, Herr, Hsp2.
  rewrite Herr in Hread by done.
  exists self1, (log ++ evs), self2, ((log ++ evs) ++ evs2), y.
  split; [done|]. split; [done|]. split; [done|]. split; [done|]. lia.
Qed.

(** X18: on an open stream whose handle stands where the cursor says
    ([Positioned]: so it is after [Open], after a [Read] on such a stream
    and after a successful [Seek] to a position inside the stream; so it
    is not after [Seek(0, end)] on several files or after a [Seek] past
    the end), [Seek] from the start to the position [Tell] reports
    succeeds and changes nothing a reader can see: [Tell] is the same, and
    a [Read] after it returns the same bytes and the same count as a
    [Read] without it, and leaves the cursor at the same position. *)
Theorem Seek_to_Tell_keeps_the_position self (b : list byte) log :
  Inv fs datas self → currently_open self = true → Positioned datas self →
  ∃ self1 log1 self2 self2' b' n err err' log2 log2',
    Seek fs self (Tell self) WHENCE_ORIGIN log = Done (self1, Tell self, None, log1)
    ∧ Tell self1 = Tell self
    ∧ Read fs self b log = Done (self2, b', n, err, log2)
    ∧ Read fs self1 b log1 = Done (self2', b', n, err', log2')
    ∧ Tell self2' = Tell self2.
Proof.
  unfold Tell. intros HI Hco HP.
  pose proof (Positioned_bounds fs datas self HI HP) as Hp.
  pose proof (inv_bound _ _ _ HI) as Hb.
  assert (0 < length datas)%nat as Hn.
  { pose proof (inv_cur _ _ _ HI). unfold len in *. lia. }
  assert (∃ self1 evs,
            Seek fs self (super_pos self) WHENCE_ORIGIN log
            = Done (self1, super_pos self, None, log ++ evs)
            ∧ Inv fs datas self1 ∧ Positioned datas self1
            ∧ super_pos self1 = super_pos self
            ∧ currently_open self1 = true)
    as (self1 & evs & Hseek & HI1 & HP1 & Hsp1 & Hco1).
  { destruct (decide (super_pos self < len (concat datas))) as [Hin|Hout].
    { destruct (Seek_start_spec fs datas self (super_pos self) log HI)
        as (self1 & evs & Hseek & HI1 & HP1 & Hsp1 & Hco1); [lia|].
      exists self1, evs. split; [done|]. split; [done|]. split; [done|].
      split; [done | congruence]. }
    assert (super_pos self = len (concat datas)) as Hend by lia.
    assert (∀ j : nat,
              (j < length datas)%nat → offs datas (S j) = len (concat datas) →
              ∃ self1 evs,
                Seek_move fs self (super_pos self) (Z.of_nat j) log
                = Done (self1, super_pos self, None, log ++ evs)
                ∧ Inv fs datas self1 ∧ Positioned datas self1
                ∧ super_pos self1 = super_pos self
                ∧ currently_open self1 = true) as Hmove.
    { intros j Hj HoS.
      pose proof (offs_mono_S datas j) as Hmono.
      pose proof (offs_nonneg datas j) as Ho.
      destruct (Seek_move_spec fs datas self (super_pos self) j log HI Hj)
        as (self1 & ret & e & evs & Hmove & HI1 & Hcur1 & Hok).
      destruct Hok as (-> & -> & Hsp1 & Hco1 & f1 & Hf1 & Hq1); [lia|].
      exists self1, evs. split; [done|]. split; [done|]. split; [|split; congruence].
      destruct (inv_fh _ _ _ HI1) as (f' & Hf' & _ & _ & _ & Hfd1).
      rewrite Hf1 in Hf'. injection Hf' as <-.
      rewrite Hcur1, Nat2Z.id in Hfd1.
      pose proof (offs_S _ _ _ Hfd1) as HoS'.
      exists f1. split; [done|]. rewrite Hcur1, Nat2Z.id. lia. }
    unfold Seek. rewrite bool_decide_true by done.
    case_bool_decide as H0.
    - mstep. unfold Seek_clamp. rewrite bool_decide_false by done.
      apply (Hmove 0%nat Hn).
      pose proof (offs_mono_S datas 0). pose proof (offs_le_total datas 1).
      pose proof (offs_0 datas). lia.
    - mstep.
      rewrite (findSeekIndex_outside datas self (inv_num _ _ _ HI) (inv_start _ _ _ HI)
                 (inv_end _ _ _ HI)) by lia.
      cbn. unfold Seek_clamp. rewrite bool_decide_true by done.
      rewrite bool_decide_false by done.
      rewrite (inv_num _ _ _ HI). unfold len at 1.
      replace (Z.of_nat (length datas) - 1) with (Z.of_nat (length datas - 1)) by lia.
      apply Hmove; [lia|].
      replace (S (length datas - 1)) with (length datas) by lia.
      apply offs_ge. lia. }
  destruct (Read_spec fs datas self b log HI Hco HP)
    as (self2 & err & evs2 & Hread & _ & _ & _ & Hsp2 & _).
  destruct (Read_spec fs datas self1 b (log ++ evs) HI1 Hco1 HP1)
    as (self2' & err' & evs2' & Hread' & _ & _ & _ & Hsp2' & _).
  rewrite Hsp1 in Hread', Hsp2'.
  eexists self1, _, self2, self2', _, _, err, err', _, _.
  split; [exact Hseek|]. split; [done|]. split; [exact Hread|].
  split; [exact Hread'|]. lia.
Qed.

Lemma concat_lookup_at (j : nat) (d : list byte) p :
  datas !! j = Some d → offs datas j ≤ p < offs datas j + len d →
  concat datas !! Z.to_nat p = d !! Z.to_nat (p - offs datas j).
Proof.
  intros Hd Hp. pose proof (offs_nonneg datas j) as Ho.
  set (q := Z.to_nat (p - offs datas j)).
  assert (q < length d)%nat as Hq by (unfold q, len in *; lia).
  replace (Z.to_nat p) with (Z.to_nat (offs datas j) + q + 0)%nat by (unfold q; lia).
  rewrite <- lookup_drop, (drop_concat_at _ _ _ _ Hd) by lia.
  rewrite lookup_app_l by (rewrite length_drop; lia).
  by rewrite lookup_drop, Nat.add_0_r.
Qed.

(** X19: [findSeekIndex] returns for every position either no file, and
    that exactly when the position is negative or at or past the end, or
    the index of the file that holds it: the position minus the start
    offset recorded for that file is an offset inside the file, and the
    byte of the file there is the byte of the stream at the position. *)
Theorem findSeekIndex_locates_the_byte self p :
  Inv fs datas self →
  ∃ r, findSeekIndex self p = Done r
    ∧ ((r = seekImpossible ∧ (p < 0 ∨ Size self ≤ p))
       ∨ (∃ (j : nat) d start,
            r = Z.of_nat j ∧ 0 ≤ p < Size self
            ∧ datas !! j = Some d
            ∧ super_pos_start self !! j = Some start
            ∧ 0 ≤ p - start < len d
            ∧ concat datas !! Z.to_nat p = d !! Z.to_nat (p - start))).
Proof.
  intros HI. unfold Size. rewrite (inv_size _ _ _ HI).
  destruct (findSeekIndex_cases datas self (inv_num _ _ _ HI) (inv_start _ _ _ HI)
              (inv_end _ _ _ HI) p) as (r & Hr & [[-> Hout]|(j & -> & Hj & Hlo & Hhi)]).
  - exists seekImpossible. split; [done|]. by left.
  - exists (Z.of_nat j). split; [done|]. right.
    destruct (lookup_lt_is_Some_2 datas j Hj) as [d Hd].
    pose proof (offs_S _ _ _ Hd) as HoS.
    pose proof (offs_nonneg datas j) as Ho.
    pose proof (offs_le_total datas (S j)) as HoT.
    exists j, d, (offs datas j).
    split; [done|]. split; [lia|]. split; [done|].
    split; [by apply (start_lookup datas self (inv_start _ _ _ HI))|].
    split; [lia|]. apply concat_lookup_at; [done | lia].
Qed.

Lemma Seek_switch_events self f (j : nat) name log :
  Inv fs datas self → (j < length datas)%nat →
  fh self = Some f → filenames self !! j = Some name →
  ∃ self',
    Seek_switch fs self (Z.of_nat j) log
    = Done (self', None,
            log ++ (if bool_decide (Z.of_nat j = current_file_num self) then []
                    else [EvClose (f_name f); EvOpen name]))
    ∧ Inv fs datas self'
    ∧ current_file_num self' = Z.of_nat j
    ∧ super_pos self' = super_pos self
    ∧ currently_open self' = currently_open self
    ∧ (Z.of_nat j = current_file_num self → fh self' = Some f).
Proof.
  intros HI Hj Hf Hname. unfold Seek_switch. case_bool_decide as Hchg.
  - rewrite bool_decide_false by done.
    destruct (inv_fh _ _ _ HI) as (f' & Hf' & Hcl & Hq & Hfn & Hfd).
    rewrite Hf in Hf'. injection Hf' as <-.
    destruct (Inv_file fs datas self j HI Hj) as (name' & data & Hname' & Hdata & Hfs).
    rewrite Hname in Hname'. injection Hname' as <-.
    destruct f as [fname fdata q cl]. cbn in Hcl. subst cl.
    rewrite Hf. mstep.
    rewrite (slice_get_Some _ (Z.of_nat j) name) by (rewrite ?Nat2Z.id; done || lia).
    mstep. rewrite (os_Open_ok _ _ _ _ Hfs). cbn.
    eexists. split; [by rewrite <- app_assoc|].
    unfold set_current_file_num, set_fh; cbn.
    split; [by apply Inv_reopen|]. done.
  - assert (Z.of_nat j = current_file_num self) as Hsame.
    { destruct (decide (Z.of_nat j = current_file_num self)); [done|]. by destruct Hchg. }
    rewrite bool_decide_true by done.
    exists self. rewrite app_nil_r. done.
Qed.

(** X20: a [Seek] from the start to a position inside the stream, other
    than 0, ends in the file that holds the position, with the handle at
    the position minus the start of that file.  When that is the current
    file no file is opened or closed; otherwise the current file is closed
    and the target file is opened, and nothing else. *)
Theorem Seek_start_switches_one_handle self f p log :
  Inv fs datas self → fh self = Some f →
  0 < p < len (concat datas) →
  ∃ self1 (j : nat) name f1,
    Seek fs self p WHENCE_ORIGIN log
    = Done (self1, p, None,
            log ++ (if bool_decide (Z.of_nat j = current_file_num self) then []
                    else [EvClose (f_name f); EvOpen name]))
    ∧ holds datas p j
    ∧ filenames self !! j = Some name
    ∧ current_file_num self1 = Z.of_nat j
    ∧ fh self1 = Some f1
    ∧ f_name f1 = name
    ∧ datas !! j = Some (f_data f1)
    ∧ f_offset f1 = p - offs datas j
    ∧ f_closed f1 = false.
Proof.
  intros HI Hf Hp.
  destruct (findSeekIndex_inside datas self (inv_num _ _ _ HI) (inv_start _ _ _ HI)
              (inv_end _ _ _ HI) p) as (j & Hfind & Hj & Hh); [lia|].
  destruct (Inv_file fs datas self j HI Hj) as (name & data & Hname & Hdata & Hfs).
  destruct (Seek_switch_events self f j name log HI Hj Hf Hname)
    as (self' & Hsw & HI' & Hcur' & Hsp' & Hco' & Hkeep).
  destruct (inv_fh _ _ _ HI') as (f' & Hf' & Hcl' & Hq' & Hfn' & Hfd').
  rewrite Hcur', Nat2Z.id in Hfn', Hfd'.
  assert (filenames self' = filenames self) as Hnames.
  { pose proof (Seek_switch_layout _ _ _ _ _ _ _ Hsw) as Hl. by injection Hl. }
  rewrite Hnames, Hname in Hfn'. injection Hfn' as Hfn'.
  pose proof (offs_nonneg datas j) as Ho.
  pose proof (inv_bound _ _ _ HI) as Hb.
  destruct Hh as [Hlo Hhi].
  eexists _, j, name, (mkFile (f_name f') (f_data f') (p - offs datas j) false).
  split.
  { unfold Seek. rewrite bool_decide_true by done.
    rewrite bool_decide_false by lia. mstep. rewrite Hfind. cbn.
    unfold Seek_clamp. rewrite bool_decide_false by (unfold seekImpossible; lia).
    unfold Seek_move. mstep. rewrite Hsw. cbn.
    rewrite (start_get datas self' (inv_start _ _ _ HI') j Hj). cbn.
    rewrite Hf'. unfold fh_Seek, File_Seek. rewrite Hcl'.
    rewrite (bool_decide_true (WHENCE_ORIGIN = WHENCE_START)) by done.
    assert (sub64 p (offs datas j) = p - offs datas j) as ->.
    { unfold sub64. apply wrap64_id. unfold MaxInt64 in *. lia. }
    rewrite bool_decide_true by lia. cbn. reflexivity. }
  cbn. split; [done|]. split; [done|]. split; [done|]. split; [done|].
  split; [done|]. split; [done|]. done.
Qed.

(** X21: on an open stream [Seek(d, end)] with [-Size <= d < 0] succeeds
    and returns [Size + d], and a [Read] into a one-byte buffer right
    after it returns the byte at that index of the concatenation of the
    files: the byte [-d] places before the end. *)
Theorem Seek_end_counts_back_from_the_size self d (x : byte) log :
  Inv fs datas self → currently_open self = true →
  - Size self ≤ d < 0 →
  ∃ self1 log1 self2 log2 y,
    Seek fs self d WHENCE_END log = Done (self1, Size self + d, None, log1)
    ∧ Tell self1 = Size self + d
    ∧ Read fs self1 [x] log1 = Done (self2, [y], 1, None, log2)
    ∧ concat datas !! Z.to_nat (Size self + d) = Some y
    ∧ Tell self2 = Size self + d + 1.
Proof.
  unfold Tell, Size. intros HI Hco Hd.
  pose proof (inv_bound _ _ _ HI) as Hb.
  rewrite (inv_size _ _ _ HI) in *.
  destruct (Seek_resolved fs datas self (len (concat datas) + d) WHENCE_END log HI)
    as (self1 & evs & Hseek & HI1 & HP1 & Hsp1 & Hco1); [lia|].
  destruct (Read_spec fs datas self1 [x] (log ++ evs) HI1 (eq_trans Hco1 Hco) HP1)
    as (self2 & err & evs2 & Hread & _ & _ & _ & Hsp2 & Herr & _).
  rewrite Hsp1 in Hread, Herr, Hsp2.
  destruct (lookup_lt_is_Some_2 (concat datas) (Z.to_nat (len (concat datas) + d)))
    as [y Hy].
  { unfold len in *. lia. }
  rewrite (drop_S _ _ _ Hy) in Hread, Herr, Hsp2. cbn in Hread, Herr, Hsp2.
  rewrite Herr in Hread by done.
  exists self1, (log ++ evs), self2, ((log ++ evs) ++ evs2), y.
  split.
  { unfold Seek. rewrite !bool_decide_false by done.
    rewrite (bool_decide_true (WHENCE_END = WHENCE_END)) by done.
    rewrite bool_decide_false by lia.
    rewrite (inv_size _ _ _ HI).
    assert (add64 (len (concat datas)) d = len (concat datas) + d) as ->.
    { unfold add64. apply wrap64_id. unfold MaxInt64 in *. lia. }
    exact Hseek. }
  split; [done|]. split; [done|]. split; [done|]. lia.
Qed.

End SeekMore.

(** * Instances of the further properties *)

Lemma New_rewinds_every_file_witness :
  ∃ starts ends,
    MultiReadSeeker.New [mkFile "a" (bytes "ABCDE") 3 false; openFile "b" "FGH"]
    = Done (Some (MultiReadSeeker.mk
                    [Some (openFile "a" "ABCDE"); Some (openFile "b" "FGH")]
                    starts ends 0 0), None).
Proof.
  apply (New_rewinds_every_file
           [mkFile "a" (bytes "ABCDE") 3 false; openFile "b" "FGH"]).
  - discriminate.
  - repeat constructor.
Defined.

Lemma New_reports_the_first_failing_seek_witness :
  MultiReadSeeker.New [openFile "a" "AB"; closedFile "b" "C"; openFile "c" "D"]
  = Done (None, Some (errors_Wrapf os_ErrClosed "Seeking to end of %v" (FmtChild 1))).
Proof.
  apply (New_reports_the_first_failing_seek
           [openFile "a" "AB"] (closedFile "b" "C") [openFile "c" "D"]).
  - repeat constructor.
  - reflexivity.
Defined.

Lemma Initialize_twice_panics_witness :
  ∃ self,
    MultiReadSeeker.New [openFile "a" "AB"] = Done (Some self, None)
    ∧ MultiReadSeeker.Initialize self [openFile "b" "C"]
      = Panicked "MultiReadSeeker already initialized".
Proof.
  apply (Initialize_twice_panics [openFile "a" "AB"] [openFile "b" "C"]).
  - discriminate.
  - repeat constructor.
Defined.

Lemma New_then_Close_on_open_files_witness :
  ∃ self self',
    MultiReadSeeker.New [openFile "a" "AB"; openFile "b" "C"] = Done (Some self, None)
    ∧ MultiReadSeeker.Close self = Done (self', None)
    ∧ MultiReadSeeker.children self'
      = [Some (closedFile "a" "AB"); Some (closedFile "b" "C")].
Proof.
  apply (New_then_Close_on_open_files [openFile "a" "AB"; openFile "b" "C"]).
  - discriminate.
  - repeat constructor.
Defined.

Lemma Close_after_failed_Initialize_panics_witness :
  ∃ self,
    MultiReadSeeker.Initialize MultiReadSeeker.zero
      [openFile "a" "AB"; closedFile "b" "C"; openFile "c" "D"]
    = Done (self, Some (errors_Wrapf os_ErrClosed "Seeking to end of %v" (FmtChild 1)))
    ∧ MultiReadSeeker.Close self
      = Panicked "invalid memory address or nil pointer dereference".
Proof.
  apply (Close_after_failed_Initialize_panics
           [openFile "a" "AB"] (closedFile "b" "C") [openFile "c" "D"]).
  - repeat constructor.
  - reflexivity.
  - discriminate.
Defined.

Lemma Open_reports_the_first_missing_file_witness :
  Open fs3 ["a"; "zz"; "c"] []
  = Done (None, Some (os_ErrNotExist "zz"), [EvOpen "a"; EvClose "a"]).
Proof.
  apply (Open_reports_the_first_missing_file fs3 ["a"] ["c"] "zz" []).
  - constructor; [by eexists | constructor].
  - reflexivity.
Defined.

Lemma Open_opens_the_first_file_witness :
  ∃ self,
    Open fs3 names3 []
    = Done (Some self, None,
            [EvOpen "a"; EvClose "a"; EvOpen "b"; EvClose "b"; EvOpen "c"; EvClose "c";
             EvOpen "a"])
    ∧ Tell self = 0
    ∧ Size self = 12
    ∧ current_file_num self = 0
    ∧ fh self = Some (mkFile "a" (bytes "ABCDE") 0 false)
    ∧ currently_open self = true.
Proof.
  apply (Open_opens_the_first_file fs3 names3 datas3 "a" (bytes "ABCDE") []).
  - repeat constructor.
  - vm_compute. discriminate.
  - reflexivity.
  - reflexivity.
Defined.

Lemma Open_then_Read_returns_the_files_witness :
  ∃ self log1 self' err log2,
    Open fs3 names3 [] = Done (Some self, None, log1)
    ∧ Read fs3 self (bytes ".......") log1
      = Done (self', bytes "ABCDEFG", 7, err, log2)
    ∧ Tell self' = 7.
Proof.
  apply (Open_then_Read_returns_the_files fs3 datas3 names3 (bytes ".......") []).
  - repeat constructor.
  - vm_compute. discriminate.
  - discriminate.
Defined.

Lemma Reads_in_a_row_are_one_Read_witness :
  ∃ self1 buf1 n1 e1 log1 self2 buf2 n2 e2 log2 self12 buf12 e12 log12,
    Read fs3 cf3_at4 (bytes "..") [] = Done (self1, buf1, Z.of_nat n1, e1, log1)
    ∧ Read fs3 self1 (bytes "...") log1 = Done (self2, buf2, Z.of_nat n2, e2, log2)
    ∧ Read fs3 cf3_at4 (bytes ".....") []
      = Done (self12, buf12, Z.of_nat (n1 + n2), e12, log12)
    ∧ take (n1 + n2) buf12 = take n1 buf1 ++ take n2 buf2
    ∧ Tell self2 = Tell self12
    ∧ Tell self2 = 4 + Z.of_nat (n1 + n2).
Proof.
  apply (Reads_in_a_row_are_one_Read fs3 datas3 cf3_at4 (bytes "..") (bytes "...") []).
  - concrete_Inv.
  - reflexivity.
  - eexists. split; [reflexivity|].
    split; [reflexivity | vm_compute; discriminate].
Defined.

Lemma Read_short_of_the_buffer_exhausts_the_stream_witness :
  ∃ self' buf n err log',
    Read fs3 cf3_end (bytes "..") [] = Done (self', buf, n, err, log')
    ∧ Inv fs3 datas3 self'
    ∧ currently_open self' = true
    ∧ (n < 2 → Exhausted datas3 self')
    ∧ (Exhausted datas3 cf3_end → bytes ".." ≠ [] →
         buf = bytes ".." ∧ n = 0 ∧ err = Some io_EOF ∧ log' = []
         ∧ Exhausted datas3 self'
         ∧ (- 2 ^ 63 ≤ 12 ≤ MaxInt64 → Tell self' = 12)).
Proof.
  apply (Read_short_of_the_buffer_exhausts_the_stream fs3 datas3 cf3_end
           (bytes "..") []).
  - concrete_Inv.
  - reflexivity.
Defined.

Lemma Close_ends_the_stream_witness :
  ∃ self1,
    Close cf3 [] = Done (self1, None, [EvClose "a"])
    ∧ currently_open self1 = false
    ∧ fh self1 = Some (closedFile "a" "ABCDE")
    ∧ (∀ log1, Close self1 log1 = Done (self1, None, log1))
    ∧ (∀ b log1,
         Read fs3 self1 b log1 = Done (self1, b, 0, Some io_ErrUnexpectedEOF, log1))
    ∧ (∀ p log1, ∃ self2 ret,
         Seek fs3 self1 p WHENCE_ORIGIN log1
         = Done (self2, ret, Some os_ErrClosed, log1)).
Proof.
  apply (Close_ends_the_stream fs3 datas3 cf3 (mkFile "a" (bytes "ABCDE") 0 false) []).
  - exact cf3_Inv.
  - reflexivity.
  - reflexivity.
Defined.

Lemma calls_after_Open_return_and_keep_the_layout_witness :
  ∃ self log1,
    Open fs3 names3 [] = Done (Some self, None, log1)
    ∧ ∀ cs log2, ∃ self' log',
        calls fs3 cs self log2 = Done (self', log')
        ∧ layout self' = layout self
        ∧ Size self' = 12.
Proof.
  apply (calls_after_Open_return_and_keep_the_layout fs3 datas3 names3 []).
  - repeat constructor.
  - discriminate.
  - vm_compute. discriminate.
Defined.

Lemma Read_walks_the_files_in_order_witness :
  ∃ self' b' n err,
    Read fs3 cf3_at4 (bytes ".....") []
    = Done (self', b', n, err,
            [] ++ crossings names3 0 (Z.to_nat (current_file_num self') - 0))
    ∧ (0 ≤ Z.to_nat (current_file_num self') < 3)%nat
    ∧ ((0 < Z.to_nat (current_file_num self'))%nat →
       offs datas3 (Z.to_nat (current_file_num self')) < 4 + 5)
    ∧ (n < 5 → S (Z.to_nat (current_file_num self')) = 3%nat).
Proof.
  apply (Read_walks_the_files_in_order fs3 datas3 cf3_at4 (bytes ".....") []).
  - concrete_Inv.
  - reflexivity.
  - eexists. split; [reflexivity|].
    split; [reflexivity | vm_compute; discriminate].
Defined.

Lemma Seek_to_the_end_then_Read_returns_the_later_files_witness :
  ∃ self1 log1 f1 self2 err log2,
    Seek fs3 cf3 0 WHENCE_END [] = Done (self1, 12, None, log1)
    ∧ Size cf3 = 12
    ∧ Tell self1 = 12
    ∧ currently_open self1 = true
    ∧ current_file_num self1 = 0
    ∧ fh self1 = Some f1
    ∧ f_closed f1 = false
    ∧ datas3 !! 0%nat = Some (f_data f1)
    ∧ f_offset f1 = 12
    ∧ Read fs3 self1 (bytes "....") log1 = Done (self2, bytes "FGHI", 4, err, log2)
    ∧ Tell self2 = 12 + 4
    ∧ (4%nat = 4%nat → err = None)
    ∧ (bytes "...." ≠ [] → 4%nat = 0%nat → err = Some io_EOF)
    ∧ (bytes "...." ≠ [] → bytes "FGHIJKL" ≠ [] → (0 < 4)%nat ∧ 12 < Tell self2).
Proof.
  apply (Seek_to_the_end_then_Read_returns_the_later_files fs3 datas3 cf3
           (bytes "....") []).
  - exact cf3_Inv.
  - reflexivity.
  - vm_compute. discriminate.
Defined.

Lemma Seek_past_the_end_then_Read_reports_the_end_witness :
  ∃ self1 log1 self2,
    Seek fs3 cf3 20 WHENCE_ORIGIN [] = Done (self1, 20, None, log1)
    ∧ Tell self1 = 20
    ∧ currently_open self1 = true
    ∧ Exhausted datas3 self1
    ∧ Read fs3 self1 (bytes ".") log1 = Done (self2, bytes ".", 0, Some io_EOF, log1)
    ∧ Tell self2 = 20.
Proof.
  apply (Seek_past_the_end_then_Read_reports_the_end fs3 datas3 cf3 20 (bytes ".") []).
  - exact cf3_Inv.
  - reflexivity.
  - vm_compute. split; discriminate.
  - discriminate.
  - discriminate.
Defined.

Lemma Seek_before_the_start_fails_and_ends_the_stream_witness :
  ∃ self1 log1 f,
    Seek fs3 cf3 (-1) WHENCE_ORIGIN [] = Done (self1, 8, Some os_EINVAL, log1)
    ∧ Tell self1 = 8
    ∧ current_file_num self1 = 3 - 1
    ∧ fh self1 = Some f ∧ f_closed f = false
    ∧ (∀ b log2, Read fs3 self1 b log2
                 = Done (self1, b, 0, Some io_ErrUnexpectedEOF, log2))
    ∧ (∀ log2, Close self1 log2 = Done (self1, None, log2)).
Proof.
  apply (Seek_before_the_start_fails_and_ends_the_stream fs3 datas3 cf3 (-1) []).
  - exact cf3_Inv.
  - vm_compute. split; [discriminate | reflexivity].
Defined.

Lemma Seek_current_moves_by_offset_witness :
  ∃ self1 log1 self2 log2 y,
    Seek fs3 cf3_at4 3 WHENCE_CURRENT [] = Done (self1, 4 + 3, None, log1)
    ∧ Tell self1 = 4 + 3
    ∧ Read fs3 self1 [Byte.x00] log1 = Done (self2, [y], 1, None, log2)
    ∧ concat datas3 !! Z.to_nat (4 + 3) = Some y
    ∧ Tell self2 = 4 + 3 + 1.
Proof.
  apply (Seek_current_moves_by_offset fs3 datas3 cf3_at4 3 Byte.x00 []).
  - concrete_Inv.
  - reflexivity.
  - eexists. split; [reflexivity|].
    split; [reflexivity | vm_compute; discriminate].
  - vm_compute. split; [discriminate | reflexivity].
Defined.

Lemma Seek_to_Tell_keeps_the_position_witness :
  ∃ self1 log1 self2 self2' b' n err err' log2 log2',
    Seek fs3 cf3_at4 4 WHENCE_ORIGIN [] = Done (self1, 4, None, log1)
    ∧ Tell self1 = 4
    ∧ Read fs3 cf3_at4 (bytes "..") [] = Done (self2, b', n, err, log2)
    ∧ Read fs3 self1 (bytes "..") log1 = Done (self2', b', n, err', log2')
    ∧ Tell self2' = Tell self2.
Proof.
  apply (Seek_to_Tell_keeps_the_position fs3 datas3 cf3_at4 (bytes "..") []).
  - concrete_Inv.
  - reflexivity.
  - eexists. split; [reflexivity|].
    split; [reflexivity | vm_compute; discriminate].
Defined.

Lemma findSeekIndex_locates_the_byte_witness :
  ∃ r, findSeekIndex cf3 6 = Done r
    ∧ ((r = seekImpossible ∧ (6 < 0 ∨ Size cf3 ≤ 6))
       ∨ (∃ (j : nat) d start,
            r = Z.of_nat j ∧ 0 ≤ 6 < Size cf3
            ∧ datas3 !! j = Some d
            ∧ super_pos_start cf3 !! j = Some start
            ∧ 0 ≤ 6 - start < len d
            ∧ concat datas3 !! Z.to_nat 6 = d !! Z.to_nat (6 - start))).
Proof.
  apply (findSeekIndex_locates_the_byte fs3 datas3 cf3 6).
  exact cf3_Inv.
Defined.

Lemma Seek_start_switches_one_handle_witness :
  ∃ self1 (j : nat) name f1,
    Seek fs3 cf3 6 WHENCE_ORIGIN []
    = Done (self1, 6, None,
            [] ++ (if bool_decide (Z.of_nat j = 0) then []
                   else [EvClose "a"; EvOpen name]))
    ∧ holds datas3 6 j
    ∧ names3 !! j = Some name
    ∧ current_file_num self1 = Z.of_nat j
    ∧ fh self1 = Some f1
    ∧ f_name f1 = name
    ∧ datas3 !! j = Some (f_data f1)
    ∧ f_offset f1 = 6 - offs datas3 j
    ∧ f_closed f1 = false.
Proof.
  apply (Seek_start_switches_one_handle fs3 datas3 cf3
           (mkFile "a" (bytes "ABCDE") 0 false) 6 []).
  - exact cf3_Inv.
  - reflexivity.
  - vm_compute. split; reflexivity.
Defined.

Lemma Seek_end_counts_back_from_the_size_witness :
  ∃ self1 log1 self2 log2 y,
    Seek fs3 cf3 (-5) WHENCE_END [] = Done (self1, 12 + -5, None, log1)
    ∧ Tell self1 = 12 + -5
    ∧ Read fs3 self1 [Byte.x00] log1 = Done (self2, [y], 1, None, log2)
    ∧ concat datas3 !! Z.to_nat (12 + -5) = Some y
    ∧ Tell self2 = 12 + -5 + 1.
Proof.
  apply (Seek_end_counts_back_from_the_size fs3 datas3 cf3 (-5) Byte.x00 []).
  - exact cf3_Inv.
  - reflexivity.
  - vm_compute. split; [discriminate | reflexivity].
Defined.
